(** * The simulation engine of server.js: grid, troop pools, commands, tick

    A shallow embedding of the [Game] class of [src/server.js] and of the
    server functions that drive it ([ensureBots], the request handlers and
    the periodic update), followed by the properties of the engine.

    Conventions of the embedding.
    - Grid coordinates and troop counts are JavaScript numbers that only
      ever hold integers here (every pool update adds or subtracts an
      integer, or goes through [Math.floor]); they are [Z].  Doubles hold
      the integers up to 2^53 exactly; the embedding covers the runs that
      stay within them.
    - The [percent] argument of [attack] and [expand] is a double.  It is
      given as a rational ([Q]) and stands for the double nearest to it,
      which is what the JSON parser makes of a decimal literal.  A
      product or a quotient of doubles is the exact one rounded to the
      nearest double, ties to even ([roundDouble]), so
      [Math.floor (troops * percent)] is the [Qfloor] of the rounded
      product.  Overflow to [Infinity] is not modelled.
    - [this.cells] is a JavaScript array: reading an index outside it
      gives [undefined] ([None]), and reading a property of [undefined]
      raises a [TypeError] ([Thrown]).
    - [this.players] is an object used as a dictionary keyed by the player
      id: a [gmap string] of its own properties.  The properties that the
      object inherits from [Object.prototype] ([inheritedKeys]) are not in
      the map; the statements that read the dictionary under an id that
      may be one of them say so with [plainId].  A player's [cells] is a
      JavaScript [Set]: a duplicate-free list in insertion order.
    - [game.bots] holds the very objects that [game.players] holds under
      the bots' ids; the embedding keeps the single copy in [players] and
      lists the ids in [bots].
    - [Math.random] is an oracle: a stream [nat -> Q] of doubles read at a
      cursor. *)

From Stdlib Require Import ZArith QArith Qround Qpower Lia Lqa.
From stdpp Require Import base gmap strings list.

Open Scope Z_scope.

(** ** JavaScript values used by the engine *)

(** How a call ends: a boolean result, or an uncaught [TypeError]. *)
Inductive Outcome : Type :=
  | Returned (b : bool)
  | Thrown.

(** Truthiness of a cell's [owner]: [null] and the empty string are falsy. *)
Definition truthy (o : option string) : bool :=
  match o with
  | None => false
  | Some s => negb (String.eqb s "")
  end.

(** [owner === id] *)
Definition ownerIs (o : option string) (id : string) : bool :=
  bool_decide (o = Some id).

(** [Set.prototype.has], [add] and [delete] on an insertion-ordered set. *)
Definition Set_has (s : list Z) (v : Z) : bool := bool_decide (v ∈ s).

Definition Set_add (s : list Z) (v : Z) : list Z :=
  if Set_has s v then s else s ++ [v].

Definition Set_delete (s : list Z) (v : Z) : list Z :=
  filter (λ u, u ≠ v) s.

(** The names that every object inherits from [Object.prototype]:
    [this.players[id]] is a function or an object under these ids, also
    when no player has them. *)
Definition inheritedKeys : list string :=
  ["constructor"; "__proto__"; "hasOwnProperty"; "isPrototypeOf";
   "propertyIsEnumerable"; "toLocaleString"; "toString"; "valueOf";
   "__defineGetter__"; "__defineSetter__"; "__lookupGetter__";
   "__lookupSetter__"].

(** An id under which [this.players] holds a player object or nothing. *)
Definition plainId (id : string) : Prop := id ∉ inheritedKeys.

(** ** Doubles

    IEEE 754 binary64 with rounding to nearest, ties to even, on the
    rationals. *)

Definition pow2 (e : Z) : Q := (2 ^ e)%Q.

(** The exponent of a positive rational: the [e] with
    [2^e <= x < 2^(e+1)]. *)
Definition ilog2 (x : Q) : Z :=
  let e := Z.log2 (Qnum x) - Z.log2 (Z.pos (Qden x)) in
  if Qle_bool (pow2 e) x then e else e - 1.

(** The nearest integer, the even one of two at the same distance. *)
Definition roundHalfEven (z : Q) : Z :=
  let f := Qfloor z in
  match (z - inject_Z f ?= 1 # 2)%Q with
  | Lt => f
  | Gt => f + 1
  | Eq => if Z.even f then f else f + 1
  end.

(** The nearest double of a positive rational: 53 significant bits, and
    a fixed unit of [2^-1074] below [2^-1022]. *)
Definition roundPositive (x : Q) : Q :=
  let e := Z.max (ilog2 x) (-1022) in
  let ulp := pow2 (e - 52) in
  Qred (inject_Z (roundHalfEven (x / ulp)) * ulp).

Definition roundDouble (x : Q) : Q :=
  match (x ?= 0)%Q with
  | Eq => 0%Q
  | Gt => roundPositive x
  | Lt => (- roundPositive (- x))%Q
  end.

Module Cell.
Record t : Type := mk {
  land : bool;
  owner : option string;
  troops : Z;
  port : bool;
  city : bool;
}.

(** [cell.owner = id; cell.port = false; cell.city = false] *)
Definition capture (c : t) (id : string) : t :=
  {| land := land c; owner := Some id; troops := troops c;
     port := false; city := false |}.

(** [cell.owner = id; cell.troops = 0; cell.port = false; cell.city = false] *)
Definition claim (c : t) (id : string) : t :=
  {| land := land c; owner := Some id; troops := 0;
     port := false; city := false |}.

(** [cell.owner = null; cell.troops = 0; cell.port = false; cell.city = false] *)
Definition release (c : t) : t :=
  {| land := land c; owner := None; troops := 0;
     port := false; city := false |}.

Definition setPort (c : t) : t :=
  {| land := land c; owner := owner c; troops := troops c;
     port := true; city := city c |}.

Definition setCity (c : t) : t :=
  {| land := land c; owner := owner c; troops := troops c;
     port := port c; city := true |}.
End Cell.

Module Player.
Record t : Type := mk {
  id : string;
  name : string;
  color : string;
  cells : list Z;
  troops : Z;
}.

Definition setTroops (p : t) (n : Z) : t :=
  {| id := id p; name := name p; color := color p;
     cells := cells p; troops := n |}.

Definition setCells (p : t) (s : list Z) : t :=
  {| id := id p; name := name p; color := color p;
     cells := s; troops := troops p |}.
End Player.

Record Game : Type := mkGame {
  cells : list Cell.t;
  players : gmap string Player.t;
  bots : list string;
}.

(** [this.cells[idx]] *)
Definition cellAt (g : Game) (idx : Z) : option Cell.t :=
  if idx <? 0 then None else cells g !! Z.to_nat idx.

(** Writing the fields of the cell object stored at [idx]. *)
Definition setCell (g : Game) (idx : Z) (c : Cell.t) : Game :=
  {| cells := <[Z.to_nat idx := c]> (cells g);
     players := players g; bots := bots g |}.

(** Writing the fields of the player object stored under [id]. *)
Definition setPlayer (g : Game) (id : string) (p : Player.t) : Game :=
  {| cells := cells g; players := <[id := p]> (players g); bots := bots g |}.

Definition MAX_PLAYERS_PER_GAME : Z := 10.

(** The loop nest [for j in -1..1, for i in -1..1, skip (0,0)], as the
    offsets [(i, j)] in the order the loops visit them. *)
Definition neighbourOffsets : list (Z * Z) :=
  [(-1, -1); (0, -1); (1, -1); (-1, 0); (1, 0); (-1, 1); (0, 1); (1, 1)].

(** The [dirs] table of [expand] and [botAct], as [(dx, dy)]. *)
Definition dirs : list (Z * Z) :=
  [(-1, 0); (1, 0); (0, -1); (0, 1); (-1, -1); (-1, 1); (1, -1); (1, 1)].

(** The growth rule of [update] for one pool:
    [maxTroops = 5 + floor(territorySize / 2) + cityCount * 5],
    [growth = max(1, floor(troops / 3))],
    [troops = min(troops + growth, maxTroops)]. *)
Definition maxTroops (territorySize cityCount : Z) : Z :=
  5 + territorySize / 2 + cityCount * 5.

Definition growth (troops : Z) : Z := Z.max 1 (troops / 3).

Definition grownTroops (territorySize cityCount troops : Z) : Z :=
  Z.min (troops + growth troops) (maxTroops territorySize cityCount).

Section Engine.

(** [landMask]: the precomputed mask loaded from
    [generated/land_mask.json], rows of numbers, 1 for land. *)
Variable landMask : list (list Z).

Definition GRID_W : Z := Z.of_nat (length (hd [] landMask)).
Definition GRID_H : Z := Z.of_nat (length landMask).

(** [constructor] *)
Definition newCell (v : option Z) : Cell.t :=
  {| Cell.land := bool_decide (v = Some 1); Cell.owner := None;
     Cell.troops := 0; Cell.port := false; Cell.city := false |}.

Definition newGame : Game :=
  {| cells :=
       concat (map (λ row : list Z,
                      map (λ x : nat, newCell (row !! x))
                          (seq 0 (Z.to_nat GRID_W)))
                   landMask);
     players := ∅;
     bots := [] |}.

(** [addPlayer(id, name)]; the colour drawn by [randomColor] is passed in. *)
Definition addPlayer (g : Game) (id name color : string) : bool * Game :=
  if Z.of_nat (size (players g)) >=? MAX_PLAYERS_PER_GAME then (false, g)
  else
    (true,
     setPlayer g id
       {| Player.id := id; Player.name := name; Player.color := color;
          Player.cells := []; Player.troops := 0 |}).

(** The loop of [removePlayer] over the player's cells; it stops with a
    [TypeError] at an index that has no cell. *)
Fixpoint releaseCells (g : Game) (idxs : list Z) : option Game :=
  match idxs with
  | [] => Some g
  | cellIdx :: rest =>
      match cellAt g cellIdx with
      | None => None
      | Some cell => releaseCells (setCell g cellIdx (Cell.release cell)) rest
      end
  end.

(** [removePlayer(id)]: [None] stands for the [TypeError]. *)
Definition removePlayer (g : Game) (id : string) : option Game :=
  match players g !! id with
  | None => Some g
  | Some player =>
      match releaseCells g (Player.cells player) with
      | None => None
      | Some g1 =>
          Some {| cells := cells g1; players := delete id (players g1);
                  bots := bots g1 |}
      end
  end.

(** [spawn(id, x, y)] *)
Definition spawn (g : Game) (id : string) (x y : Z) : Outcome * Game :=
  let idx := y * GRID_W + x in
  match cellAt g idx with
  | None => (Thrown, g)
  | Some cell =>
      if negb (Cell.land cell) || truthy (Cell.owner cell)
      then (Returned false, g)
      else
        let g1 := setCell g idx (Cell.claim cell id) in
        match players g1 !! id with
        | None => (Thrown, g1)
        | Some p =>
            let p1 := Player.setCells p (Set_add (Player.cells p) idx) in
            let p2 := Player.setTroops p1 (Player.troops p1 + 10) in
            (Returned true, setPlayer g1 id p2)
        end
  end.

(** The movement check of [attack]: adjacent, or two steps from a port
    across a water cell onto land. *)
Definition moveAllowed (g : Game) (srcCell : Cell.t)
    (dstCell : option Cell.t) (srcX srcY dstX dstY : Z) : bool :=
  let dx := dstX - srcX in
  let dy := dstY - srcY in
  let maxStep := Z.max (Z.abs dx) (Z.abs dy) in
  if negb (maxStep =? 1) then
    if (maxStep =? 2) && Cell.port srcCell then
      let midX := srcX + Z.sgn dx in
      let midY := srcY + Z.sgn dy in
      let midIdx := midY * GRID_W + midX in
      match cellAt g midIdx, dstCell with
      | Some midCell, Some d => negb (Cell.land midCell) && Cell.land d
      | _, _ => false
      end
    else false
  else true.

(** [Math.floor(totalTroops * percent)] *)
Definition toSendOf (totalTroops : Z) (percent : Q) : Z :=
  Qfloor (roundDouble (inject_Z totalTroops * roundDouble percent)).

(** The resolution of [attack] once [toSend] troops have been deducted:
    [g1] is the world after the deduction and [player] the attacker's
    object in it. *)
Definition resolve (g1 : Game) (id : string) (player : Player.t)
    (dstIdx toSend : Z) : Outcome * Game :=
  match cellAt g1 dstIdx with
  | None => (Thrown, g1)
  | Some dstCell =>
      if negb (truthy (Cell.owner dstCell)) then
        let g2 := setCell g1 dstIdx (Cell.capture dstCell id) in
        (Returned true,
         setPlayer g2 id
           (Player.setCells player (Set_add (Player.cells player) dstIdx)))
      else if ownerIs (Cell.owner dstCell) id then (Returned false, g1)
      else
        match Cell.owner dstCell with
        | None => (Returned false, g1)
        | Some defenderId =>
            match players g1 !! defenderId with
            | None => (Returned false, g1)
            | Some defender =>
                if toSend >? Player.troops defender then
                  let d1 := Player.setTroops defender 0 in
                  let d2 :=
                    Player.setCells d1 (Set_delete (Player.cells d1) dstIdx) in
                  let g2 := setPlayer g1 defenderId d2 in
                  let g3 := setCell g2 dstIdx (Cell.capture dstCell id) in
                  (Returned true,
                   setPlayer g3 id
                     (Player.setCells player
                        (Set_add (Player.cells player) dstIdx)))
                else
                  (Returned true,
                   setPlayer g1 defenderId
                     (Player.setTroops defender
                        (Player.troops defender - toSend)))
            end
        end
  end.

(** [attack(id, srcX, srcY, dstX, dstY, percent)] *)
Definition attack (g : Game) (id : string) (srcX srcY dstX dstY : Z)
    (percent : Q) : Outcome * Game :=
  let srcIdx := srcY * GRID_W + srcX in
  let dstIdx := dstY * GRID_W + dstX in
  match players g !! id, cellAt g srcIdx with
  | Some player, Some srcCell =>
      if negb (ownerIs (Cell.owner srcCell) id) then (Returned false, g)
      else if negb (moveAllowed g srcCell (cellAt g dstIdx)
                      srcX srcY dstX dstY)
      then (Returned false, g)
      else
        let totalTroops := Player.troops player in
        let toSend := toSendOf totalTroops percent in
        if toSend <? 1 then (Returned false, g)
        else
          let player1 :=
            Player.setTroops player (Player.troops player - toSend) in
          resolve (setPlayer g id player1) id player1 dstIdx toSend
  | _, _ => (Returned false, g)
  end.

(** Bounds test of the neighbour loops:
    [nx < 0 || ny < 0 || nx >= GRID_W || ny >= GRID_H]. *)
Definition outside (nx ny : Z) : bool :=
  (nx <? 0) || (ny <? 0) || (nx >=? GRID_W) || (ny >=? GRID_H).

(** First loop of [expand] and [botAct]: the adjacent cells not owned
    by [id]. *)
Definition adjacentTargets (g : Game) (id : string) (x y : Z)
    : list (Z * Z) :=
  flat_map
    (λ ij : Z * Z,
       let nx := x + fst ij in
       let ny := y + snd ij in
       if outside nx ny then []
       else
         match cellAt g (ny * GRID_W + nx) with
         | None => []
         | Some ncell =>
             if negb (truthy (Cell.owner ncell))
                || negb (ownerIs (Cell.owner ncell) id)
             then [(nx, ny)] else []
         end)
    neighbourOffsets.

(** Second loop: the port jumps over a water cell onto a land cell not
    owned by [id]. *)
Definition jumpTargets (g : Game) (id : string) (x y : Z) : list (Z * Z) :=
  flat_map
    (λ dir : Z * Z,
       let midX := x + fst dir in
       let midY := y + snd dir in
       let destX := x + fst dir * 2 in
       let destY := y + snd dir * 2 in
       if outside destX destY then []
       else
         match cellAt g (midY * GRID_W + midX),
               cellAt g (destY * GRID_W + destX) with
         | Some midCell, Some destCell =>
             if negb (Cell.land midCell) && Cell.land destCell
                && (negb (truthy (Cell.owner destCell))
                    || negb (ownerIs (Cell.owner destCell) id))
             then [(destX, destY)] else []
         | _, _ => []
         end)
    dirs.

Definition targetsOf (g : Game) (id : string) (srcCell : Cell.t) (x y : Z)
    : list (Z * Z) :=
  adjacentTargets g id x y
  ++ (if Cell.port srcCell then jumpTargets g id x y else []).

(** The loop [for (const t of targets) { ok = attack(...); any = any || ok }]
    started with the flag [any]; a [TypeError] of a sub-attack ends it. *)
Fixpoint attackEach (g : Game) (id : string) (x y : Z) (per : Q)
    (targets : list (Z * Z)) (any : bool) : Outcome * Game :=
  match targets with
  | [] => (Returned any, g)
  | t :: rest =>
      match attack g id x y (fst t) (snd t) per with
      | (Returned ok, g1) => attackEach g1 id x y per rest (any || ok)
      | (Thrown, g1) => (Thrown, g1)
      end
  end.

(** [expand(id, x, y, percent)] *)
Definition expand (g : Game) (id : string) (x y : Z) (percent : Q)
    : Outcome * Game :=
  let srcIdx := y * GRID_W + x in
  match cellAt g srcIdx with
  | None => (Returned false, g)
  | Some srcCell =>
      if negb (ownerIs (Cell.owner srcCell) id) then (Returned false, g)
      else
        match players g !! id with
        | None => (Returned false, g)
        | Some player =>
            let targets := targetsOf g id srcCell x y in
            if (Z.of_nat (length targets) =? 0) then (Returned false, g)
            else
              let per :=
                roundDouble
                  (roundDouble percent
                   / inject_Z (Z.of_nat (length targets)))%Q in
              attackEach g id x y per targets false
        end
  end.

(** The adjacency loop of [buildPort]. *)
Definition adjacentWater (g : Game) (x y : Z) : bool :=
  existsb
    (λ ij : Z * Z,
       let nx := x + fst ij in
       let ny := y + snd ij in
       if outside nx ny then false
       else
         match cellAt g (ny * GRID_W + nx) with
         | Some ncell => negb (Cell.land ncell)
         | None => false
         end)
    neighbourOffsets.

(** [buildPort(id, x, y)] *)
Definition buildPort (g : Game) (id : string) (x y : Z) : Outcome * Game :=
  let idx := y * GRID_W + x in
  match cellAt g idx with
  | None => (Returned false, g)
  | Some cell =>
      if negb (ownerIs (Cell.owner cell) id) || negb (Cell.land cell)
         || Cell.port cell
      then (Returned false, g)
      else if negb (adjacentWater g x y) then (Returned false, g)
      else
        match players g !! id with
        | None => (Returned false, g)
        | Some player =>
            if Player.troops player <? 5 then (Returned false, g)
            else
              let g1 :=
                setPlayer g id
                  (Player.setTroops player (Player.troops player - 5)) in
              (Returned true, setCell g1 idx (Cell.setPort cell))
        end
  end.

(** [buildCity(id, x, y)] *)
Definition buildCity (g : Game) (id : string) (x y : Z) : Outcome * Game :=
  let idx := y * GRID_W + x in
  match cellAt g idx with
  | None => (Returned false, g)
  | Some cell =>
      if negb (ownerIs (Cell.owner cell) id) || negb (Cell.land cell)
         || Cell.city cell
      then (Returned false, g)
      else
        match players g !! id with
        | None => (Returned false, g)
        | Some player =>
            if Player.troops player <? 10 then (Returned false, g)
            else
              let g1 :=
                setPlayer g id
                  (Player.setTroops player (Player.troops player - 10)) in
              (Returned true, setCell g1 idx (Cell.setCity cell))
        end
  end.

(** The inner loop of [update] that counts the cities of a territory;
    [None] is the [TypeError] of [cell.city] at an index without cell. *)
Fixpoint cityCountOf (g : Game) (idxs : list Z) : option Z :=
  match idxs with
  | [] => Some 0
  | cellIdx :: rest =>
      match cellAt g cellIdx with
      | None => None
      | Some cell =>
          (λ n, if Cell.city cell then n + 1 else n) <$> cityCountOf g rest
      end
  end.

(** One iteration of the growth loop of [update]. *)
Definition growPlayer (g : Game) (player : Player.t) : option Player.t :=
  let territorySize := Z.of_nat (length (Player.cells player)) in
  match cityCountOf g (Player.cells player) with
  | None => None
  | Some cityCount =>
      Some (Player.setTroops player
              (grownTroops territorySize cityCount (Player.troops player)))
  end.

(** The growth loop of [update].  An iteration reads and writes one
    player only, so the order of the iterations does not show in the
    result.  [None]: some iteration raised; the exception leaves the
    timer callback uncaught and ends the process, so no world is
    observed after it. *)
Definition growPlayers (g : Game) : option Game :=
  if decide (map_Forall (λ _ p, is_Some (growPlayer g p)) (players g))
  then
    Some {| cells := cells g;
            players := (λ p, default p (growPlayer g p)) <$> players g;
            bots := bots g |}
  else None.

(** [Math.floor(Math.random() * n)] at cursor [k] of the oracle. *)
Definition randomBelow (rnd : nat → Q) (k : nat) (n : Z) : Z :=
  Qfloor (roundDouble (rnd k * inject_Z n)).

(** The spawning loop of [botAct], with [tries] iterations left. *)
Fixpoint botSpawn (g : Game) (botKey : string) (bot : Player.t)
    (rnd : nat → Q) (k : nat) (tries : nat) : option Game * nat :=
  match tries with
  | O => (Some g, k)
  | S n =>
      let x := randomBelow rnd k GRID_W in
      let y := randomBelow rnd (S k) GRID_H in
      let idx := y * GRID_W + x in
      match cellAt g idx with
      | None => (None, S (S k))
      | Some cell =>
          if Cell.land cell && negb (truthy (Cell.owner cell)) then
            let g1 := setCell g idx (Cell.capture cell (Player.id bot)) in
            let b1 := Player.setCells bot (Set_add (Player.cells bot) idx) in
            (Some (setPlayer g1 botKey (Player.setTroops b1 10)), S (S k))
          else botSpawn g botKey bot rnd (S (S k)) n
      end
  end.

(** [botAct(bot)] for the bot object stored under [botKey].  Every bot
    of [bots] is stored in [players] (lemma [reachable_worldOk] below); on
    a key without object the embedding does nothing. *)
Definition botAct (g : Game) (botKey : string) (rnd : nat → Q) (k : nat)
    : option Game * nat :=
  match players g !! botKey with
  | None => (Some g, k)
  | Some bot =>
      if Z.of_nat (length (Player.cells bot)) =? 0 then
        botSpawn g botKey bot rnd k 50
      else
        let ownCells := Player.cells bot in
        let r := randomBelow rnd k (Z.of_nat (length ownCells)) in
        match (if r <? 0 then None else ownCells !! Z.to_nat r) with
        | None => (None, S k)
        | Some srcIdx =>
            match cellAt g srcIdx with
            | None => (None, S k)
            | Some srcCell =>
                let x := Z.rem srcIdx GRID_W in
                let y := srcIdx / GRID_W in
                let possibleTargets :=
                  targetsOf g (Player.id bot) srcCell x y in
                if Z.of_nat (length possibleTargets) =? 0 then (Some g, S k)
                else
                  let r2 :=
                    randomBelow rnd (S k)
                      (Z.of_nat (length possibleTargets)) in
                  let target :=
                    if r2 <? 0 then None
                    else possibleTargets !! Z.to_nat r2 in
                  let toSend := Player.troops bot / 2 in
                  if toSend <? 1 then (Some g, S (S k))
                  else
                    let percent :=
                      roundDouble
                        (inject_Z toSend / inject_Z (Player.troops bot))%Q in
                    match target with
                    | None => (None, S (S k))
                    | Some t =>
                        match attack g (Player.id bot) x y (fst t) (snd t)
                                percent with
                        | (Returned _, g1) => (Some g1, S (S k))
                        | (Thrown, _) => (None, S (S k))
                        end
                    end
            end
        end
  end.

(** The loop [for (const bot of this.bots) this.botAct(bot)]. *)
Fixpoint botsAct (g : Game) (botKeys : list string) (rnd : nat → Q)
    (k : nat) : option Game * nat :=
  match botKeys with
  | [] => (Some g, k)
  | b :: rest =>
      match botAct g b rnd k with
      | (Some g1, k1) => botsAct g1 rest rnd k1
      | (None, k1) => (None, k1)
      end
  end.

(** [update()] *)
Definition update (g : Game) (rnd : nat → Q) (k : nat) : option Game * nat :=
  match growPlayers g with
  | None => (None, k)
  | Some g1 => botsAct g1 (bots g1) rnd k
  end.

(** The loop of [ensureBots].  [suffix k] and [colors k] are the random
    id suffix and colour of the [k]-th bot made.  Each iteration makes
    [bots] one longer, so [MAX_PLAYERS_PER_GAME] iterations are enough
    for the loop condition to fail ([ensureBots_full]). *)
Fixpoint ensureBotsLoop (fuel : nat) (g : Game) (suffix colors : nat → string)
    (k : nat) : Game :=
  match fuel with
  | O => g
  | S n =>
      if Z.of_nat (length (bots g)) + Z.of_nat (size (players g))
         <? MAX_PLAYERS_PER_GAME
      then
        let botId := ("bot-" +:+ suffix k)%string in
        let bot :=
          {| Player.id := botId; Player.name := "Bot";
             Player.color := colors k; Player.cells := [];
             Player.troops := 0 |} in
        ensureBotsLoop n
          {| cells := cells g; players := <[botId := bot]> (players g);
             bots := bots g ++ [botId] |}
          suffix colors (S k)
      else g
  end.

Definition ensureBots (g : Game) (suffix colors : nat → string) : Game :=
  ensureBotsLoop (Z.to_nat MAX_PLAYERS_PER_GAME) g suffix colors 0.

(** The handler of [POST /api/join], with the random id and colours
    passed in. *)
Definition join (g : Game) (id name color : string)
    (suffix colors : nat → string) : bool * Game :=
  match addPlayer g id name color with
  | (false, g1) => (false, g1)
  | (true, g1) => (true, ensureBots g1 suffix colors)
  end.

(** The [close] handler of the event stream:
    [if (playerId && !playerId.startsWith('bot-')) removePlayer(playerId)]. *)
Definition leave (g : Game) (playerId : string) : option Game :=
  if negb (String.eqb playerId "") && negb (String.prefix "bot-" playerId)
  then removePlayer g playerId
  else Some g.

(** The commands of the request handlers. *)
Inductive Command : Type :=
  | Spawn (id : string) (x y : Z)
  | Attack (id : string) (srcX srcY dstX dstY : Z) (percent : Q)
  | Expand (id : string) (x y : Z) (percent : Q)
  | BuildPort (id : string) (x y : Z)
  | BuildCity (id : string) (x y : Z).

Definition exec (g : Game) (c : Command) : Outcome * Game :=
  match c with
  | Spawn id x y => spawn g id x y
  | Attack id srcX srcY dstX dstY percent =>
      attack g id srcX srcY dstX dstY percent
  | Expand id x y percent => expand g id x y percent
  | BuildPort id x y => buildPort g id x y
  | BuildCity id x y => buildCity g id x y
  end.

(** What the server does to its world: a command of a request handler,
    a join, the close of an event stream, a timer tick. *)
Inductive Event : Type :=
  | Cmd (c : Command)
  | Join (id name color : string) (suffix colors : nat → string)
  | Leave (playerId : string)
  | Tick (rnd : nat → Q) (k : nat).

(** The world after an event; [None] when an uncaught exception ends the
    process.  An exception of a command is caught by the request parser
    and the world stays as the command left it. *)
Definition apply (g : Game) (e : Event) : option Game :=
  match e with
  | Cmd c => Some (snd (exec g c))
  | Join id name color suffix colors =>
      Some (snd (join g id name color suffix colors))
  | Leave playerId => leave g playerId
  | Tick rnd k => fst (update g rnd k)
  end.

(** The worlds the server reaches from a fresh one by events that
    satisfy [ok]. *)
Inductive reachable (ok : Game → Event → Prop) : Game → Prop :=
  | reach_new : reachable ok newGame
  | reach_step g e g' :
      reachable ok g → ok g e → apply g e = Some g' → reachable ok g'.

End Engine.

(** ** Predicates on worlds *)

(** The cell at [idx] exists and its owner is [id]. *)
Definition owned (g : Game) (idx : Z) (id : string) : Prop :=
  ∃ c, cellAt g idx = Some c ∧ Cell.owner c = Some id.

(** A player's territory is exactly the set of cells it owns. *)
Definition territoryConsistent (g : Game) : Prop :=
  ∀ id p, players g !! id = Some p →
    ∀ idx, idx ∈ Player.cells p ↔ owned g idx id.

(** The pool of a player, 0 when there is no such player. *)
Definition poolOf (g : Game) (id : string) : Z :=
  default 0 (Player.troops <$> players g !! id).

(** The cell at [idx] holds a city. *)
Definition hasCity (g : Game) (idx : Z) : bool :=
  match cellAt g idx with
  | Some c => Cell.city c
  | None => false
  end.

(** No id is in use twice: [id] names no player and owns no cell. *)
Definition unusedId (g : Game) (id : string) : Prop :=
  players g !! id = None
  ∧ ∀ idx c, cellAt g idx = Some c → Cell.owner c ≠ Some id.

(** Iterating the growth step of one player in a world whose cells stay
    as they are. *)
Definition tickPlayer (g : Game) (p : Player.t) : Player.t :=
  default p (growPlayer g p).

(** The key of a player object is its [id] field and is a truthy
    string. *)
Definition idsOk (g : Game) : Prop :=
  ∀ id p, players g !! id = Some p → id ≠ "" ∧ Player.id p = id.

(** Every bot of [bots] is stored in [players], under an id that starts
    with [bot-]. *)
Definition rosterOk (g : Game) : Prop :=
  ∀ b, b ∈ bots g →
    is_Some (players g !! b) ∧ String.prefix "bot-" b = true.

Definition worldOk (g : Game) : Prop :=
  territoryConsistent g ∧ idsOk g ∧ rosterOk g.

(** The number of bots that the loop of [ensureBots] makes: the least
    [n] with [(bots + n) + (players + n) >= MAX_PLAYERS_PER_GAME]. *)
Definition botsNeeded (g : Game) : nat :=
  Z.to_nat ((MAX_PLAYERS_PER_GAME - Z.of_nat (length (bots g))
             - Z.of_nat (size (players g)) + 1) / 2).

(** The number of bots that a join makes once it has stored its
    player. *)
Definition botsJoining (g : Game) : nat :=
  Z.to_nat ((MAX_PLAYERS_PER_GAME - Z.of_nat (length (bots g))
             - (Z.of_nat (size (players g)) + 1) + 1) / 2).

(** The ids drawn by a join are new: the id of the player is a non-empty
    string that is not in use, and the ids of the bots that [ensureBots]
    makes are not in use and differ from it and from each other. *)
Definition joinFresh (g : Game) (id : string) (suffix : nat → string) : Prop :=
  id ≠ "" ∧ unusedId g id
  ∧ ∀ k, (k < botsJoining g)%nat →
      unusedId g ("bot-" +:+ suffix k)
      ∧ "bot-" +:+ suffix k ≠ id
      ∧ ∀ j, (j < k)%nat → suffix j ≠ suffix k.

Definition eventFresh (g : Game) (e : Event) : Prop :=
  match e with
  | Join id _ _ suffix _ => joinFresh g id suffix
  | _ => True
  end.

(** The player id that a command carries. *)
Definition commandId (c : Command) : string :=
  match c with
  | Spawn id _ _ => id
  | Attack id _ _ _ _ _ => id
  | Expand id _ _ _ => id
  | BuildPort id _ _ => id
  | BuildCity id _ _ => id
  end.

(** The id that an event carries is not a property name of
    [Object.prototype]. *)
Definition eventPlain (e : Event) : Prop :=
  match e with
  | Cmd c => plainId (commandId c)
  | Join id _ _ _ _ => plainId id
  | Leave playerId => plainId playerId
  | Tick _ _ => True
  end.

(** The events of a server whose joins draw new ids and whose requests
    carry no property name of [Object.prototype] as player id. *)
Definition eventServed (g : Game) (e : Event) : Prop :=
  eventFresh g e ∧ eventPlain e.

(** No cell is owned under a property name of [Object.prototype]. *)
Definition plainOwners (g : Game) : Prop :=
  ∀ idx c d, cellAt g idx = Some c → Cell.owner c = Some d → plainId d.

(** ** Sample worlds, built by running the engine *)

(** A 3 x 3 mask of land. *)
Definition allLand3 : list (list Z) := [[1; 1; 1]; [1; 1; 1]; [1; 1; 1]].

(** Player A has joined and not spawned yet. *)
Definition worldJoined : Game :=
  snd (addPlayer (newGame allLand3) "A" "Ann" "hsl(0, 60%, 50%)").

(** Player A has spawned on the middle cell: pool 10, territory {(1,1)}. *)
Definition worldSpawned : Game := snd (spawn allLand3 worldJoined "A" 1 1).

(** The object of player A in [worldSpawned]. *)
Definition playerSpawned : Player.t :=
  {| Player.id := "A"; Player.name := "Ann";
     Player.color := "hsl(0, 60%, 50%)"; Player.cells := [4];
     Player.troops := 10 |}.




(** A has taken (1,0) from (1,1) with half of its pool: pool 5, territory
    {(1,1), (1,0)}. *)
Definition worldTwoCells : Game :=
  snd (attack allLand3 worldSpawned "A" 1 1 1 0 (1 # 2)).

(** One row: land at (0,0), water at (1,0). *)
Definition shore : list (list Z) := [[1; 0]].

(** A has joined the shore world and spawned on its land cell. *)
Definition worldShore : Game :=
  snd (spawn shore
         (snd (addPlayer (newGame shore) "A" "Ann" "hsl(0, 60%, 50%)"))
         "A" 0 0).

(** Two rows: land, land, land over land, water, land. *)
Definition bay : list (list Z) := [[1; 1; 1]; [1; 0; 1]].

(** A has joined the bay world, spawned on (0,0) and built a port there:
    pool 5. *)
Definition worldPort : Game :=
  let g1 := snd (addPlayer (newGame bay) "A" "Ann" "hsl(0, 60%, 50%)") in
  let g2 := snd (spawn bay g1 "A" 0 0) in
  snd (buildPort bay g2 "A" 0 0).

(** One row of three land cells. *)
Definition strip : list (list Z) := [[1; 1; 1]].

(** A has joined the strip world and spawned on its middle cell: pool 10. *)
Definition worldStrip : Game :=
  snd (spawn strip
         (snd (addPlayer (newGame strip) "A" "Ann" "hsl(0, 60%, 50%)"))
         "A" 1 0).

(** A 2 x 2 mask of land. *)
Definition allLand2 : list (list Z) := [[1; 1]; [1; 1]].

(** A has joined the 2 x 2 world. *)
Definition worldJoined2 : Game :=
  snd (addPlayer (newGame allLand2) "A" "Ann" "hsl(0, 60%, 50%)").

(** A has spawned on (0,0) of the 2 x 2 world: pool 10. *)
Definition worldSpawned2 : Game := snd (spawn allLand2 worldJoined2 "A" 0 0).

(** What each sub-attack of the loop of [expand] takes from the pool of
    [id], in the order of the loop. *)
Fixpoint debitsEach (mask : list (list Z)) (g : Game) (id : string)
    (x y : Z) (per : Q) (targets : list (Z * Z)) : list Z :=
  match targets with
  | [] => []
  | t :: rest =>
      let g1 := snd (attack mask g id x y (fst t) (snd t) per) in
      (poolOf g id - poolOf g1 id) :: debitsEach mask g1 id x y per rest
  end.

(** Random id suffixes for the bots of the sample worlds: a, b, c, ... *)
Definition letterSuffix (k : nat) : string :=
  String (Ascii.ascii_of_nat (97 + k)) "".

(** A has joined a fresh 3 x 3 world, which filled the roster with bots,
    and has spawned on the middle cell. *)
Definition joinCrowd : Event :=
  Join "A" "Ann" "hsl(0, 60%, 50%)" letterSuffix (λ _, "hsl(200, 60%, 50%)").

Definition worldCrowd : Game :=
  snd (join (newGame allLand3) "A" "Ann" "hsl(0, 60%, 50%)" letterSuffix
         (λ _, "hsl(200, 60%, 50%)")).

Definition worldCrowdSpawned : Game :=
  snd (spawn allLand3 worldCrowd "A" 1 1).

(** A has then built a city on its cell with the 10 troops of the
    spawn. *)
Definition worldCrowdCity : Game :=
  snd (buildCity allLand3 worldCrowdSpawned "A" 1 1).

(** After its spawn on (1,1), the id of A is drawn again by a second
    join. *)
Definition worldRejoined : Game :=
  snd (join worldCrowdSpawned "A" "Ann" "hsl(0, 60%, 50%)" letterSuffix
         (λ _, "hsl(200, 60%, 50%)")).

(** ** Predicates for the grid, the roster and the oracle *)

(** The coordinates (x, y) are on the grid. *)
Definition inGrid (mask : list (list Z)) (x y : Z) : Prop :=
  0 ≤ x < GRID_W mask ∧ 0 ≤ y < GRID_H mask.

(** The land flags of the cells, in index order. *)
Definition lands (g : Game) : list bool := Cell.land <$> cells g.

(** A port or a city stands on an owned land cell only. *)
Definition fortifiedOk (g : Game) : Prop :=
  ∀ idx c, cellAt g idx = Some c →
    Cell.port c = true ∨ Cell.city c = true →
    Cell.land c = true ∧ is_Some (Cell.owner c).

(** The grid is the one of the mask, fortifications stand on owned land,
    and the roster is within its bound. *)
Definition shapeOk (mask : list (list Z)) (g : Game) : Prop :=
  lands g = lands (newGame mask)
  ∧ fortifiedOk g
  ∧ Z.of_nat (size (players g)) ≤ MAX_PLAYERS_PER_GAME.

(** No condition on the events. *)
Definition anyEvent (g : Game) (e : Event) : Prop := True.

(** [Math.random] returns a double of [0, 1): the largest of them is
    [1 - 2^-53]. *)
Definition randomOk (rnd : nat → Q) : Prop :=
  ∀ k, (0 <= rnd k)%Q ∧ (rnd k <= 1 - pow2 (-53))%Q.

(** The cell that a command reads without a guard is on the grid: the
    cell of [spawn] and the destination of [attack]. *)
Definition commandTargetInGrid (mask : list (list Z)) (c : Command) : Prop :=
  match c with
  | Spawn _ x y => inGrid mask x y
  | Attack _ _ _ dstX dstY _ => inGrid mask dstX dstY
  | _ => True
  end.

(** A run of commands, each on the world the one before left. *)
Definition execAll (mask : list (list Z)) (g : Game) (cs : list Command)
    : Game :=
  fold_left (λ h c, snd (exec mask h c)) cs g.

(** An oracle that always returns 0. *)
Definition zeroOracle (k : nat) : Q := 0%Q.

(** The index of the cell that the spawning loop of [botAct] samples in
    its iteration [j], when the loop starts at cursor [k] of the
    oracle. *)
Definition sampleIdx (mask : list (list Z)) (rnd : nat → Q) (k j : nat) : Z :=
  Qfloor (roundDouble (rnd (k + 2 * j + 1)%nat * inject_Z (GRID_H mask)))
  * GRID_W mask
  + Qfloor (roundDouble (rnd (k + 2 * j)%nat * inject_Z (GRID_W mask))).

(** The cell at [idx] is land and has no owner: its owner is [null] or
    the empty string. *)
Definition freeLand (g : Game) (idx : Z) : Prop :=
  ∃ c, cellAt g idx = Some c ∧ Cell.land c = true
       ∧ (Cell.owner c = None ∨ Cell.owner c = Some "").

(** ** The snapshot sent to the clients *)

Module PlayerView.
Record t : Type := mk {
  id : string;
  name : string;
  color : string;
  troops : Z;
}.
End PlayerView.

Record Snapshot : Type := mkSnapshot {
  gridW : Z;
  gridH : Z;
  snapCells : list Cell.t;
  snapPlayers : gmap string PlayerView.t;
}.

(** The copy of a cell made by [serializeState]: a fresh object with the
    same five fields. *)
Definition cellView (c : Cell.t) : Cell.t :=
  {| Cell.land := Cell.land c; Cell.owner := Cell.owner c;
     Cell.troops := Cell.troops c; Cell.port := Cell.port c;
     Cell.city := Cell.city c |}.

Definition playerView (p : Player.t) : PlayerView.t :=
  {| PlayerView.id := Player.id p; PlayerView.name := Player.name p;
     PlayerView.color := Player.color p;
     PlayerView.troops := Player.troops p |}.

(** Every cell of the world satisfies [P]. *)
Definition allCells (P : Cell.t → Prop) (g : Game) : Prop :=
  ∀ idx c, cellAt g idx = Some c → P c.

(** The flags that the sub-attacks of the loop of [expand] return, in the
    order of the loop ([false] for one that raises). *)
Fixpoint okEach (mask : list (list Z)) (g : Game) (id : string)
    (x y : Z) (per : Q) (targets : list (Z * Z)) : list bool :=
  match targets with
  | [] => []
  | t :: rest =>
      let r := attack mask g id x y (fst t) (snd t) per in
      match fst r with
      | Returned ok => ok :: okEach mask (snd r) id x y per rest
      | Thrown => [false]
      end
  end.

(** [serializeState()] *)
Definition serializeState (mask : list (list Z)) (g : Game) : Snapshot :=
  {| gridW := GRID_W mask; gridH := GRID_H mask;
     snapCells := map cellView (cells g);
     snapPlayers := playerView <$> players g |}.

(** ** Rounding to a double *)

Lemma pow2_pos e : (0 < pow2 e)%Q.
Proof. apply Qpower_0_lt. reflexivity. Qed.

Lemma pow2_plus a b : (pow2 (a + b) == pow2 a * pow2 b)%Q.
Proof. apply Qpower_plus. discriminate. Qed.

Lemma pow2_le a b : a ≤ b → (pow2 a <= pow2 b)%Q.
Proof. intros H. apply Qpower_le_compat_l; [exact H|discriminate]. Qed.

Lemma pow2_lt a b : a < b → (pow2 a < pow2 b)%Q.
Proof. intros H. apply Qpower_lt_compat_l; [exact H|reflexivity]. Qed.

Lemma pow2_lt_inv a b : (pow2 a < pow2 b)%Q → a < b.
Proof. intros H. eapply Qpower_lt_compat_l_inv; [exact H|reflexivity]. Qed.

Lemma pow2_Z k : 0 ≤ k → (pow2 k == inject_Z (2 ^ k))%Q.
Proof. intros H. unfold pow2. by rewrite Zpower_Qpower. Qed.

Lemma pow2_succ a : (pow2 (a + 1) == 2 * pow2 a)%Q.
Proof. rewrite pow2_plus. unfold pow2 at 2. simpl. lra. Qed.

(** [ilog2 x] is the exponent of [x]: [2^e <= x < 2^(e+1)]. *)
Lemma ilog2_spec x :
  (0 < x)%Q → (pow2 (ilog2 x) <= x)%Q ∧ (x < pow2 (ilog2 x + 1))%Q.
Proof.
  intros Hx. unfold ilog2.
  set (n := Qnum x). set (d := Z.pos (Qden x)).
  assert (Hn : 0 < n) by (destruct x as [xn xd]; unfold Qlt in Hx; simpl in *; lia).
  assert (Hd : 0 < d) by (unfold d; lia).
  set (a := Z.log2 n). set (b := Z.log2 d).
  assert (Ha : 2 ^ a ≤ n < 2 ^ (a + 1)).
  { unfold a. pose proof (Z.log2_spec n Hn). rewrite <- Z.add_1_r in H. lia. }
  assert (Hb : 2 ^ b ≤ d < 2 ^ (b + 1)).
  { unfold b. pose proof (Z.log2_spec d Hd). rewrite <- Z.add_1_r in H. lia. }
  assert (Ha0 : 0 ≤ a) by apply Z.log2_nonneg.
  assert (Hb0 : 0 ≤ b) by apply Z.log2_nonneg.
  assert (Hxe : (x == inject_Z n / inject_Z d)%Q).
  { destruct x as [xn xd]. unfold n, d. simpl. apply Qmake_Qdiv. }
  assert (HdQ : (0 < inject_Z d)%Q) by (rewrite <- (Zlt_Qlt 0); exact Hd).
  assert (HaQ : (pow2 a <= inject_Z n)%Q ∧ (inject_Z n < pow2 (a + 1))%Q).
  { rewrite !pow2_Z by lia. rewrite <- Zle_Qle, <- Zlt_Qlt. exact Ha. }
  assert (HbQ : (pow2 b <= inject_Z d)%Q ∧ (inject_Z d < pow2 (b + 1))%Q).
  { rewrite !pow2_Z by lia. rewrite <- Zle_Qle, <- Zlt_Qlt. exact Hb. }
  assert (Hxd : (x * inject_Z d == inject_Z n)%Q).
  { rewrite Hxe. field. lra. }
  destruct (Qle_bool (pow2 (a - b)) x) eqn:Hle.
  - apply Qle_bool_iff in Hle. split; [exact Hle|].
    (* x < 2^(a-b+1): x * 2^b <= x * d = n < 2^(a+1) = 2^(a-b+1) * 2^b *)
    pose proof (pow2_pos b) as Hpb.
    assert (H1 : (pow2 (a + 1) == pow2 (a - b + 1) * pow2 b)%Q).
    { rewrite <- pow2_plus. replace (a - b + 1 + b) with (a + 1) by lia.
      reflexivity. }
    destruct (Qlt_le_dec x (pow2 (a - b + 1))) as [|Hge]; [assumption|].
    exfalso.
    assert ((pow2 (a - b + 1) * pow2 b <= x * inject_Z d)%Q).
    { apply Qle_trans with (x * pow2 b)%Q.
      - apply Qmult_le_compat_r; [exact Hge|lra].
      - rewrite !(Qmult_comm x). apply Qmult_le_compat_r; lra. }
    lra.
  - assert (Hlt : (x < pow2 (a - b))%Q).
    { destruct (Qlt_le_dec x (pow2 (a - b))) as [|Hge]; [assumption|].
      apply Qle_bool_iff in Hge. congruence. }
    replace (a - b - 1 + 1) with (a - b) by lia. split; [|exact Hlt].
    (* 2^(a-b-1) * d < 2^(a-b-1) * 2^(b+1) = 2^a <= n = x * d *)
    pose proof (pow2_pos (a - b - 1)) as Hp.
    assert (H1 : (pow2 a == pow2 (a - b - 1) * pow2 (b + 1))%Q).
    { rewrite <- pow2_plus. replace (a - b - 1 + (b + 1)) with a by lia.
      reflexivity. }
    destruct (Qlt_le_dec x (pow2 (a - b - 1))) as [Hlt'|]; [|assumption].
    exfalso.
    assert ((x * inject_Z d < pow2 (a - b - 1) * pow2 (b + 1))%Q).
    { apply Qle_lt_trans with (pow2 (a - b - 1) * inject_Z d)%Q.
      - apply Qmult_le_compat_r; lra.
      - rewrite !(Qmult_comm (pow2 (a - b - 1))).
        apply Qmult_lt_compat_r; lra. }
    lra.
Qed.

Lemma roundHalfEven_le z : (inject_Z (roundHalfEven z) <= z + (1 # 2))%Q.
Proof.
  unfold roundHalfEven.
  pose proof (Qfloor_le z) as Hf. pose proof (Qlt_floor z) as Hl.
  rewrite inject_Z_plus in Hl. change (inject_Z 1) with 1%Q in Hl.
  destruct (z - inject_Z (Qfloor z) ?= 1 # 2)%Q eqn:Hc.
  - apply Qeq_alt in Hc.
    destruct (Z.even (Qfloor z)); [lra|]. rewrite inject_Z_plus.
    change (inject_Z 1) with 1%Q. lra.
  - lra.
  - apply Qgt_alt in Hc. rewrite inject_Z_plus.
    change (inject_Z 1) with 1%Q. lra.
Qed.

Lemma roundHalfEven_ge_int z (N : Z) :
  (inject_Z N <= z)%Q → N ≤ roundHalfEven z.
Proof.
  intros H. apply Qfloor_resp_le in H. rewrite Qfloor_Z in H.
  unfold roundHalfEven.
  destruct (z - inject_Z (Qfloor z) ?= 1 # 2)%Q;
    [destruct (Z.even (Qfloor z))|..]; lia.
Qed.

Lemma roundPositive_eq x :
  (roundPositive x ==
   inject_Z (roundHalfEven (x / pow2 (Z.max (ilog2 x) (-1022) - 52)))
   * pow2 (Z.max (ilog2 x) (-1022) - 52))%Q.
Proof. unfold roundPositive. apply Qred_correct. Qed.

Lemma roundPositive_nonneg x : (0 < x)%Q → (0 <= roundPositive x)%Q.
Proof.
  intros Hx. rewrite roundPositive_eq.
  set (u := pow2 _). pose proof (pow2_pos (Z.max (ilog2 x) (-1022) - 52)) as Hu.
  fold u in Hu.
  assert (0 ≤ roundHalfEven (x / u)).
  { apply roundHalfEven_ge_int. apply Qle_shift_div_l; [exact Hu|].
    change (inject_Z 0) with 0%Q. lra. }
  apply Qmult_le_0_compat; [|lra]. rewrite <- (Zle_Qle 0). assumption.
Qed.

(** Rounding never goes below a power of two that the number reaches. *)
Lemma roundPositive_ge_pow2 x k :
  -1022 ≤ k → (pow2 k <= x)%Q → (pow2 k <= roundPositive x)%Q.
Proof.
  intros Hk Hx.
  assert (Hx0 : (0 < x)%Q) by (pose proof (pow2_pos k); lra).
  destruct (ilog2_spec x Hx0) as [Hlo Hhi].
  assert (Hke : k ≤ ilog2 x).
  { assert (k < ilog2 x + 1); [|lia]. apply pow2_lt_inv. lra. }
  rewrite roundPositive_eq. rewrite Z.max_l by lia.
  set (e := ilog2 x) in *. set (u := pow2 (e - 52)).
  pose proof (pow2_pos (e - 52)) as Hu. fold u in Hu.
  assert (He : (pow2 e == inject_Z (2 ^ 52) * u)%Q).
  { unfold u. rewrite <- pow2_Z by lia. rewrite <- pow2_plus.
    replace (52 + (e - 52)) with e by lia. reflexivity. }
  assert (2 ^ 52 ≤ roundHalfEven (x / u)).
  { apply roundHalfEven_ge_int. apply Qle_shift_div_l; [exact Hu|]. lra. }
  apply Qle_trans with (pow2 e); [by apply pow2_le|].
  rewrite He. apply Qmult_le_compat_r; [|lra]. by rewrite <- Zle_Qle.
Qed.

(** Rounding moves a number by half a unit in the last place at most. *)
Lemma roundPositive_le x :
  (0 < x)%Q →
  (roundPositive x <= x + pow2 (Z.max (ilog2 x) (-1022) - 53))%Q.
Proof.
  intros Hx. rewrite roundPositive_eq.
  set (e := Z.max (ilog2 x) (-1022)).
  set (u := pow2 (e - 52)).
  pose proof (pow2_pos (e - 52)) as Hu. fold u in Hu.
  assert (Hh : (pow2 (e - 53) == (1 # 2) * u)%Q).
  { unfold u. replace (e - 52) with (e - 53 + 1) by lia.
    rewrite pow2_succ. field. }
  pose proof (roundHalfEven_le (x / u)) as Hr.
  apply Qle_trans with ((x / u + (1 # 2)) * u)%Q.
  - apply Qmult_le_compat_r; [exact Hr|lra].
  - rewrite Hh. apply Qle_lteq. right. field. lra.
Qed.

(** A product with a number of [0, 1) stays below the other factor:
    [r * n] rounds to less than [n] for a double [r < 1]. *)
Lemma roundDouble_below x (n : Z) :
  1 ≤ n → (0 <= x)%Q → (x <= inject_Z n * (1 - pow2 (-53)))%Q →
  (roundDouble x < inject_Z n)%Q.
Proof.
  intros Hn Hx0 Hx.
  assert (HnQ : (1 <= inject_Z n)%Q) by (by rewrite <- (Zle_Qle 1)).
  pose proof (pow2_pos (-53)) as H53.
  unfold roundDouble. destruct (x ?= 0)%Q eqn:Hc.
  - lra.
  - apply Qlt_alt in Hc. lra.
  - apply Qgt_alt in Hc.
    destruct (ilog2_spec x Hc) as [Hlo _].
    set (k := Z.log2 n).
    assert (Hk0 : 0 ≤ k) by apply Z.log2_nonneg.
    assert (Hk : 2 ^ k ≤ n) by (apply Z.log2_spec; lia).
    assert (HkQ : (pow2 k <= inject_Z n)%Q).
    { rewrite pow2_Z by lia. by rewrite <- Zle_Qle. }
    eapply Qle_lt_trans; [apply roundPositive_le; exact Hc|].
    set (e := Z.max (ilog2 x) (-1022)).
    assert (Hxn : (x < inject_Z n)%Q).
    { assert (0 < inject_Z n * pow2 (-53))%Q by (apply Qmult_lt_0_compat; lra).
      lra. }
    assert (He : (pow2 (e - 53) < inject_Z n * pow2 (-53))%Q).
    { replace (e - 53) with (e + -53) by lia. rewrite pow2_plus.
      apply Qmult_lt_compat_r; [exact H53|].
      unfold e. destruct (Z.max_spec (ilog2 x) (-1022)) as [[_ ->]|[_ ->]].
      - apply Qlt_le_trans with (pow2 0); [by apply pow2_lt|].
        unfold pow2. simpl. exact HnQ.
      - lra. }
    lra.
Qed.

Lemma roundDouble_nonneg x : (0 <= x)%Q → (0 <= roundDouble x)%Q.
Proof.
  intros Hx. unfold roundDouble. destruct (x ?= 0)%Q eqn:Hc.
  - lra.
  - apply Qlt_alt in Hc. lra.
  - apply Qgt_alt in Hc. by apply roundPositive_nonneg.
Qed.

Lemma roundDouble_ge_pow2 x k :
  -1022 ≤ k → (pow2 k <= x)%Q → (pow2 k <= roundDouble x)%Q.
Proof.
  intros Hk Hx. pose proof (pow2_pos k) as Hp.
  unfold roundDouble. destruct (x ?= 0)%Q eqn:Hc.
  - apply Qeq_alt in Hc. lra.
  - apply Qlt_alt in Hc. lra.
  - by apply roundPositive_ge_pow2.
Qed.

Lemma ilog2_unique x e :
  (0 < x)%Q → (pow2 e <= x)%Q → (x < pow2 (e + 1))%Q → ilog2 x = e.
Proof.
  intros Hx Hlo Hhi. destruct (ilog2_spec x Hx) as [Hlo' Hhi'].
  assert (e < ilog2 x + 1) by (apply pow2_lt_inv; lra).
  assert (ilog2 x < e + 1) by (apply pow2_lt_inv; lra).
  lia.
Qed.

Lemma ilog2_comp x y : (x == y)%Q → (0 < x)%Q → ilog2 x = ilog2 y.
Proof.
  intros Heq Hx.
  assert (Hy : (0 < y)%Q) by (by rewrite <- Heq).
  destruct (ilog2_spec y Hy) as [Hlo Hhi].
  apply ilog2_unique; [exact Hx | by rewrite Heq | by rewrite Heq].
Qed.

Lemma roundHalfEven_comp x y : (x == y)%Q → roundHalfEven x = roundHalfEven y.
Proof.
  intros Heq. unfold roundHalfEven.
  rewrite (Qfloor_comp x y Heq).
  assert (Hc : (x - inject_Z (Qfloor y) ?= 1 # 2)%Q
               = (y - inject_Z (Qfloor y) ?= 1 # 2)%Q).
  { apply Qcompare_comp; [by rewrite Heq | reflexivity]. }
  by rewrite Hc.
Qed.

Lemma roundHalfEven_Z (m : Z) : roundHalfEven (inject_Z m) = m.
Proof.
  unfold roundHalfEven. rewrite Qfloor_Z.
  assert (Hc : (inject_Z m - inject_Z m ?= 1 # 2)%Q = Lt).
  { apply Qlt_alt.
    assert (H0 : (inject_Z m - inject_Z m == 0)%Q) by ring.
    rewrite H0. reflexivity. }
  by rewrite Hc.
Qed.

Lemma roundHalfEven_le_int z (N : Z) :
  (z <= inject_Z N)%Q → roundHalfEven z ≤ N.
Proof.
  intros H. pose proof (Qfloor_resp_le _ _ H) as Hf. rewrite Qfloor_Z in Hf.
  unfold roundHalfEven.
  destruct (z - inject_Z (Qfloor z) ?= 1 # 2)%Q eqn:Hc;
    [destruct (Z.even (Qfloor z))|..]; try lia.
  - apply Qeq_alt in Hc.
    destruct (Z.eq_dec (Qfloor z) N) as [Heq|]; [|lia].
    rewrite Heq in Hc. lra.
  - apply Qgt_alt in Hc.
    destruct (Z.eq_dec (Qfloor z) N) as [Heq|]; [|lia].
    rewrite Heq in Hc. lra.
Qed.

Lemma roundPositive_comp x y :
  (x == y)%Q → (0 < x)%Q → roundPositive x = roundPositive y.
Proof.
  intros Heq Hx. unfold roundPositive.
  rewrite (ilog2_comp x y Heq Hx).
  set (u := pow2 _).
  assert (Hr : roundHalfEven (x / u) = roundHalfEven (y / u)).
  { apply roundHalfEven_comp. by rewrite Heq. }
  by rewrite Hr.
Qed.

(** Rounding gives the same double for equal rationals. *)
Lemma roundDouble_comp x y : (x == y)%Q → roundDouble x = roundDouble y.
Proof.
  intros Heq. unfold roundDouble.
  assert (Hc : (x ?= 0)%Q = (y ?= 0)%Q).
  { apply Qcompare_comp; [exact Heq | reflexivity]. }
  rewrite <- Hc. destruct (x ?= 0)%Q eqn:Hx.
  - reflexivity.
  - apply Qlt_alt in Hx.
    rewrite (roundPositive_comp (- x) (- y)); [reflexivity | by rewrite Heq | lra].
  - apply Qgt_alt in Hx. by apply roundPositive_comp.
Qed.

(** A double is its own nearest double. *)
Lemma roundPositive_idem x :
  (0 < x)%Q → (roundDouble (roundPositive x) == roundPositive x)%Q.
Proof.
  intros Hx.
  destruct (ilog2_spec x Hx) as [Hlo Hhi].
  pose proof (roundPositive_eq x) as Hy.
  set (e := Z.max (ilog2 x) (-1022)) in *.
  set (u := pow2 (e - 52)) in *.
  set (m := roundHalfEven (x / u)) in *.
  pose proof (pow2_pos (e - 52)) as Hu. fold u in Hu.
  assert (He52 : (pow2 e == inject_Z (2 ^ 52) * u)%Q).
  { unfold u. rewrite <- pow2_Z by lia. rewrite <- pow2_plus.
    by replace (52 + (e - 52)) with e by lia. }
  assert (He53 : (pow2 (e + 1) == inject_Z (2 ^ 53) * u)%Q).
  { unfold u. rewrite <- pow2_Z by lia. rewrite <- pow2_plus.
    by replace (53 + (e - 52)) with (e + 1) by lia. }
  assert (Hm0 : 0 ≤ m).
  { apply roundHalfEven_ge_int. apply Qle_shift_div_l; [exact Hu|].
    change (inject_Z 0) with 0%Q. lra. }
  assert (Hm53 : m ≤ 2 ^ 53).
  { apply roundHalfEven_le_int. apply Qle_shift_div_r; [exact Hu|].
    rewrite <- He53.
    apply Qle_trans with (pow2 (ilog2 x + 1)); [lra|].
    apply pow2_le. lia. }
  destruct (Z.eq_dec m 0) as [Hz|Hnz].
  { rewrite (roundDouble_comp (roundPositive x) 0).
    - rewrite Hy, Hz. change (inject_Z 0) with 0%Q. unfold roundDouble.
      simpl. lra.
    - rewrite Hy, Hz. change (inject_Z 0) with 0%Q. lra. }
  assert (HmQ : (1 <= inject_Z m)%Q) by (rewrite <- (Zle_Qle 1); lia).
  assert (Hypos : (0 < inject_Z m * u)%Q) by (apply Qmult_lt_0_compat; lra).
  rewrite (roundDouble_comp (roundPositive x) (inject_Z m * u) Hy).
  rewrite Hy.
  unfold roundDouble.
  assert (Hc : (inject_Z m * u ?= 0)%Q = Gt) by (by apply Qgt_alt).
  rewrite Hc. rewrite roundPositive_eq.
  (* the exponent of m * u *)
  assert (Hexp : ∃ e' (k : Z),
     Z.max (ilog2 (inject_Z m * u)) (-1022) = e'
     ∧ (inject_Z m * u == inject_Z k * pow2 (e' - 52))%Q).
  { destruct (Z.eq_dec m (2 ^ 53)) as [Htop|Hntop].
    - exists (e + 1), (2 ^ 52). split.
      + rewrite (ilog2_unique (inject_Z m * u) (e + 1)); [lia | exact Hypos | |].
        * rewrite Htop, <- He53. lra.
        * rewrite Htop, <- He53. apply pow2_lt. lia.
      + rewrite Htop, <- He53.
        replace (e + 1 - 52) with (52 * -1 + (e + 1)) by lia.
        rewrite <- (pow2_Z 52) by lia. rewrite <- pow2_plus.
        by replace (52 + (52 * -1 + (e + 1))) with (e + 1) by lia.
    - exists e, m. split; [|reflexivity].
      assert (Hlt : (inject_Z m * u < pow2 (e + 1))%Q).
      { rewrite He53. apply Qmult_lt_compat_r; [exact Hu|].
        rewrite <- Zlt_Qlt. lia. }
      destruct (Z_lt_le_dec m (2 ^ 52)) as [Hsub|Hnorm].
      + (* below the normal range: the exponent was raised to -1022 *)
        assert (Hylt : (inject_Z m * u < pow2 e)%Q).
        { rewrite He52. apply Qmult_lt_compat_r; [exact Hu|].
          by rewrite <- Zlt_Qlt. }
        assert (Hclamp : e = -1022).
        { destruct (Z.max_spec (ilog2 x) (-1022)) as [[_ Hmax]|[_ Hmax]];
            fold e in Hmax; [exact Hmax|].
          exfalso. assert (2 ^ 52 ≤ m); [|lia].
          apply roundHalfEven_ge_int. apply Qle_shift_div_l; [exact Hu|].
          rewrite <- He52, Hmax. exact Hlo. }
        destruct (ilog2_spec _ Hypos) as [Hlo' _].
        assert (ilog2 (inject_Z m * u) < e) by (apply pow2_lt_inv; lra).
        lia.
      + rewrite (ilog2_unique (inject_Z m * u) e); [unfold e; lia | exact Hypos | | exact Hlt].
        rewrite He52. apply Qmult_le_compat_r; [|lra].
        by rewrite <- Zle_Qle. }
  destruct Hexp as (e' & k & -> & Hk).
  pose proof (pow2_pos (e' - 52)) as Hu'.
  assert (Hdiv : (inject_Z m * u / pow2 (e' - 52) == inject_Z k)%Q).
  { rewrite Hk. field. lra. }
  rewrite (roundHalfEven_comp _ _ Hdiv), roundHalfEven_Z.
  by rewrite Hk.
Qed.

Lemma roundDouble_neg_pos y :
  (0 < y)%Q → roundDouble (- y) = (- roundPositive (- - y))%Q.
Proof.
  intros Hy. unfold roundDouble.
  assert (Hc : (- y ?= 0)%Q = Lt) by (apply (proj1 (Qlt_alt _ _)); lra).
  by rewrite Hc.
Qed.

Lemma roundDouble_idem x : (roundDouble (roundDouble x) == roundDouble x)%Q.
Proof.
  unfold roundDouble at 2 3. destruct (x ?= 0)%Q eqn:Hc.
  - reflexivity.
  - apply Qlt_alt in Hc.
    assert (Hx : (0 < - x)%Q) by lra.
    pose proof (roundPositive_idem (- x) Hx) as Hid.
    pose proof (roundPositive_nonneg (- x) Hx) as Hnn.
    set (y := roundPositive (- x)) in *.
    destruct (Qlt_le_dec 0 y) as [Hpos|Hle].
    + rewrite (roundDouble_neg_pos y Hpos).
      rewrite (roundPositive_comp (- - y) y); [|ring|lra].
      assert (Hyy : (roundPositive y == y)%Q).
      { unfold roundDouble in Hid.
        assert (Hc' : (y ?= 0)%Q = Gt) by (by apply (proj1 (Qgt_alt _ _))).
        by rewrite Hc' in Hid. }
      by rewrite Hyy.
    + assert (Hz : (y == 0)%Q) by lra.
      rewrite (roundDouble_comp (- y) 0) by lra.
      unfold roundDouble. simpl. lra.
  - apply Qgt_alt in Hc. by apply roundPositive_idem.
Qed.

(** The troops to send for a fraction that is a double already: the
    nearest double of a double is the double itself. *)
Lemma toSendOf_double_arg (t : Z) (z : Q) :
  toSendOf t (roundDouble z)
  = Qfloor (roundDouble (inject_Z t * roundDouble z)).
Proof.
  unfold toSendOf. f_equal. apply roundDouble_comp.
  by rewrite roundDouble_idem.
Qed.

(** With a fraction of 2 or more the troops to send exceed the pool. *)
Lemma toSendOf_double (t : Z) (percent : Q) :
  1 ≤ t → (2 <= percent)%Q → t < toSendOf t percent.
Proof.
  intros Ht Hpercent. unfold toSendOf.
  set (k := Z.log2 t).
  assert (Hk0 : 0 ≤ k) by apply Z.log2_nonneg.
  assert (Hk : 2 ^ k ≤ t < 2 ^ (k + 1)).
  { pose proof (Z.log2_spec t ltac:(lia)) as H.
    rewrite <- Z.add_1_r in H. exact H. }
  assert (Hr : (2 <= roundDouble percent)%Q).
  { apply (roundDouble_ge_pow2 percent 1); [lia | exact Hpercent]. }
  assert (HtQ : (inject_Z (2 ^ k) <= inject_Z t)%Q) by (rewrite <- Zle_Qle; lia).
  assert (Hp0 : (0 < inject_Z (2 ^ k))%Q).
  { rewrite <- (Zlt_Qlt 0). apply Z.pow_pos_nonneg; lia. }
  assert (Hx : (pow2 (k + 1) <= inject_Z t * roundDouble percent)%Q).
  { rewrite pow2_succ, pow2_Z by lia.
    apply Qle_trans with (inject_Z t * 2)%Q; [lra|].
    rewrite !(Qmult_comm (inject_Z t)). apply Qmult_le_compat_r; lra. }
  apply (roundDouble_ge_pow2 _ (k + 1)) in Hx; [|lia].
  rewrite pow2_Z in Hx by lia.
  apply Qfloor_resp_le in Hx. rewrite Qfloor_Z in Hx. lia.
Qed.

(** ** The growth rule *)










Lemma cityCountOf_total g idxs :
  (∀ idx, idx ∈ idxs → is_Some (cellAt g idx)) → is_Some (cityCountOf g idxs).
Proof.
  induction idxs as [|idx rest IH]; intros H; simpl; [eauto|].
  destruct (H idx) as [c ->]; [left|].
  destruct IH as [m ->]; [|simpl; eauto].
  intros i Hi. apply H. by right.
Qed.






(** ** The growth step of the tick *)

Lemma growPlayer_total g p :
  (∀ idx, idx ∈ Player.cells p → is_Some (cellAt g idx)) →
  is_Some (growPlayer g p).
Proof.
  intros H. unfold growPlayer.
  destruct (cityCountOf_total g (Player.cells p) H) as [n ->]. eauto.
Qed.

Lemma growPlayers_lookup g g' id :
  growPlayers g = Some g' →
  players g' !! id = tickPlayer g <$> players g !! id.
Proof.
  unfold growPlayers. destruct (decide _); [|discriminate].
  intros [= <-]. simpl. rewrite lookup_fmap. reflexivity.
Qed.

Lemma growPlayers_cells g g' : growPlayers g = Some g' → cells g' = cells g.
Proof.
  unfold growPlayers. destruct (decide _); [|discriminate].
  by intros [= <-].
Qed.

Lemma growPlayers_bots g g' : growPlayers g = Some g' → bots g' = bots g.
Proof.
  unfold growPlayers. destruct (decide _); [|discriminate].
  by intros [= <-].
Qed.




(** ** Reading and writing cells, sets and players *)

Lemma cellAt_nonneg g idx c : cellAt g idx = Some c → 0 ≤ idx.
Proof. unfold cellAt. destruct (idx <? 0) eqn:H; [discriminate | lia]. Qed.

Lemma cellAt_setCell_eq g idx c c' :
  cellAt g idx = Some c → cellAt (setCell g idx c') idx = Some c'.
Proof.
  unfold cellAt, setCell. simpl. destruct (idx <? 0); [discriminate|].
  intros H. apply list_lookup_insert_eq. by apply lookup_lt_Some in H.
Qed.

Lemma cellAt_setCell_ne g idx idx' c' :
  0 ≤ idx → idx ≠ idx' →
  cellAt (setCell g idx c') idx' = cellAt g idx'.
Proof.
  intros Hpos Hne. unfold cellAt, setCell. simpl.
  destruct (idx' <? 0) eqn:H; [reflexivity|].
  apply list_lookup_insert_ne. lia.
Qed.

Lemma Set_add_elem s v u : u ∈ Set_add s v ↔ u = v ∨ u ∈ s.
Proof.
  unfold Set_add, Set_has. case_bool_decide as Hin.
  - split; [by right|]. intros [->|H]; done.
  - rewrite elem_of_app, list_elem_of_singleton. tauto.
Qed.

Lemma Set_delete_elem s v u : u ∈ Set_delete s v ↔ u ≠ v ∧ u ∈ s.
Proof. unfold Set_delete. by rewrite list_elem_of_filter. Qed.

Lemma truthy_Some d : d ≠ "" → truthy (Some d) = true.
Proof.
  intros H. simpl. apply negb_true_iff. by apply String.eqb_neq.
Qed.

Lemma truthy_inv o : truthy o = true → ∃ d, o = Some d ∧ d ≠ "".
Proof.
  destruct o as [d|]; [|discriminate]. simpl. intros H.
  exists d. split; [reflexivity|]. apply String.eqb_neq.
  by apply negb_true_iff.
Qed.

Lemma truthy_false_iff o : truthy o = false ↔ o = None ∨ o = Some "".
Proof.
  destruct o as [d|]; simpl; [|by split; [left|]].
  rewrite negb_false_iff, String.eqb_eq. split.
  - intros ->. by right.
  - by intros [?|[= ->]].
Qed.

Lemma ownerIs_true o id : ownerIs o id = true ↔ o = Some id.
Proof. apply bool_decide_eq_true. Qed.

Lemma ownerIs_false o id : ownerIs o id = false ↔ o ≠ Some id.
Proof. apply bool_decide_eq_false. Qed.

(** ** A valid attack *)

(** What [attack] accepts as a move: one step, or two steps from a port
    with water at the cell one step along the signs of the offset and
    land at the destination. *)
Lemma moveAllowed_spec mask g srcCell dstCell srcX srcY dstX dstY :
  moveAllowed mask g srcCell dstCell srcX srcY dstX dstY = true
  ↔ (let maxStep := Z.max (Z.abs (dstX - srcX)) (Z.abs (dstY - srcY)) in
     maxStep = 1
     ∨ (maxStep = 2 ∧ Cell.port srcCell = true
        ∧ ∃ midCell d,
            cellAt g ((srcY + Z.sgn (dstY - srcY)) * GRID_W mask
                      + (srcX + Z.sgn (dstX - srcX))) = Some midCell
            ∧ Cell.land midCell = false
            ∧ dstCell = Some d ∧ Cell.land d = true)).
Proof.
  unfold moveAllowed. cbv zeta.
  destruct (Z.max (Z.abs (dstX - srcX)) (Z.abs (dstY - srcY)) =? 1) eqn:H1.
  { simpl. split; [intros _; left; lia | done]. }
  simpl.
  destruct (Z.max (Z.abs (dstX - srcX)) (Z.abs (dstY - srcY)) =? 2) eqn:H2;
    simpl; [|split; [done|]; intros [?|[? _]]; lia].
  destruct (Cell.port srcCell);
    [|split; [done|]; intros [?|(_ & ? & _)]; [lia | done]].
  destruct (cellAt g _) as [midCell|];
    [|split; [done|]; intros [?|(_ & _ & ? & ? & ? & _)]; [lia | done]].
  destruct dstCell as [d|];
    [|split; [done|]; intros [?|(_ & _ & ? & ? & _ & _ & ? & _)]; [lia | done]].
  split.
  - intros [Hm Hd]%andb_true_iff. apply negb_true_iff in Hm.
    right. split; [lia|]. split; [done|]. by exists midCell, d.
  - intros [?|(_ & _ & c & d' & Hc & Hw & Hd & Hl)]; [lia|].
    injection Hc as <-. injection Hd as <-. by rewrite Hw, Hl.
Qed.

(** Past its checks, [attack] deducts [toSend] and resolves. *)
Lemma attack_valid mask g p srcX srcY dstX dstY fraction player srcCell :
  players g !! p = Some player →
  cellAt g (srcY * GRID_W mask + srcX) = Some srcCell →
  Cell.owner srcCell = Some p →
  moveAllowed mask g srcCell (cellAt g (dstY * GRID_W mask + dstX))
    srcX srcY dstX dstY = true →
  1 ≤ toSendOf (Player.troops player) fraction →
  attack mask g p srcX srcY dstX dstY fraction
  = let toSend := toSendOf (Player.troops player) fraction in
    let player1 := Player.setTroops player (Player.troops player - toSend) in
    resolve (setPlayer g p player1) p player1 (dstY * GRID_W mask + dstX) toSend.
Proof.
  intros Hp Hsrc Hown Hmove Hsend. unfold attack.
  rewrite Hp, Hsrc.
  rewrite (proj2 (ownerIs_true _ _) Hown), Hmove. simpl.
  destruct (toSendOf (Player.troops player) fraction <? 1) eqn:Hlt; [lia|].
  reflexivity.
Qed.




(** ** Attacks on unowned and on own cells *)

(** C10: an attack on an adjacent cell (Chebyshev distance 1) never looks
    at the land flag of the destination: whatever that flag is, an unowned
    destination is captured.  Its owner becomes the attacker, its index
    enters the attacker's territory, its land flag stays as it was (a
    water cell stays water and is owned), its port and city flags are
    false, and the attacker pays the troops sent; yet [spawn] refuses the
    same cell when it is water. *)
Theorem adjacent_attack_ignores_land (mask : list (list Z)) (g : Game)
    (p : string) (srcX srcY dstX dstY : Z) (fraction : Q)
    (player : Player.t) (srcCell dstCell : Cell.t) :
  let srcIdx := srcY * GRID_W mask + srcX in
  let dstIdx := dstY * GRID_W mask + dstX in
  let sent :=
    Qfloor (roundDouble
              (inject_Z (Player.troops player) * roundDouble fraction)) in
  players g !! p = Some player →
  cellAt g srcIdx = Some srcCell → Cell.owner srcCell = Some p →
  Z.max (Z.abs (dstX - srcX)) (Z.abs (dstY - srcY)) = 1 →
  cellAt g dstIdx = Some dstCell →
  Cell.owner dstCell = None ∨ Cell.owner dstCell = Some "" →
  1 ≤ sent →
  ∃ g' player' c',
    attack mask g p srcX srcY dstX dstY fraction = (Returned true, g')
    ∧ players g' !! p = Some player'
    ∧ (∀ idx, idx ∈ Player.cells player'
              ↔ idx = dstIdx ∨ idx ∈ Player.cells player)
    ∧ Player.troops player' = Player.troops player - sent
    ∧ cellAt g' dstIdx = Some c'
    ∧ Cell.owner c' = Some p
    ∧ Cell.land c' = Cell.land dstCell
    ∧ Cell.port c' = false ∧ Cell.city c' = false
    ∧ (∀ idx, idx ≠ dstIdx → cellAt g' idx = cellAt g idx)
    ∧ (Cell.land dstCell = false →
         ∀ q, spawn mask g q dstX dstY = (Returned false, g)).
Proof.
  intros srcIdx dstIdx sent Hp Hsrc Hsown Hstep Hdst Hfree Hsent.
  subst srcIdx dstIdx. apply truthy_false_iff in Hfree.
  assert (Hmove : moveAllowed mask g srcCell
                    (cellAt g (dstY * GRID_W mask + dstX))
                    srcX srcY dstX dstY = true).
  { unfold moveAllowed. rewrite Hstep. reflexivity. }
  rewrite (attack_valid mask g p srcX srcY dstX dstY fraction player srcCell
             Hp Hsrc Hsown Hmove Hsent).
  cbv zeta. unfold toSendOf. fold sent. unfold resolve.
  change (cellAt (setPlayer g p ?q) ?i) with (cellAt g i).
  rewrite Hdst, Hfree. simpl negb. cbv iota.
  eexists _, _, _. split; [reflexivity|]. simpl.
  split; [by rewrite lookup_insert_eq|]. simpl.
  split; [intros idx; apply Set_add_elem|].
  split; [reflexivity|].
  change (cellAt (setPlayer ?h ?i ?q) ?j) with (cellAt h j).
  change (cellAt (setCell (setPlayer ?h ?i ?q) ?j ?c) ?k)
    with (cellAt (setCell h j c) k).
  split; [by apply cellAt_setCell_eq with dstCell|].
  split; [reflexivity|]. split; [reflexivity|].
  split; [reflexivity|]. split; [reflexivity|].
  split.
  { intros idx Hne.
    change (cellAt (setPlayer ?h ?i ?q) ?j) with (cellAt h j).
    change (cellAt (setCell (setPlayer ?h ?i ?q) ?j ?c) ?k)
      with (cellAt (setCell h j c) k).
    apply cellAt_setCell_ne; [by eapply cellAt_nonneg | congruence]. }
  intros Hwater q. unfold spawn. rewrite Hdst, Hwater. reflexivity.
Qed.

(** In [worldShore] A attacks the water cell (1,0) from (0,0): the water
    cell becomes a cell of A, and stays water. *)
Lemma adjacent_attack_water_witness :
  ∃ g' player' c c',
    cellAt worldShore 1 = Some c ∧ Cell.land c = false
    ∧ Cell.owner c = None
    ∧ attack shore worldShore "A" 0 0 1 0 (1 # 2) = (Returned true, g')
    ∧ players g' !! "A" = Some player'
    ∧ 1 ∈ Player.cells player'
    ∧ cellAt g' 1 = Some c'
    ∧ Cell.owner c' = Some "A" ∧ Cell.land c' = false.
Proof.
  edestruct (adjacent_attack_ignores_land shore worldShore "A" 0 0 1 0 (1 # 2))
    as (g' & player' & c' & Hrun & Hp & Hin & _ & Hcell & Hown & Hland & _).
  - vm_compute; reflexivity.
  - vm_compute; reflexivity.
  - reflexivity.
  - reflexivity.
  - vm_compute; reflexivity.
  - by left.
  - vm_compute; discriminate.
  - exists g', player'. eexists _, c'.
    split; [vm_compute; reflexivity|]. split; [reflexivity|].
    split; [reflexivity|].
    split; [exact Hrun|]. split; [exact Hp|].
    split; [apply Hin; by left|].
    split; [exact Hcell|]. split; [exact Hown | exact Hland].
Defined.

(** What [attack] does on a cell of the attacker itself: it has deducted
    the troops by the time it looks at the owner, and returns [false]. *)
Lemma attack_own_cell mask g p srcX srcY dstX dstY fraction
    player srcCell dstCell :
  players g !! p = Some player → p ≠ "" →
  cellAt g (srcY * GRID_W mask + srcX) = Some srcCell →
  Cell.owner srcCell = Some p →
  cellAt g (dstY * GRID_W mask + dstX) = Some dstCell →
  Cell.owner dstCell = Some p →
  moveAllowed mask g srcCell (Some dstCell) srcX srcY dstX dstY = true →
  1 ≤ toSendOf (Player.troops player) fraction →
  attack mask g p srcX srcY dstX dstY fraction
  = (Returned false,
     setPlayer g p
       (Player.setTroops player
          (Player.troops player - toSendOf (Player.troops player) fraction))).
Proof.
  intros Hp Hp0 Hsrc Hsown Hdst Hdown Hmove Hsent.
  rewrite (attack_valid mask g p srcX srcY dstX dstY fraction player srcCell
             Hp Hsrc Hsown) by (by rewrite ?Hdst).
  cbv zeta. unfold resolve.
  change (cellAt (setPlayer g p ?q) ?i) with (cellAt g i).
  rewrite Hdst, Hdown, (truthy_Some p Hp0). simpl negb. cbv iota.
  by rewrite (proj2 (ownerIs_true (Some p) p)).
Qed.

(** C1 fails on the code: in [worldTwoCells] A owns (1,1)
    and (1,0) and has pool 5; its attack from (1,1) on its own cell (1,0)
    with fraction 1/2 returns [false], and the pool is 3: the 2 troops of
    [floor(5 * 1/2)] have been deducted. *)
Theorem attack_own_cell_debits :
  owned worldTwoCells 4 "A" ∧ owned worldTwoCells 1 "A"
  ∧ poolOf worldTwoCells "A" = 5
  ∧ ∃ g', attack allLand3 worldTwoCells "A" 1 1 1 0 (1 # 2)
          = (Returned false, g')
      ∧ poolOf g' "A" = 3
      ∧ cells g' = cells worldTwoCells.
Proof.
  split; [eexists; split; vm_compute; reflexivity|].
  split; [eexists; split; vm_compute; reflexivity|].
  split; [vm_compute; reflexivity|].
  eexists. split; [vm_compute; reflexivity|].
  split; vm_compute; reflexivity.
Qed.

(** ** The movement check *)

(** A move that fails the check fails the attack and changes nothing. *)
Lemma attack_rejects_move mask g p srcX srcY dstX dstY fraction srcCell :
  cellAt g (srcY * GRID_W mask + srcX) = Some srcCell →
  moveAllowed mask g srcCell (cellAt g (dstY * GRID_W mask + dstX))
    srcX srcY dstX dstY = false →
  attack mask g p srcX srcY dstX dstY fraction = (Returned false, g).
Proof.
  intros Hsrc Hmove. unfold attack. rewrite Hsrc, Hmove.
  destruct (players g !! p); [|reflexivity].
  by destruct (negb (ownerIs (Cell.owner srcCell) p)).
Qed.

(** C4 fails on the code: in [worldPort] A owns the port
    cell (0,0) and has pool 5; (1,1) is water and (2,1) is land.  The
    attack from (0,0) on (2,1), at offset (2,1), which is neither on a
    straight nor on a diagonal line, is accepted: it returns [true] and A
    owns (2,1). *)
Theorem attack_offset_2_1_accepted :
  (∃ c, cellAt worldPort 0 = Some c
        ∧ Cell.owner c = Some "A" ∧ Cell.port c = true)
  ∧ poolOf worldPort "A" = 5
  ∧ ∃ g', attack bay worldPort "A" 0 0 2 1 1 = (Returned true, g')
      ∧ owned g' (1 * GRID_W bay + 2) "A"
      ∧ poolOf g' "A" = 0.
Proof.
  split; [eexists; split; [vm_compute; reflexivity | split; reflexivity]|].
  split; [vm_compute; reflexivity|].
  eexists. split; [vm_compute; reflexivity|].
  split; [eexists; split; vm_compute; reflexivity|].
  vm_compute; reflexivity.
Qed.

(** ** The shares of [expand] *)

(** C5 fails on the code: in [worldStrip] A has pool 10 and
    two targets around (1,0).  [expand] with fraction 1 gives each
    sub-attack the fraction 1/2, and an even split would commit
    [floor(10 * 1 / 2) = 5] twice; the first sub-attack takes 5, the
    second takes [floor(5 * 1/2) = 2] of the 5 that are left, and the pool
    ends at 3. *)
Theorem expand_shares_shrink :
  ∃ srcCell g',
    cellAt worldStrip 1 = Some srcCell
    ∧ poolOf worldStrip "A" = 10
    ∧ targetsOf strip worldStrip "A" srcCell 1 0 = [(0, 0); (2, 0)]
    ∧ toSendOf 10 (1 / inject_Z 2) = 5
    ∧ debitsEach strip worldStrip "A" 1 0 (1 / inject_Z 2) [(0, 0); (2, 0)]
      = [5; 2]
    ∧ expand strip worldStrip "A" 1 0 1 = (Returned true, g')
    ∧ poolOf g' "A" = 3.
Proof.
  eexists _, _. split; [vm_compute; reflexivity|].
  split; [vm_compute; reflexivity|].
  split; [vm_compute; reflexivity|].
  split; [vm_compute; reflexivity|].
  split; [vm_compute; reflexivity|].
  split; vm_compute; reflexivity.
Qed.

(** ** Coordinates outside the grid *)

(** What the guards of the commands do cover: a source index without
    cell makes [attack], [expand], [buildPort] and [buildCity] return
    [false] and change nothing. *)
Lemma no_cell_rejected mask g id x y :
  cellAt g (y * GRID_W mask + x) = None →
  (∀ dstX dstY percent,
     attack mask g id x y dstX dstY percent = (Returned false, g))
  ∧ (∀ percent, expand mask g id x y percent = (Returned false, g))
  ∧ buildPort mask g id x y = (Returned false, g)
  ∧ buildCity mask g id x y = (Returned false, g).
Proof.
  intros Hc. repeat split.
  - intros dstX dstY percent. unfold attack. rewrite Hc.
    by destruct (players g !! id).
  - intros percent. unfold expand. by rewrite Hc.
  - unfold buildPort. by rewrite Hc.
  - unfold buildCity. by rewrite Hc.
Qed.

(** C6 fails on the code.  On the 2 x 2 grid:
    - [spawn(A, 2, 0)] has x = 2 outside the grid, reads index 2, the
      cell (0,1), and succeeds;
    - [spawn(A, 0, 2)] has y = 2 outside the grid, reads index 4, which
      has no cell, and raises;
    - [attack(A, 0, 0, -1, 0, 1/2)] has its destination outside the grid
      at distance 1, deducts 5 troops and then raises;
    - [buildCity(A, 2, -1)] reads index 0, the cell (0,0) of A, and
      builds a city there. *)
Theorem out_of_grid_commands :
  (∃ g', spawn allLand2 worldJoined2 "A" 2 0 = (Returned true, g')
         ∧ owned g' 2 "A" ∧ poolOf g' "A" = 10)
  ∧ spawn allLand2 worldJoined2 "A" 0 2 = (Thrown, worldJoined2)
  ∧ (∃ g', attack allLand2 worldSpawned2 "A" 0 0 (-1) 0 (1 # 2) = (Thrown, g')
           ∧ poolOf worldSpawned2 "A" = 10 ∧ poolOf g' "A" = 5)
  ∧ (∃ g', buildCity allLand2 worldSpawned2 "A" 2 (-1) = (Returned true, g')
           ∧ hasCity g' 0 = true ∧ poolOf g' "A" = 0).
Proof.
  split.
  { eexists. split; [vm_compute; reflexivity|].
    split; [eexists; split; vm_compute; reflexivity|].
    vm_compute; reflexivity. }
  split; [vm_compute; reflexivity|].
  split.
  { eexists. split; [vm_compute; reflexivity|].
    split; vm_compute; reflexivity. }
  eexists. split; [vm_compute; reflexivity|].
  split; vm_compute; reflexivity.
Qed.

(** ** Territories and owners agree *)

Lemma releaseCells_players idxs :
  ∀ g g1, releaseCells g idxs = Some g1 →
    players g1 = players g ∧ bots g1 = bots g.
Proof.
  induction idxs as [|idx rest IH]; intros g g1; simpl.
  - by intros [= <-].
  - destruct (cellAt g idx) as [cell|]; [|discriminate].
    intros H. by destruct (IH _ _ H) as [-> ->].
Qed.


Lemma owned_setCell g idx c c' i q :
  cellAt g idx = Some c →
  owned (setCell g idx c') i q
  ↔ if decide (i = idx) then Cell.owner c' = Some q else owned g i q.
Proof.
  intros Hc. unfold owned. case_decide as Hi.
  - subst i. rewrite (cellAt_setCell_eq g idx c c' Hc).
    split; [by intros (x & [= <-] & Hx) | intros Ho; by exists c'].
  - rewrite cellAt_setCell_ne; [done | by eapply cellAt_nonneg | congruence].
Qed.

(** Writing fields of a player other than its territory. *)
Lemma worldOk_setPlayer g id p p' :
  worldOk g → players g !! id = Some p →
  Player.cells p' = Player.cells p → Player.id p' = Player.id p →
  worldOk (setPlayer g id p').
Proof.
  intros (HT & HI & HR) Hp Hcells Hid. split; [|split].
  - intros q pq. simpl. rewrite lookup_insert. case_decide as Hq.
    + intros [= <-] i. subst q. rewrite Hcells. apply (HT id p Hp i).
    + intros Hpq i. apply (HT q pq Hpq i).
  - intros q pq. simpl. rewrite lookup_insert. case_decide as Hq.
    + intros [= <-]. subst q. rewrite Hid. apply (HI id p Hp).
    + apply HI.
  - intros b Hb. destruct (HR b Hb) as [Hs Hpre]. split; [|exact Hpre].
    simpl. rewrite lookup_insert. case_decide; eauto.
Qed.

(** Writing fields of a cell; its owner may change between ids that name
    no player. *)
Lemma worldOk_setCell g idx c c' :
  worldOk g → cellAt g idx = Some c →
  (∀ q, is_Some (players g !! q) →
        Cell.owner c' = Some q ↔ Cell.owner c = Some q) →
  worldOk (setCell g idx c').
Proof.
  intros (HT & HI & HR) Hc Hsame. split; [|split]; [|exact HI|exact HR].
  intros q pq Hq i. change (players g !! q = Some pq) in Hq.
  rewrite (owned_setCell g idx c c' i q Hc). case_decide as Hi.
  - subst i. rewrite (HT q pq Hq idx), (Hsame q) by eauto.
    unfold owned. rewrite Hc.
    split; [by intros (x & [= <-] & Hx) | intros Ho; by exists c].
  - apply (HT q pq Hq i).
Qed.

(** A player takes a cell that no player owns. *)
Lemma worldOk_claim g idx c c' id p p' :
  worldOk g → cellAt g idx = Some c → truthy (Cell.owner c) = false →
  players g !! id = Some p →
  Cell.owner c' = Some id →
  Player.cells p' = Set_add (Player.cells p) idx →
  Player.id p' = Player.id p →
  worldOk (setPlayer (setCell g idx c') id p').
Proof.
  intros (HT & HI & HR) Hc Hfree Hp Hown Hcells Hid. split; [|split].
  - intros q pq. simpl. rewrite lookup_insert. case_decide as Hq.
    + intros [= <-] i. subst q. rewrite Hcells, Set_add_elem.
      change (owned (setPlayer ?h ?a ?b) i id) with (owned h i id).
      rewrite (owned_setCell g idx c c' i id Hc). case_decide as Hi.
      * split; [done | by left].
      * rewrite (HT id p Hp i). split; [intros [?|?]; done | by right].
    + intros Hpq i.
      change (owned (setPlayer ?h ?a ?b) i q) with (owned h i q).
      rewrite (owned_setCell g idx c c' i q Hc). case_decide as Hi.
      * subst i. rewrite (HT q pq Hpq idx). unfold owned. rewrite Hc.
        split; [|congruence]. intros (x & [= <-] & Hx).
        rewrite Hx in Hfree. destruct (HI q pq Hpq) as [Hq0 _].
        by rewrite (truthy_Some q Hq0) in Hfree.
      * apply (HT q pq Hpq i).
  - intros q pq. simpl. rewrite lookup_insert. case_decide as Hq.
    + intros [= <-]. subst q. rewrite Hid. apply (HI id p Hp).
    + apply HI.
  - intros b Hb. destruct (HR b Hb) as [Hs Hpre]. split; [|exact Hpre].
    simpl. rewrite lookup_insert. case_decide; eauto.
Qed.

(** A player takes a cell from another player. *)
Lemma worldOk_transfer g idx c c' id p p' d dp dp' :
  worldOk g → cellAt g idx = Some c → Cell.owner c = Some d → d ≠ id →
  players g !! d = Some dp → players g !! id = Some p →
  Player.cells dp' = Set_delete (Player.cells dp) idx →
  Player.id dp' = Player.id dp →
  Cell.owner c' = Some id →
  Player.cells p' = Set_add (Player.cells p) idx →
  Player.id p' = Player.id p →
  worldOk (setPlayer (setCell (setPlayer g d dp') idx c') id p').
Proof.
  intros (HT & HI & HR) Hc Hown Hne Hd Hp Hdcells Hdid Hown' Hcells Hid.
  assert (Hc' : cellAt (setPlayer g d dp') idx = Some c) by exact Hc.
  split; [|split].
  - intros q pq. simpl. rewrite !lookup_insert.
    intros Hq i.
    change (owned (setPlayer ?h ?a ?b) i q) with (owned h i q).
    rewrite (owned_setCell (setPlayer g d dp') idx c c' i q Hc').
    change (owned (setPlayer ?h ?a ?b) i q) with (owned h i q).
    case_decide as Hq1.
    + injection Hq as <-. subst q. rewrite Hcells, Set_add_elem.
      case_decide as Hi; [split; [done | by left]|].
      rewrite (HT id p Hp i). split; [intros [?|?]; done | by right].
    + case_decide as Hq2.
      * injection Hq as <-. subst q. rewrite Hdcells, Set_delete_elem.
        case_decide as Hi; [split; [tauto | congruence]|].
        rewrite (HT d dp Hd i). tauto.
      * case_decide as Hi; [|apply (HT q pq Hq i)].
        subst i. rewrite (HT q pq Hq idx). unfold owned. rewrite Hc.
        split; [|congruence]. intros (x & [= <-] & Hx). congruence.
  - intros q pq. simpl. rewrite !lookup_insert.
    case_decide as Hq1; [|case_decide as Hq2]; [| |apply HI].
    + intros [= <-]. subst q. rewrite Hid. apply (HI id p Hp).
    + intros [= <-]. subst q. rewrite Hdid. apply (HI d dp Hd).
  - intros b Hb. destruct (HR b Hb) as [Hs Hpre]. split; [|exact Hpre].
    simpl. rewrite !lookup_insert. repeat case_decide; eauto.
Qed.

Lemma free_cell_no_player g c q :
  idsOk g → truthy (Cell.owner c) = false → is_Some (players g !! q) →
  Cell.owner c ≠ Some q.
Proof.
  intros HI Hfree [pq Hq] Hown. destruct (HI q pq Hq) as [Hq0 _].
  by rewrite Hown, (truthy_Some q Hq0) in Hfree.
Qed.

Lemma spawn_worldOk mask g id x y :
  worldOk g → worldOk (snd (spawn mask g id x y)).
Proof.
  intros H. unfold spawn.
  destruct (cellAt g _) as [cell|] eqn:Hc; [|exact H].
  destruct (negb (Cell.land cell) || truthy (Cell.owner cell)) eqn:Hcond;
    [exact H|].
  apply orb_false_iff in Hcond as [_ Hfree].
  change (players (setCell g ?i ?c) !! id) with (players g !! id).
  destruct (players g !! id) as [p|] eqn:Hp; simpl.
  - by apply (worldOk_claim g _ cell _ id p).
  - apply (worldOk_setCell g _ cell); [exact H | exact Hc|].
    intros q Hq. simpl. split.
    + intros [= <-]. rewrite Hp in Hq. by destruct Hq.
    + intros Hown. exfalso.
      by apply (free_cell_no_player g cell q (proj1 (proj2 H)) Hfree Hq).
Qed.

Lemma resolve_worldOk g1 id player dstIdx toSend :
  worldOk g1 → players g1 !! id = Some player →
  worldOk (snd (resolve g1 id player dstIdx toSend)).
Proof.
  intros H Hp. unfold resolve.
  destruct (cellAt g1 dstIdx) as [dstCell|] eqn:Hc; [|exact H].
  destruct (negb (truthy (Cell.owner dstCell))) eqn:Hfree.
  { apply negb_true_iff in Hfree. simpl.
    by apply (worldOk_claim g1 dstIdx dstCell _ id player). }
  destruct (ownerIs (Cell.owner dstCell) id) eqn:Hown; [exact H|].
  apply ownerIs_false in Hown.
  destruct (Cell.owner dstCell) as [d|] eqn:Hd; [|exact H].
  destruct (players g1 !! d) as [defender|] eqn:Hdef; [|exact H].
  destruct (toSend >? Player.troops defender); simpl.
  - apply (worldOk_transfer g1 dstIdx dstCell _ id player _ d defender);
      try done. congruence.
  - by apply (worldOk_setPlayer g1 d defender).
Qed.

Lemma attack_worldOk mask g id srcX srcY dstX dstY percent :
  worldOk g → worldOk (snd (attack mask g id srcX srcY dstX dstY percent)).
Proof.
  intros H. unfold attack.
  destruct (players g !! id) as [player|] eqn:Hp; [|exact H].
  destruct (cellAt g _) as [srcCell|]; [|exact H].
  destruct (negb (ownerIs _ _)); [exact H|].
  destruct (negb (moveAllowed _ _ _ _ _ _ _ _)); [exact H|].
  destruct (toSendOf (Player.troops player) percent <? 1); [exact H|].
  apply resolve_worldOk.
  - by apply (worldOk_setPlayer g id player).
  - simpl. apply lookup_insert_eq.
Qed.

Lemma attackEach_worldOk mask id x y per targets :
  ∀ g any, worldOk g →
    worldOk (snd (attackEach mask g id x y per targets any)).
Proof.
  induction targets as [|t rest IH]; intros g any H; [exact H|].
  simpl.
  pose proof (attack_worldOk mask g id x y (fst t) (snd t) per H) as H1.
  destruct (attack mask g id x y (fst t) (snd t) per) as [[ok|] g1];
    [apply IH; exact H1 | exact H1].
Qed.

Lemma expand_worldOk mask g id x y percent :
  worldOk g → worldOk (snd (expand mask g id x y percent)).
Proof.
  intros H. unfold expand.
  destruct (cellAt g _) as [srcCell|]; [|exact H].
  destruct (negb (ownerIs _ _)); [exact H|].
  destruct (players g !! id); [|exact H].
  destruct (Z.of_nat (length (targetsOf mask g id srcCell x y)) =? 0);
    [exact H|].
  by apply attackEach_worldOk.
Qed.

Lemma build_worldOk g id idx p cell n cell' :
  worldOk g → players g !! id = Some p → cellAt g idx = Some cell →
  Cell.owner cell' = Cell.owner cell →
  worldOk (setCell (setPlayer g id (Player.setTroops p n)) idx cell').
Proof.
  intros H Hp Hc Hown.
  apply (worldOk_setCell _ idx cell);
    [by apply (worldOk_setPlayer g id p) | exact Hc|].
  intros q _. by rewrite Hown.
Qed.

Lemma exec_worldOk mask g c : worldOk g → worldOk (snd (exec mask g c)).
Proof.
  intros H. destruct c as [id x y|id sx sy dx dy f|id x y f|id x y|id x y];
    simpl.
  - by apply spawn_worldOk.
  - by apply attack_worldOk.
  - by apply expand_worldOk.
  - unfold buildPort. destruct (cellAt g _) as [cell|] eqn:Hc; [|exact H].
    destruct (_ || _); [exact H|].
    destruct (negb (adjacentWater mask g x y)); [exact H|].
    destruct (players g !! id) as [p|] eqn:Hp; [|exact H].
    destruct (Player.troops p <? 5); [exact H|].
    simpl. by apply (build_worldOk g id _ p cell).
  - unfold buildCity. destruct (cellAt g _) as [cell|] eqn:Hc; [|exact H].
    destruct (_ || _); [exact H|].
    destruct (players g !! id) as [p|] eqn:Hp; [|exact H].
    destruct (Player.troops p <? 10); [exact H|].
    simpl. by apply (build_worldOk g id _ p cell).
Qed.

Lemma tickPlayer_same g p :
  Player.cells (tickPlayer g p) = Player.cells p
  ∧ Player.id (tickPlayer g p) = Player.id p.
Proof.
  unfold tickPlayer, growPlayer.
  by destruct (cityCountOf g (Player.cells p)).
Qed.

Lemma growPlayers_worldOk g g' :
  growPlayers g = Some g' → worldOk g → worldOk g'.
Proof.
  intros Hg (HT & HI & HR).
  assert (Hown : ∀ i q, owned g' i q ↔ owned g i q).
  { intros i q. unfold owned, cellAt.
    by rewrite (growPlayers_cells g g' Hg). }
  split; [|split].
  - intros q pq Hq i. rewrite (growPlayers_lookup g g' q Hg) in Hq.
    destruct (players g !! q) as [p0|] eqn:Hp0; [|discriminate].
    injection Hq as <-. rewrite Hown, (proj1 (tickPlayer_same g p0)).
    apply (HT q p0 Hp0 i).
  - intros q pq Hq. rewrite (growPlayers_lookup g g' q Hg) in Hq.
    destruct (players g !! q) as [p0|] eqn:Hp0; [|discriminate].
    injection Hq as <-. rewrite (proj2 (tickPlayer_same g p0)).
    apply (HI q p0 Hp0).
  - intros b Hb. rewrite (growPlayers_bots g g' Hg) in Hb.
    destruct (HR b Hb) as [[p0 Hp0] Hpre]. split; [|exact Hpre].
    rewrite (growPlayers_lookup g g' b Hg), Hp0. by eexists.
Qed.

Lemma botSpawn_worldOk mask botKey bot rnd tries :
  ∀ g k g' k', worldOk g → players g !! botKey = Some bot →
    botSpawn mask g botKey bot rnd k tries = (Some g', k') → worldOk g'.
Proof.
  induction tries as [|n IH]; intros g k g' k' H Hbot; simpl.
  - by intros [= <- _].
  - destruct (cellAt g _) as [cell|] eqn:Hc; [|discriminate].
    destruct (Cell.land cell && negb (truthy (Cell.owner cell))) eqn:Hcond.
    + intros [= <- _].
      apply andb_true_iff in Hcond as [_ Hfree%negb_true_iff].
      apply (worldOk_claim g _ cell _ botKey bot); try done.
      simpl. f_equal. apply (proj1 (proj2 H) botKey bot Hbot).
    + by apply IH.
Qed.

Lemma botAct_worldOk mask g botKey rnd k g' k' :
  worldOk g → botAct mask g botKey rnd k = (Some g', k') → worldOk g'.
Proof.
  intros H. unfold botAct.
  destruct (players g !! botKey) as [bot|] eqn:Hbot; [|by intros [= <- _]].
  destruct (Z.of_nat (length (Player.cells bot)) =? 0).
  { by apply botSpawn_worldOk. }
  destruct (if randomBelow rnd k _ <? 0 then None else _) as [srcIdx|];
    [|discriminate].
  destruct (cellAt g srcIdx) as [srcCell|]; [|discriminate].
  destruct (Z.of_nat (length (targetsOf mask g _ srcCell _ _)) =? 0);
    [by intros [= <- _]|].
  destruct (Player.troops bot / 2 <? 1); [by intros [= <- _]|].
  destruct (if randomBelow rnd (S k) _ <? 0 then None else _) as [t|];
    [|discriminate].
  pose proof (attack_worldOk mask g (Player.id bot)
                (Z.rem srcIdx (GRID_W mask)) (srcIdx / GRID_W mask)
                (fst t) (snd t)
                (roundDouble
                   (inject_Z (Player.troops bot / 2)
                    / inject_Z (Player.troops bot))%Q) H) as H1.
  destruct (attack mask g _ _ _ _ _ _) as [[ok|] g1]; [|discriminate].
  by intros [= <- _].
Qed.

Lemma botsAct_worldOk mask rnd botKeys :
  ∀ g k g' k', worldOk g →
    botsAct mask g botKeys rnd k = (Some g', k') → worldOk g'.
Proof.
  induction botKeys as [|b rest IH]; intros g k g' k' H; simpl.
  - by intros [= <- _].
  - destruct (botAct mask g b rnd k) as [[g1|] k1] eqn:Hb; [|discriminate].
    apply IH. by apply (botAct_worldOk mask g b rnd k g1 k1).
Qed.

Lemma update_worldOk mask g rnd k g' :
  worldOk g → fst (update mask g rnd k) = Some g' → worldOk g'.
Proof.
  intros H. unfold update.
  destruct (growPlayers g) as [g1|] eqn:Hg; [|discriminate].
  destruct (botsAct mask g1 (bots g1) rnd k) as [o k'] eqn:Hb.
  simpl. intros ->.
  apply (botsAct_worldOk mask rnd (bots g1) g1 k g' k'); [|exact Hb].
  by apply (growPlayers_worldOk g).
Qed.

(** A player object with an empty territory is stored under an id that
    is not in use. *)
Lemma worldOk_newPlayer g id p bs :
  worldOk g → unusedId g id → id ≠ "" →
  Player.id p = id → Player.cells p = [] →
  (∀ b, b ∈ bs → b ∈ bots g ∨ (b = id ∧ String.prefix "bot-" id = true)) →
  worldOk {| cells := cells g; players := <[id := p]> (players g);
             bots := bs |}.
Proof.
  intros (HT & HI & HR) [Hnone Hghost] Hid0 Hid Hcells Hbs. split; [|split].
  - intros q pq. simpl. rewrite lookup_insert. case_decide as Hq.
    + intros [= <-] i. subst q. rewrite Hcells. split.
      * by intros ?%elem_of_nil.
      * intros (c & Hc & Hown). by destruct (Hghost i c Hc).
    + intros Hpq i. apply (HT q pq Hpq i).
  - intros q pq. simpl. rewrite lookup_insert. case_decide as Hq.
    + intros [= <-]. by subst q.
    + apply HI.
  - intros b Hb. simpl. rewrite lookup_insert.
    destruct (Hbs b Hb) as [Hold|[-> Hpre]].
    + destruct (HR b Hold) as [Hs Hpre]. split; [|exact Hpre].
      case_decide; eauto.
    + split; [|exact Hpre]. rewrite decide_True by done. eauto.
Qed.

Lemma bot_id_prefix s : String.prefix "bot-" ("bot-" +:+ s) = true.
Proof. simpl. change ("" +:+ s) with s. by destruct s. Qed.

Lemma bot_id_inj s1 s2 : "bot-" +:+ s1 = "bot-" +:+ s2 → s1 = s2.
Proof. simpl. intros [= H]. exact H. Qed.

(** A pass of the loop of [ensureBots] leaves one bot less to make. *)
Lemma botsNeeded_step g botId bot :
  Z.of_nat (length (bots g)) + Z.of_nat (size (players g))
  < MAX_PLAYERS_PER_GAME →
  players g !! botId = None →
  botsNeeded g
  = S (botsNeeded {| cells := cells g;
                     players := <[botId := bot]> (players g);
                     bots := bots g ++ [botId] |}).
Proof.
  unfold botsNeeded, MAX_PLAYERS_PER_GAME. intros Hcond Hnone. simpl.
  rewrite length_app, map_size_insert_None by exact Hnone. simpl.
  replace (10 - Z.of_nat (length (bots g)) - Z.of_nat (size (players g)) + 1)
    with ((10 - Z.of_nat (length (bots g) + 1)
           - Z.of_nat (S (size (players g))) + 1) + 1 * 2) by lia.
  rewrite Z.div_add by lia.
  assert (0 ≤ (10 - Z.of_nat (length (bots g) + 1)
               - Z.of_nat (S (size (players g))) + 1) / 2)
    by (apply Z.div_pos; lia).
  lia.
Qed.

Lemma ensureBotsLoop_worldOk suffix colors fuel :
  ∀ g k, worldOk g →
    (∀ j, (k ≤ j < k + botsNeeded g)%nat →
          unusedId g ("bot-" +:+ suffix j)
          ∧ ∀ i, (k ≤ i < j)%nat → suffix i ≠ suffix j) →
    worldOk (ensureBotsLoop fuel g suffix colors k).
Proof.
  induction fuel as [|n IH]; intros g k H Hfresh; simpl; [exact H|].
  destruct (Z.of_nat (length (bots g)) + Z.of_nat (size (players g))
            <? MAX_PLAYERS_PER_GAME) eqn:Hcond; [|exact H].
  apply Z.ltb_lt in Hcond.
  assert (Hstep : ∀ botId bot, players g !! botId = None →
            botsNeeded g
            = S (botsNeeded {| cells := cells g;
                               players := <[botId := bot]> (players g);
                               bots := bots g ++ [botId] |}))
    by (intros; by apply botsNeeded_step).
  assert (Hone : (1 ≤ botsNeeded g)%nat).
  { unfold botsNeeded, MAX_PLAYERS_PER_GAME in *.
    assert (1 ≤ (10 - Z.of_nat (length (bots g))
                 - Z.of_nat (size (players g)) + 1) / 2)
      by (apply Z.div_le_lower_bound; lia).
    lia. }
  destruct (Hfresh k ltac:(lia)) as [[Hnone Hghost] _].
  apply IH.
  - apply worldOk_newPlayer; try done.
    intros b [Hb| ->%list_elem_of_singleton]%elem_of_app; [by left|].
    right. split; [reflexivity | apply bot_id_prefix].
  - intros j Hj.
    rewrite (Hstep ("bot-" +:+ suffix k)%string
               {| Player.id := "bot-" +:+ suffix k; Player.name := "Bot";
                  Player.color := colors k; Player.cells := [];
                  Player.troops := 0 |} Hnone) in Hfresh.
    destruct (Hfresh j ltac:(lia)) as [[Hnj Hgj] Hdiff].
    split; [split|].
    + simpl. rewrite lookup_insert_ne; [exact Hnj|].
      intros Heq%bot_id_inj. apply (Hdiff k); [lia | exact Heq].
    + exact Hgj.
    + intros i Hi. apply Hdiff. lia.
Qed.

Lemma join_worldOk g id name color suffix colors :
  worldOk g → joinFresh g id suffix →
  worldOk (snd (join g id name color suffix colors)).
Proof.
  intros H (Hid0 & Hunused & Hbots). unfold join, addPlayer.
  destruct (Z.of_nat (size (players g)) >=? MAX_PLAYERS_PER_GAME); [exact H|].
  simpl. apply ensureBotsLoop_worldOk.
  - apply (worldOk_newPlayer g id _ (bots g)); try done. by left.
  - intros j Hj.
    assert (Hsame : botsNeeded (setPlayer g id
                      {| Player.id := id; Player.name := name;
                         Player.color := color; Player.cells := [];
                         Player.troops := 0 |}) = botsJoining g).
    { unfold botsNeeded, botsJoining. simpl.
      rewrite map_size_insert_None by apply Hunused.
      do 2 f_equal. lia. }
    rewrite Hsame in Hj.
    destruct (Hbots j ltac:(lia)) as ([Hnone Hghost] & Hne & Hdiff).
    split; [split|].
    + simpl. rewrite lookup_insert_ne; [exact Hnone | congruence].
    + exact Hghost.
    + intros i Hi. apply Hdiff. lia.
Qed.

Lemma releaseCells_cellAt idxs :
  ∀ g g1, releaseCells g idxs = Some g1 →
    ∀ i, cellAt g1 i
         = if decide (i ∈ idxs) then Cell.release <$> cellAt g i
           else cellAt g i.
Proof.
  induction idxs as [|idx rest IH]; intros g g1; cbn [releaseCells].
  - intros [= <-] i. rewrite decide_False; [done | apply not_elem_of_nil].
  - destruct (cellAt g idx) as [cell|] eqn:Hc; [|discriminate].
    intros Hr i. rewrite (IH _ _ Hr i).
    destruct (decide (i = idx)) as [->|Hne].
    + rewrite (cellAt_setCell_eq g idx cell _ Hc), Hc.
      rewrite (decide_True (P := idx ∈ idx :: rest)) by left.
      by case_decide.
    + rewrite cellAt_setCell_ne;
        [|by eapply cellAt_nonneg | congruence].
      destruct (decide (i ∈ rest)) as [Hin|Hout].
      * rewrite decide_True; [done | by right].
      * rewrite decide_False; [done|].
        intros [?|?]%elem_of_cons; done.
Qed.

Lemma removePlayer_worldOk g id g' :
  worldOk g → id ∉ bots g → removePlayer g id = Some g' → worldOk g'.
Proof.
  intros (HT & HI & HR) Hnobot. unfold removePlayer.
  destruct (players g !! id) as [player|] eqn:Hp; [|by intros [= <-]].
  destruct (releaseCells g (Player.cells player)) as [g1|] eqn:Hr;
    [|discriminate].
  intros [= <-].
  destruct (releaseCells_players _ _ _ Hr) as [Hpl Hbots].
  split; [|split].
  - intros q pq. simpl. rewrite Hpl.
    intros [Hq Hpq]%lookup_delete_Some i.
    rewrite (HT q pq Hpq i). unfold owned.
    change (cellAt {| cells := cells g1; players := ?m; bots := ?b |} i)
      with (cellAt g1 i).
    rewrite (releaseCells_cellAt _ _ _ Hr i).
    case_decide as Hin; [|done].
    apply (HT id player Hp i) in Hin as (c & Hc & Hown). rewrite Hc. simpl.
    split; intros (x & [= <-] & Hx); [congruence | discriminate].
  - intros q pq. simpl. rewrite Hpl.
    intros [Hq Hpq]%lookup_delete_Some. by apply HI.
  - intros b. simpl. rewrite Hbots, Hpl. intros Hb.
    destruct (HR b Hb) as [Hs Hpre]. split; [|exact Hpre].
    rewrite lookup_delete_ne; [exact Hs|]. by intros ->.
Qed.

Lemma leave_worldOk g id g' : worldOk g → leave g id = Some g' → worldOk g'.
Proof.
  intros H. unfold leave.
  destruct (negb (String.eqb id "") && negb (String.prefix "bot-" id))
    eqn:Hcond; [|by intros [= <-]].
  apply andb_true_iff in Hcond as [_ Hpre%negb_true_iff].
  apply removePlayer_worldOk; [exact H|].
  intros Hb. destruct (proj2 (proj2 H) id Hb) as [_ Hpre']. congruence.
Qed.

Lemma newGame_unowned mask idx c :
  cellAt (newGame mask) idx = Some c → Cell.owner c = None.
Proof.
  unfold cellAt. destruct (idx <? 0); [discriminate|]. simpl.
  intros Hc%list_elem_of_lookup_2%list_elem_of_In.
  apply in_concat in Hc as (row & Hrow%in_map_iff & Hc).
  destruct Hrow as (r & <- & _).
  by apply in_map_iff in Hc as (x & <- & _).
Qed.

Lemma newGame_unused mask id : unusedId (newGame mask) id.
Proof.
  split; [apply lookup_empty|].
  intros idx c Hc. by rewrite (newGame_unowned mask idx c Hc).
Qed.

Lemma newGame_worldOk mask : worldOk (newGame mask).
Proof.
  split; [|split].
  - intros id p Hp. simpl in Hp. by rewrite lookup_empty in Hp.
  - intros id p Hp. simpl in Hp. by rewrite lookup_empty in Hp.
  - intros b Hb. simpl in Hb. by apply elem_of_nil in Hb.
Qed.

Lemma event_worldOk mask g e g' :
  eventFresh g e → worldOk g → apply mask g e = Some g' → worldOk g'.
Proof.
  intros Hok H. destruct e as [c|id name color suffix colors|id|rnd k]; simpl.
  - intros [= <-]. by apply exec_worldOk.
  - intros [= <-]. by apply join_worldOk.
  - by apply leave_worldOk.
  - by apply update_worldOk.
Qed.

(** Every reached world is well formed; in particular every bot of
    [bots] has its object in [players], which is what [botAct] relies
    on. *)
Lemma reachable_worldOk mask g : reachable mask eventFresh g → worldOk g.
Proof.
  induction 1 as [|g e g' _ IH Hok Happ].
  - apply newGame_worldOk.
  - by apply (event_worldOk mask g e g').
Qed.

(** The loop of [ensureBots] ends because its condition fails, not
    because the embedding's iteration bound is used up. *)
Lemma ensureBots_full suffix colors fuel :
  ∀ g k, MAX_PLAYERS_PER_GAME - Z.of_nat (length (bots g)) ≤ Z.of_nat fuel →
    let g' := ensureBotsLoop fuel g suffix colors k in
    (Z.of_nat (length (bots g')) + Z.of_nat (size (players g'))
     <? MAX_PLAYERS_PER_GAME) = false.
Proof.
  induction fuel as [|n IH]; intros g k Hfuel; simpl.
  - apply Z.ltb_ge. lia.
  - destruct (Z.of_nat (length (bots g)) + Z.of_nat (size (players g))
              <? MAX_PLAYERS_PER_GAME) eqn:Hcond; [|exact Hcond].
    apply IH. simpl. rewrite length_app. simpl. lia.
Qed.

Lemma ensureBots_done g suffix colors :
  let g' := ensureBots g suffix colors in
  (Z.of_nat (length (bots g')) + Z.of_nat (size (players g'))
   <? MAX_PLAYERS_PER_GAME) = false.
Proof.
  apply ensureBots_full. unfold MAX_PLAYERS_PER_GAME. lia.
Qed.

(** C7, amended: in every world that the server reaches from a fresh one
    by joins that draw new ids (the id of the player is a non-empty
    string that no player and no cell owner has, and so are the ids of
    the bots made with it, which differ from it and from each other),
    leaves, commands with any coordinates and fractions, and ticks, the
    territory of each player is exactly the set of indices of the cells
    whose owner is the id of that player. *)
Theorem territory_matches_owners (mask : list (list Z)) (g : Game) :
  reachable mask eventFresh g →
  ∀ id p, players g !! id = Some p →
    ∀ idx, idx ∈ Player.cells p
           ↔ ∃ c, cellAt g idx = Some c ∧ Cell.owner c = Some id.
Proof.
  intros Hreach. exact (proj1 (reachable_worldOk mask g Hreach)).
Qed.

Lemma letterSuffix_distinct (j k : nat) :
  (k < 5)%nat → (j < k)%nat → letterSuffix j ≠ letterSuffix k.
Proof.
  intros Hk Hj [= Heq].
  apply (f_equal Ascii.nat_of_ascii) in Heq.
  rewrite !Ascii.nat_ascii_embedding in Heq by lia. lia.
Defined.

Lemma letterSuffix_fresh :
  joinFresh (newGame allLand3) "A" letterSuffix.
Proof.
  split; [discriminate|].
  split; [apply newGame_unused|].
  intros k Hk. change (botsJoining (newGame allLand3)) with 5%nat in Hk.
  split; [apply newGame_unused|].
  split; [discriminate|].
  intros j Hj. by apply letterSuffix_distinct.
Defined.

(** [worldCrowdSpawned] is reached by a join and a spawn; the territory
    of A there is the one cell that A owns. *)
Lemma territory_matches_owners_witness :
  reachable allLand3 eventFresh worldCrowdSpawned
  ∧ ∃ p, players worldCrowdSpawned !! "A" = Some p
      ∧ Player.cells p = [4]
      ∧ ∀ idx, idx ∈ Player.cells p
               ↔ ∃ c, cellAt worldCrowdSpawned idx = Some c
                      ∧ Cell.owner c = Some "A".
Proof.
  assert (Hreach : reachable allLand3 eventFresh worldCrowdSpawned).
  { apply (reach_step allLand3 eventFresh worldCrowd
             (Cmd (Spawn "A" 1 1))); [|exact I|reflexivity].
    apply (reach_step allLand3 eventFresh (newGame allLand3) joinCrowd);
      [apply reach_new | exact letterSuffix_fresh | reflexivity]. }
  split; [exact Hreach|].
  eexists. split; [vm_compute; reflexivity|].
  split; [reflexivity|].
  exact (territory_matches_owners allLand3 worldCrowdSpawned Hreach "A" _
           ltac:(vm_compute; reflexivity)).
Defined.

(** C7 as stated fails when a join draws an id that is in use.  A joins
    a fresh 3 x 3 world and spawns on (1,1); a second join then draws the
    id of A again, and [addPlayer] stores a new player object with an
    empty territory under it.  The cell (1,1) still has A as its owner
    and is not in the territory of A.  All coordinates are on the
    grid. *)
Lemma territory_reused_id_counterexample :
  reachable allLand3 anyEvent worldRejoined
  ∧ ∃ p, players worldRejoined !! "A" = Some p
      ∧ Player.cells p = []
      ∧ owned worldRejoined 4 "A"
      ∧ ¬ (∀ idx, idx ∈ Player.cells p ↔ owned worldRejoined idx "A").
Proof.
  split.
  { apply (reach_step allLand3 anyEvent worldCrowdSpawned
             (Join "A" "Ann" "hsl(0, 60%, 50%)" letterSuffix
                (λ _, "hsl(200, 60%, 50%)"))); [|exact I|reflexivity].
    apply (reach_step allLand3 anyEvent worldCrowd
             (Cmd (Spawn "A" 1 1))); [|exact I|reflexivity].
    apply (reach_step allLand3 anyEvent (newGame allLand3) joinCrowd);
      [apply reach_new | exact I | reflexivity]. }
  assert (Hown : owned worldRejoined 4 "A")
    by (eexists; split; vm_compute; reflexivity).
  eexists. split; [vm_compute; reflexivity|].
  split; [reflexivity|]. split; [exact Hown|].
  intros H. apply H in Hown. simpl in Hown. by apply elem_of_nil in Hown.
Qed.

(** ** The grid built by the constructor *)

Lemma map_lookup {A B} (f : A → B) (l : list A) (i : nat) :
  map f l !! i = f <$> l !! i.
Proof.
  revert i. induction l as [|a l IH]; intros [|i]; simpl; done.
Qed.

Lemma rows_length {A B} (f : A → nat → B) (w : nat) (ls : list A) :
  length (concat (map (λ row, map (f row) (seq 0 w)) ls))
  = (length ls * w)%nat.
Proof.
  induction ls as [|l ls IH]; [reflexivity|].
  simpl. rewrite length_app, IH, length_map, length_seq. reflexivity.
Qed.

Lemma rows_lookup {A B} (f : A → nat → B) (w : nat) (ls : list A) :
  ∀ (y x : nat) row, ls !! y = Some row → (x < w)%nat →
    concat (map (λ row, map (f row) (seq 0 w)) ls) !! (y * w + x)%nat
    = Some (f row x).
Proof.
  induction ls as [|l ls IH]; intros y x row Hy Hx; [done|].
  simpl.
  destruct y as [|y].
  - injection Hy as <-. simpl.
    rewrite lookup_app_l by (rewrite length_map, length_seq; lia).
    rewrite map_lookup, lookup_seq_lt by lia. reflexivity.
  - rewrite lookup_app_r by (rewrite length_map, length_seq; lia).
    rewrite length_map, length_seq.
    replace (S y * w + x - w)%nat with (y * w + x)%nat by lia.
    by apply IH.
Qed.

Lemma newGame_length mask :
  length (cells (newGame mask)) = Z.to_nat (GRID_W mask * GRID_H mask).
Proof.
  unfold newGame. simpl. rewrite rows_length. unfold GRID_W, GRID_H. lia.
Qed.

Lemma newGame_at mask x y :
  inGrid mask x y →
  ∃ row, mask !! Z.to_nat y = Some row
    ∧ cellAt (newGame mask) (y * GRID_W mask + x)
      = Some (newCell (row !! Z.to_nat x)).
Proof.
  intros [Hx Hy].
  destruct (mask !! Z.to_nat y) as [row|] eqn:Hrow.
  2:{ apply lookup_ge_None in Hrow. unfold GRID_H in Hy. lia. }
  exists row. split; [reflexivity|].
  unfold cellAt.
  destruct (y * GRID_W mask + x <? 0) eqn:Hneg; [nia|].
  unfold newGame. simpl.
  replace (Z.to_nat (y * GRID_W mask + x))
    with (Z.to_nat y * Z.to_nat (GRID_W mask) + Z.to_nat x)%nat by nia.
  apply (rows_lookup (λ (r : list Z) (i : nat), newCell (r !! i)));
    [exact Hrow | lia].
Qed.

(** X1: the constructor lays the grid out row by row.  The fresh world
    has exactly [GRID_W * GRID_H] cells; the cell of the coordinates
    (x, y) of the grid is at index [y * GRID_W + x], it is unowned, has
    no port and no city, and is land exactly when the mask holds 1 at
    row y, column x; an index below 0 or from [GRID_W * GRID_H] on has no
    cell. *)
Theorem newGame_layout (mask : list (list Z)) :
  length (cells (newGame mask)) = Z.to_nat (GRID_W mask * GRID_H mask)
  ∧ (∀ x y, inGrid mask x y →
       ∃ row c,
         mask !! Z.to_nat y = Some row
         ∧ cellAt (newGame mask) (y * GRID_W mask + x) = Some c
         ∧ Cell.owner c = None ∧ Cell.port c = false ∧ Cell.city c = false
         ∧ (Cell.land c = true ↔ row !! Z.to_nat x = Some 1))
  ∧ (∀ idx, idx < 0 ∨ GRID_W mask * GRID_H mask ≤ idx →
       cellAt (newGame mask) idx = None).
Proof.
  split; [apply newGame_length|]. split.
  - intros x y Hxy. destruct (newGame_at mask x y Hxy) as (row & Hrow & Hc).
    exists row, (newCell (row !! Z.to_nat x)).
    split; [exact Hrow|]. split; [exact Hc|].
    simpl. split; [done|]. split; [done|]. split; [done|].
    apply bool_decide_eq_true.
  - intros idx Hidx. unfold cellAt.
    destruct (idx <? 0) eqn:Hneg; [reflexivity|].
    apply lookup_ge_None. rewrite newGame_length. lia.
Qed.

(** On the bay mask, the cell of (1, 1) is at index 4 and is water. *)
Lemma newGame_layout_witness :
  inGrid bay 1 1
  ∧ ∃ row c,
      bay !! Z.to_nat 1 = Some row
      ∧ cellAt (newGame bay) (1 * GRID_W bay + 1) = Some c
      ∧ Cell.owner c = None ∧ Cell.port c = false ∧ Cell.city c = false
      ∧ (Cell.land c = true ↔ row !! Z.to_nat 1 = Some 1).
Proof.
  assert (H : inGrid bay 1 1) by (vm_compute; repeat split; discriminate).
  split; [exact H|].
  exact (proj1 (proj2 (newGame_layout bay)) 1 1 H).
Defined.

(** ** Land, fortifications and the roster bound *)

Lemma lands_setCell g idx c c' :
  cellAt g idx = Some c → Cell.land c' = Cell.land c →
  lands (setCell g idx c') = lands g.
Proof.
  intros Hc Hland. unfold lands, setCell. simpl.
  rewrite list_fmap_insert. apply list_insert_id.
  rewrite list_lookup_fmap, Hland. unfold cellAt in Hc.
  destruct (idx <? 0); [discriminate|]. by rewrite Hc.
Qed.

Lemma fortifiedOk_setCell g idx c c' :
  fortifiedOk g → cellAt g idx = Some c →
  (Cell.port c' = true ∨ Cell.city c' = true →
   Cell.land c' = true ∧ is_Some (Cell.owner c')) →
  fortifiedOk (setCell g idx c').
Proof.
  intros HF Hc Hnew i x Hx.
  destruct (decide (i = idx)) as [->|Hne].
  - rewrite (cellAt_setCell_eq g idx c c' Hc) in Hx. by injection Hx as <-.
  - rewrite cellAt_setCell_ne in Hx;
      [by apply (HF i) | by eapply cellAt_nonneg | congruence].
Qed.

Lemma shapeOk_setCell mask g idx c c' :
  shapeOk mask g → cellAt g idx = Some c → Cell.land c' = Cell.land c →
  (Cell.port c' = true ∨ Cell.city c' = true →
   Cell.land c' = true ∧ is_Some (Cell.owner c')) →
  shapeOk mask (setCell g idx c').
Proof.
  intros (HL & HF & HS) Hc Hland Hnew. split; [|split]; [| |exact HS].
  - by rewrite (lands_setCell g idx c c' Hc Hland).
  - by apply (fortifiedOk_setCell g idx c c').
Qed.

Lemma shapeOk_setPlayer mask g id p' :
  shapeOk mask g → is_Some (players g !! id) →
  shapeOk mask (setPlayer g id p').
Proof.
  intros (HL & HF & HS) Hp. split; [|split]; [exact HL|exact HF|].
  simpl. by rewrite map_size_insert_Some.
Qed.

Lemma shapeOk_take mask g idx c id :
  shapeOk mask g → cellAt g idx = Some c →
  shapeOk mask (setCell g idx (Cell.capture c id))
  ∧ shapeOk mask (setCell g idx (Cell.claim c id))
  ∧ shapeOk mask (setCell g idx (Cell.release c)).
Proof.
  intros H Hc.
  split; [|split]; (apply (shapeOk_setCell mask g idx c); try done);
    simpl; by intros [?|?].
Qed.

Lemma spawn_shapeOk mask g id x y :
  shapeOk mask g → shapeOk mask (snd (spawn mask g id x y)).
Proof.
  intros H. unfold spawn.
  destruct (cellAt g _) as [cell|] eqn:Hc; [|exact H].
  destruct (negb (Cell.land cell) || truthy (Cell.owner cell)); [exact H|].
  pose proof (proj1 (proj2 (shapeOk_take mask g _ cell id H Hc))) as H1.
  change (players (setCell g ?i ?c) !! id) with (players g !! id).
  destruct (players g !! id) as [p|] eqn:Hp; simpl; [|exact H1].
  apply shapeOk_setPlayer; [exact H1 | simpl; eauto].
Qed.

Lemma resolve_shapeOk mask g1 id player dstIdx toSend :
  shapeOk mask g1 → is_Some (players g1 !! id) →
  shapeOk mask (snd (resolve g1 id player dstIdx toSend)).
Proof.
  intros H Hp. unfold resolve.
  destruct (cellAt g1 dstIdx) as [dstCell|] eqn:Hc; [|exact H].
  destruct (negb (truthy (Cell.owner dstCell))).
  { simpl. apply shapeOk_setPlayer; [|exact Hp].
    apply (shapeOk_take mask g1 dstIdx dstCell id H Hc). }
  destruct (ownerIs (Cell.owner dstCell) id); [exact H|].
  destruct (Cell.owner dstCell) as [d|]; [|exact H].
  destruct (players g1 !! d) as [defender|] eqn:Hd; [|exact H].
  destruct (toSend >? Player.troops defender); simpl.
  - apply shapeOk_setPlayer.
    + apply (shapeOk_take mask (setPlayer g1 d _) dstIdx dstCell id);
        [|exact Hc].
      apply shapeOk_setPlayer; [exact H | eauto].
    + simpl. rewrite lookup_insert. case_decide; eauto.
  - apply shapeOk_setPlayer; [exact H | eauto].
Qed.

Lemma attack_shapeOk mask g id srcX srcY dstX dstY percent :
  shapeOk mask g →
  shapeOk mask (snd (attack mask g id srcX srcY dstX dstY percent)).
Proof.
  intros H. unfold attack.
  destruct (players g !! id) as [player|] eqn:Hp; [|exact H].
  destruct (cellAt g _) as [srcCell|]; [|exact H].
  destruct (negb (ownerIs _ _)); [exact H|].
  destruct (negb (moveAllowed _ _ _ _ _ _ _ _)); [exact H|].
  destruct (toSendOf (Player.troops player) percent <? 1); [exact H|].
  apply resolve_shapeOk.
  - apply shapeOk_setPlayer; [exact H | eauto].
  - simpl. rewrite lookup_insert_eq. eauto.
Qed.

Lemma attackEach_shapeOk mask id x y per targets :
  ∀ g any, shapeOk mask g →
    shapeOk mask (snd (attackEach mask g id x y per targets any)).
Proof.
  induction targets as [|t rest IH]; intros g any H; [exact H|].
  simpl.
  pose proof (attack_shapeOk mask g id x y (fst t) (snd t) per H) as H1.
  destruct (attack mask g id x y (fst t) (snd t) per) as [[ok|] g1];
    [apply IH; exact H1 | exact H1].
Qed.

Lemma exec_shapeOk mask g c :
  shapeOk mask g → shapeOk mask (snd (exec mask g c)).
Proof.
  intros H. destruct c as [id x y|id sx sy dx dy f|id x y f|id x y|id x y];
    simpl.
  - by apply spawn_shapeOk.
  - by apply attack_shapeOk.
  - unfold expand.
    destruct (cellAt g _) as [srcCell|]; [|exact H].
    destruct (negb (ownerIs _ _)); [exact H|].
    destruct (players g !! id); [|exact H].
    destruct (Z.of_nat (length (targetsOf mask g id srcCell x y)) =? 0);
      [exact H|].
    by apply attackEach_shapeOk.
  - unfold buildPort. destruct (cellAt g _) as [cell|] eqn:Hc; [|exact H].
    destruct (_ || _) eqn:Hguard; [exact H|].
    apply orb_false_iff in Hguard as [Hguard _].
    apply orb_false_iff in Hguard as [Hown%negb_false_iff Hland%negb_false_iff].
    apply ownerIs_true in Hown.
    destruct (negb (adjacentWater mask g x y)); [exact H|].
    destruct (players g !! id) as [p|] eqn:Hp; [|exact H].
    destruct (Player.troops p <? 5); [exact H|].
    simpl. apply (shapeOk_setCell mask _ _ cell); [|exact Hc|done|].
    + apply shapeOk_setPlayer; [exact H | eauto].
    + intros _. simpl. rewrite Hown. eauto.
  - unfold buildCity. destruct (cellAt g _) as [cell|] eqn:Hc; [|exact H].
    destruct (_ || _) eqn:Hguard; [exact H|].
    apply orb_false_iff in Hguard as [Hguard _].
    apply orb_false_iff in Hguard as [Hown%negb_false_iff Hland%negb_false_iff].
    apply ownerIs_true in Hown.
    destruct (players g !! id) as [p|] eqn:Hp; [|exact H].
    destruct (Player.troops p <? 10); [exact H|].
    simpl. apply (shapeOk_setCell mask _ _ cell); [|exact Hc|done|].
    + apply shapeOk_setPlayer; [exact H | eauto].
    + intros _. simpl. rewrite Hown. eauto.
Qed.

Lemma growPlayers_shapeOk mask g g' :
  growPlayers g = Some g' → shapeOk mask g → shapeOk mask g'.
Proof.
  unfold growPlayers. destruct (decide _); [|discriminate].
  intros [= <-] (HL & HF & HS). split; [|split]; [exact HL|exact HF|].
  simpl. by rewrite map_size_fmap.
Qed.

Lemma botSpawn_shapeOk mask botKey bot rnd tries :
  ∀ g k g' k', shapeOk mask g → is_Some (players g !! botKey) →
    botSpawn mask g botKey bot rnd k tries = (Some g', k') → shapeOk mask g'.
Proof.
  induction tries as [|n IH]; intros g k g' k' H Hbot; simpl.
  - by intros [= <- _].
  - destruct (cellAt g _) as [cell|] eqn:Hc; [|discriminate].
    destruct (Cell.land cell && negb (truthy (Cell.owner cell))).
    + intros [= <- _]. apply shapeOk_setPlayer; [|exact Hbot].
      apply (shapeOk_take mask g _ cell (Player.id bot) H Hc).
    + by apply IH.
Qed.

Lemma botAct_shapeOk mask g botKey rnd k g' k' :
  shapeOk mask g → botAct mask g botKey rnd k = (Some g', k') →
  shapeOk mask g'.
Proof.
  intros H. unfold botAct.
  destruct (players g !! botKey) as [bot|] eqn:Hbot; [|by intros [= <- _]].
  destruct (Z.of_nat (length (Player.cells bot)) =? 0).
  { apply botSpawn_shapeOk; [exact H | eauto]. }
  destruct (if randomBelow rnd k _ <? 0 then None else _) as [srcIdx|];
    [|discriminate].
  destruct (cellAt g srcIdx) as [srcCell|]; [|discriminate].
  destruct (Z.of_nat (length (targetsOf mask g _ srcCell _ _)) =? 0);
    [by intros [= <- _]|].
  destruct (Player.troops bot / 2 <? 1); [by intros [= <- _]|].
  destruct (if randomBelow rnd (S k) _ <? 0 then None else _) as [t|];
    [|discriminate].
  pose proof (attack_shapeOk mask g (Player.id bot)
                (Z.rem srcIdx (GRID_W mask)) (srcIdx / GRID_W mask)
                (fst t) (snd t)
                (roundDouble
                   (inject_Z (Player.troops bot / 2)
                    / inject_Z (Player.troops bot))%Q) H) as H1.
  destruct (attack mask g _ _ _ _ _ _) as [[ok|] g1]; [|discriminate].
  by intros [= <- _].
Qed.

Lemma botsAct_shapeOk mask rnd botKeys :
  ∀ g k g' k', shapeOk mask g →
    botsAct mask g botKeys rnd k = (Some g', k') → shapeOk mask g'.
Proof.
  induction botKeys as [|b rest IH]; intros g k g' k' H; simpl.
  - by intros [= <- _].
  - destruct (botAct mask g b rnd k) as [[g1|] k1] eqn:Hb; [|discriminate].
    apply IH. by apply (botAct_shapeOk mask g b rnd k g1 k1).
Qed.

Lemma update_shapeOk mask g rnd k g' :
  shapeOk mask g → fst (update mask g rnd k) = Some g' → shapeOk mask g'.
Proof.
  intros H. unfold update.
  destruct (growPlayers g) as [g1|] eqn:Hg; [|discriminate].
  destruct (botsAct mask g1 (bots g1) rnd k) as [o k'] eqn:Hb.
  simpl. intros ->.
  apply (botsAct_shapeOk mask rnd (bots g1) g1 k g' k'); [|exact Hb].
  by apply (growPlayers_shapeOk mask g).
Qed.

Lemma size_insert_le {A} (m : gmap string A) i x :
  (size (<[i := x]> m) ≤ S (size m))%nat.
Proof.
  destruct (m !! i) eqn:Hi.
  - rewrite map_size_insert_Some by eauto. lia.
  - rewrite map_size_insert_None by done. lia.
Qed.

Lemma ensureBotsLoop_shapeOk mask suffix colors fuel :
  ∀ g k, shapeOk mask g →
    shapeOk mask (ensureBotsLoop fuel g suffix colors k).
Proof.
  induction fuel as [|n IH]; intros g k H; simpl; [exact H|].
  destruct (Z.of_nat (length (bots g)) + Z.of_nat (size (players g))
            <? MAX_PLAYERS_PER_GAME) eqn:Hcond; [|exact H].
  apply Z.ltb_lt in Hcond. apply IH.
  destruct H as (HL & HF & HS). split; [|split]; [exact HL|exact HF|].
  simpl.
  pose proof (size_insert_le (players g) ("bot-" +:+ suffix k)
                {| Player.id := "bot-" +:+ suffix k; Player.name := "Bot";
                   Player.color := colors k; Player.cells := [];
                   Player.troops := 0 |}).
  lia.
Qed.

Lemma join_shapeOk mask g id name color suffix colors :
  shapeOk mask g →
  shapeOk mask (snd (join g id name color suffix colors)).
Proof.
  intros H. unfold join, addPlayer.
  destruct (Z.of_nat (size (players g)) >=? MAX_PLAYERS_PER_GAME) eqn:Hfull;
    [exact H|].
  simpl. apply ensureBotsLoop_shapeOk.
  destruct H as (HL & HF & HS). split; [|split]; [exact HL|exact HF|].
  simpl.
  pose proof (size_insert_le (players g) id
                {| Player.id := id; Player.name := name;
                   Player.color := color; Player.cells := [];
                   Player.troops := 0 |}).
  rewrite Z.geb_leb in Hfull. apply Z.leb_gt in Hfull. lia.
Qed.

Lemma releaseCells_shapeOk mask idxs :
  ∀ g g1, shapeOk mask g → releaseCells g idxs = Some g1 → shapeOk mask g1.
Proof.
  induction idxs as [|idx rest IH]; intros g g1 H; cbn [releaseCells].
  - by intros [= <-].
  - destruct (cellAt g idx) as [cell|] eqn:Hc; [|discriminate].
    apply IH. apply (shapeOk_take mask g idx cell "" H Hc).
Qed.

Lemma removePlayer_shapeOk mask g id g' :
  shapeOk mask g → removePlayer g id = Some g' → shapeOk mask g'.
Proof.
  intros H. unfold removePlayer.
  destruct (players g !! id) as [player|] eqn:Hp; [|by intros [= <-]].
  destruct (releaseCells g (Player.cells player)) as [g1|] eqn:Hr;
    [|discriminate].
  intros [= <-].
  destruct (releaseCells_shapeOk mask _ _ _ H Hr) as (HL & HF & HS).
  split; [|split]; [exact HL|exact HF|].
  simpl. pose proof (map_size_delete id (players g1)) as Hsz.
  destruct (players g1 !! id); simpl in Hsz; lia.
Qed.

Lemma newGame_cell mask idx c :
  cellAt (newGame mask) idx = Some c → ∃ v, c = newCell v.
Proof.
  unfold cellAt. destruct (idx <? 0); [discriminate|]. simpl.
  intros Hc%list_elem_of_lookup_2%list_elem_of_In.
  apply in_concat in Hc as (row & Hrow%in_map_iff & Hc).
  destruct Hrow as (r & <- & _).
  apply in_map_iff in Hc as (x & <- & _). eauto.
Qed.

Lemma newGame_shapeOk mask : shapeOk mask (newGame mask).
Proof.
  split; [reflexivity|]. split.
  - intros idx c Hc. destruct (newGame_cell mask idx c Hc) as [v ->].
    simpl. by intros [?|?].
  - simpl. rewrite map_size_empty. unfold MAX_PLAYERS_PER_GAME. lia.
Qed.

Lemma event_shapeOk mask g e g' :
  shapeOk mask g → apply mask g e = Some g' → shapeOk mask g'.
Proof.
  intros H. destruct e as [c|id name color suffix colors|id|rnd k]; simpl.
  - intros [= <-]. by apply exec_shapeOk.
  - intros [= <-]. by apply join_shapeOk.
  - unfold leave. destruct (_ && _); [|by intros [= <-]].
    by apply removePlayer_shapeOk.
  - by apply update_shapeOk.
Qed.

Lemma reachable_shapeOk mask ok g : reachable mask ok g → shapeOk mask g.
Proof.
  induction 1 as [|g e g' _ IH Hok Happ].
  - apply newGame_shapeOk.
  - by apply (event_shapeOk mask g e g').
Qed.

Lemma lands_cellAt g h idx c :
  lands g = lands h → cellAt g idx = Some c →
  ∃ c', cellAt h idx = Some c' ∧ Cell.land c' = Cell.land c.
Proof.
  unfold lands, cellAt. intros HL. destruct (idx <? 0); [discriminate|].
  intros Hc.
  assert (Hl : (Cell.land <$> cells h) !! Z.to_nat idx = Some (Cell.land c))
    by (by rewrite <- HL, list_lookup_fmap, Hc).
  rewrite list_lookup_fmap in Hl.
  destruct (cells h !! Z.to_nat idx) as [c'|]; [|discriminate].
  injection Hl as Hl. eauto.
Qed.

(** [worldCrowdSpawned] is reached by a join and a spawn. *)
Lemma worldCrowdSpawned_reachable :
  reachable allLand3 eventFresh worldCrowdSpawned.
Proof.
  apply (reach_step allLand3 eventFresh worldCrowd
           (Cmd (Spawn "A" 1 1))); [|exact I|reflexivity].
  apply (reach_step allLand3 eventFresh (newGame allLand3) joinCrowd);
    [apply reach_new | exact letterSuffix_fresh | reflexivity].
Qed.

Lemma plainId_A : plainId "A".
Proof. apply (bool_decide_unpack ("A" ∉ inheritedKeys)). vm_compute. exact I. Qed.

(** The same run, as one of a server whose requests carry plain ids. *)
Lemma worldCrowdSpawned_served :
  reachable allLand3 eventServed worldCrowdSpawned.
Proof.
  apply (reach_step allLand3 eventServed worldCrowd
           (Cmd (Spawn "A" 1 1)));
    [|split; [exact I | exact plainId_A]|reflexivity].
  apply (reach_step allLand3 eventServed (newGame allLand3) joinCrowd);
    [apply reach_new | split; [exact letterSuffix_fresh | exact plainId_A]
    | reflexivity].
Qed.

(** [worldCrowdCity] is reached by one more command. *)
Lemma worldCrowdCity_reachable :
  reachable allLand3 eventFresh worldCrowdCity.
Proof.
  apply (reach_step allLand3 eventFresh worldCrowdSpawned
           (Cmd (BuildCity "A" 1 1))); [|exact I|reflexivity].
  exact worldCrowdSpawned_reachable.
Qed.

Lemma reachable_weaken mask (ok ok' : Game → Event → Prop) g :
  (∀ h e, ok h e → ok' h e) → reachable mask ok g → reachable mask ok' g.
Proof.
  intros Hsub. induction 1 as [|h e h' _ IH Hok Happ].
  - apply reach_new.
  - apply (reach_step mask ok' h e h'); [exact IH | by apply Hsub | exact Happ].
Qed.

(** X2: the grid never changes.  In every world the server reaches,
    under any condition on the events, there are still exactly
    [GRID_W * GRID_H] cells, and the cell of grid coordinates (x, y) is
    at index [y * GRID_W + x] with the land flag the mask gave it: no
    operation creates or removes a cell or turns land into water or
    water into land. *)
Theorem grid_never_changes (mask : list (list Z))
    (ok : Game → Event → Prop) (g : Game) :
  reachable mask ok g →
  length (cells g) = Z.to_nat (GRID_W mask * GRID_H mask)
  ∧ (Cell.land <$> cells g) = (Cell.land <$> cells (newGame mask))
  ∧ ∀ x y, inGrid mask x y →
      ∃ row c, mask !! Z.to_nat y = Some row
        ∧ cellAt g (y * GRID_W mask + x) = Some c
        ∧ (Cell.land c = true ↔ row !! Z.to_nat x = Some 1).
Proof.
  intros Hreach.
  destruct (reachable_shapeOk mask ok g Hreach) as (HL & _ & _).
  split; [|split; [exact HL|]].
  - rewrite <- (newGame_length mask).
    apply (f_equal length) in HL. unfold lands in HL.
    by rewrite !length_fmap in HL.
  - intros x y Hxy. destruct (newGame_at mask x y Hxy) as (row & Hrow & Hc).
    destruct (lands_cellAt (newGame mask) g _ _ (eq_sym HL) Hc)
      as (c & Hgc & Hland).
    exists row, c. split; [exact Hrow|]. split; [exact Hgc|].
    rewrite Hland. simpl. apply bool_decide_eq_true.
Qed.

(** After the join and the spawn of [worldCrowdSpawned] the 3 x 3 grid
    still has its 9 land cells. *)
Lemma grid_never_changes_witness :
  reachable allLand3 eventFresh worldCrowdSpawned
  ∧ length (cells worldCrowdSpawned) = 9%nat
  ∧ (Cell.land <$> cells worldCrowdSpawned)
    = (Cell.land <$> cells (newGame allLand3)).
Proof.
  split; [exact worldCrowdSpawned_reachable|].
  destruct (grid_never_changes allLand3 eventFresh worldCrowdSpawned
              worldCrowdSpawned_reachable) as (Hlen & Hland & _).
  split; [exact Hlen | exact Hland].
Defined.

(** X3: fortifications stand on owned land.  In every world the server
    reaches, a cell with a port or a city is a land cell and has an
    owner; so a cell without owner has neither port nor city. *)
Theorem fortifications_on_owned_land (mask : list (list Z))
    (ok : Game → Event → Prop) (g : Game) :
  reachable mask ok g →
  ∀ idx c, cellAt g idx = Some c →
    (Cell.port c = true ∨ Cell.city c = true →
     Cell.land c = true ∧ is_Some (Cell.owner c))
    ∧ (Cell.owner c = None → Cell.port c = false ∧ Cell.city c = false).
Proof.
  intros Hreach idx c Hc.
  destruct (reachable_shapeOk mask ok g Hreach) as (_ & HF & _).
  split; [apply (HF idx c Hc)|].
  intros Hnone.
  destruct (Cell.port c) eqn:Hport.
  { destruct (HF idx c Hc) as [_ [o Ho]]; [by left | congruence]. }
  destruct (Cell.city c) eqn:Hcity; [|done].
  destruct (HF idx c Hc) as [_ [o Ho]]; [by right | congruence].
Qed.

(** In [worldCrowdCity] the cell (1,1) holds the city of A: it is land
    and has an owner; the cell (0,0) has no owner, and neither port nor
    city. *)
Lemma fortifications_witness :
  reachable allLand3 eventFresh worldCrowdCity
  ∧ (∃ c, cellAt worldCrowdCity 4 = Some c ∧ Cell.city c = true
        ∧ Cell.land c = true ∧ is_Some (Cell.owner c))
  ∧ ∃ c, cellAt worldCrowdCity 0 = Some c ∧ Cell.owner c = None
      ∧ Cell.port c = false ∧ Cell.city c = false.
Proof.
  split; [exact worldCrowdCity_reachable|].
  split.
  - eexists. split; [vm_compute; reflexivity|]. split; [reflexivity|].
    apply (proj1 (fortifications_on_owned_land allLand3 eventFresh
                    worldCrowdCity worldCrowdCity_reachable 4 _
                    ltac:(vm_compute; reflexivity))).
    by right.
  - eexists. split; [vm_compute; reflexivity|]. split; [reflexivity|].
    by apply (proj2 (fortifications_on_owned_land allLand3 eventFresh
                       worldCrowdCity worldCrowdCity_reachable 0 _
                       ltac:(vm_compute; reflexivity))).
Defined.

(** X4: the roster stays within its bound.  In every world the server
    reaches there are at most [MAX_PLAYERS_PER_GAME] = 10 player objects,
    bots included; and on a full roster a join is refused and changes
    nothing (no bot is made either). *)
Theorem roster_within_bound (mask : list (list Z))
    (ok : Game → Event → Prop) (g : Game) :
  reachable mask ok g →
  Z.of_nat (size (players g)) ≤ MAX_PLAYERS_PER_GAME
  ∧ (Z.of_nat (size (players g)) = MAX_PLAYERS_PER_GAME →
     ∀ id name color suffix colors,
       join g id name color suffix colors = (false, g)).
Proof.
  intros Hreach.
  destruct (reachable_shapeOk mask ok g Hreach) as (_ & _ & HS).
  split; [exact HS|].
  intros Hfull id name color suffix colors. unfold join, addPlayer.
  rewrite Hfull. reflexivity.
Qed.

(** [worldCrowdSpawned] has 6 player objects: A and 5 bots. *)
Lemma roster_within_bound_witness :
  reachable allLand3 eventFresh worldCrowdSpawned
  ∧ size (players worldCrowdSpawned) = 6%nat
  ∧ Z.of_nat (size (players worldCrowdSpawned)) ≤ MAX_PLAYERS_PER_GAME.
Proof.
  split; [exact worldCrowdSpawned_reachable|].
  split; [vm_compute; reflexivity|].
  exact (proj1 (roster_within_bound allLand3 eventFresh worldCrowdSpawned
                  worldCrowdSpawned_reachable)).
Defined.

(** ** Leaving *)

Lemma cellAt_setCell_is_Some g idx c c' i :
  cellAt g idx = Some c → is_Some (cellAt g i) →
  is_Some (cellAt (setCell g idx c') i).
Proof.
  intros Hc Hi. destruct (decide (i = idx)) as [->|Hne].
  - rewrite (cellAt_setCell_eq g idx c c' Hc). eauto.
  - rewrite cellAt_setCell_ne; [done | by eapply cellAt_nonneg | congruence].
Qed.

Lemma releaseCells_total idxs :
  ∀ g, (∀ idx, idx ∈ idxs → is_Some (cellAt g idx)) →
       is_Some (releaseCells g idxs).
Proof.
  induction idxs as [|idx rest IH]; intros g H; cbn [releaseCells]; [eauto|].
  destruct (H idx) as [cell Hc]; [left|]. rewrite Hc. apply IH.
  intros i Hi. apply (cellAt_setCell_is_Some g idx cell); [exact Hc|].
  apply H. by right.
Qed.

Lemma releaseCells_length idxs :
  ∀ g g1, releaseCells g idxs = Some g1 →
    length (cells g1) = length (cells g).
Proof.
  induction idxs as [|idx rest IH]; intros g g1; cbn [releaseCells].
  - by intros [= <-].
  - destruct (cellAt g idx) as [cell|]; [|discriminate].
    intros Hr. rewrite (IH _ _ Hr). simpl. apply length_insert.
Qed.

(** X5: leaving frees the territory.  In a world where territories and
    owners agree, [removePlayer] of a player never raises; afterwards the
    player object is gone, every cell that the player owned has no owner,
    troops 0, no port and no city and keeps its land flag, every other
    cell is as before, and so are the other players and the bots. *)
Theorem removePlayer_frees_territory (g : Game) (id : string) (p : Player.t) :
  territoryConsistent g → players g !! id = Some p →
  ∃ g', removePlayer g id = Some g'
    ∧ players g' !! id = None
    ∧ (∀ q, q ≠ id → players g' !! q = players g !! q)
    ∧ bots g' = bots g
    ∧ length (cells g') = length (cells g)
    ∧ ∀ idx c, cellAt g idx = Some c →
        ∃ c', cellAt g' idx = Some c'
          ∧ Cell.land c' = Cell.land c
          ∧ (Cell.owner c = Some id →
               Cell.owner c' = None ∧ Cell.troops c' = 0
               ∧ Cell.port c' = false ∧ Cell.city c' = false)
          ∧ (Cell.owner c ≠ Some id → c' = c).
Proof.
  intros HT Hp. unfold removePlayer. rewrite Hp.
  destruct (releaseCells_total (Player.cells p) g) as [g1 Hr].
  { intros idx Hidx. apply (HT id p Hp idx) in Hidx as (c & Hc & _). eauto. }
  rewrite Hr. eexists. split; [reflexivity|].
  destruct (releaseCells_players _ _ _ Hr) as [Hpl Hbots]. simpl.
  split; [rewrite Hpl; apply lookup_delete_eq|].
  split; [intros q Hq; rewrite Hpl; by apply lookup_delete_ne|].
  split; [exact Hbots|].
  split; [by apply (releaseCells_length _ _ _ Hr)|].
  intros idx c Hc.
  change (cellAt {| cells := cells g1; players := ?m; bots := ?b |} idx)
    with (cellAt g1 idx).
  rewrite (releaseCells_cellAt _ _ _ Hr idx), Hc. simpl.
  destruct (decide (idx ∈ Player.cells p)) as [Hin|Hout].
  - apply (HT id p Hp idx) in Hin as (c0 & Hc0 & Hown).
    rewrite Hc in Hc0. injection Hc0 as <-.
    eexists. split; [reflexivity|]. split; [reflexivity|].
    split; [done|]. by intros [].
  - exists c. split; [reflexivity|]. split; [reflexivity|].
    split; [|done]. intros Hown. destruct Hout.
    apply (HT id p Hp idx). by exists c.
Qed.

(** A leaves [worldCrowdCity]: its cell (1,1), which held a city, has no
    owner and no city any more and is still land; the cell (0,0) is as
    it was. *)
Lemma removePlayer_frees_witness :
  ∃ p g' c0,
    players worldCrowdCity !! "A" = Some p
    ∧ hasCity worldCrowdCity 4 = true
    ∧ cellAt worldCrowdCity 0 = Some c0
    ∧ removePlayer worldCrowdCity "A" = Some g'
    ∧ players g' !! "A" = None
    ∧ (∃ c, cellAt g' 4 = Some c ∧ Cell.owner c = None ∧ Cell.troops c = 0
          ∧ Cell.port c = false ∧ Cell.city c = false ∧ Cell.land c = true)
    ∧ cellAt g' 0 = Some c0.
Proof.
  assert (HT : territoryConsistent worldCrowdCity)
    by exact (proj1 (reachable_worldOk allLand3 worldCrowdCity
                       worldCrowdCity_reachable)).
  edestruct (removePlayer_frees_territory worldCrowdCity "A")
    as (g' & Hrun & Hgone & _ & _ & _ & Hcells);
    [exact HT | vm_compute; reflexivity|].
  eexists _, g', _. split; [vm_compute; reflexivity|].
  split; [vm_compute; reflexivity|].
  split; [vm_compute; reflexivity|].
  split; [exact Hrun|]. split; [exact Hgone|].
  split.
  - destruct (Hcells 4 _ ltac:(vm_compute; reflexivity))
      as (c & Hc & Hland & Hfree & _).
    exists c. split; [exact Hc|].
    destruct (Hfree eq_refl) as (H1 & H2 & H3 & H4).
    split; [exact H1|]. split; [exact H2|]. split; [exact H3|].
    split; [exact H4 | exact Hland].
  - destruct (Hcells 0 _ ltac:(vm_compute; reflexivity))
      as (c & Hc & _ & _ & Hsame).
    rewrite Hc. f_equal. by apply Hsame.
Defined.

(** ** Spawning *)



(** ** What an attack takes from the pools *)

Lemma poolOf_setPlayer g id p q :
  poolOf (setPlayer g id p) q
  = if decide (id = q) then Player.troops p else poolOf g q.
Proof.
  unfold poolOf. simpl. rewrite lookup_insert. by case_decide.
Qed.

(** The resolution leaves the attacker's pool as the deduction left it. *)
Lemma resolve_attacker_pool g1 id player dstIdx toSend :
  poolOf g1 id = Player.troops player →
  poolOf (snd (resolve g1 id player dstIdx toSend)) id = Player.troops player.
Proof.
  intros Hp. unfold resolve.
  destruct (cellAt g1 dstIdx) as [dstCell|]; [|exact Hp].
  destruct (negb (truthy (Cell.owner dstCell))).
  { simpl. rewrite poolOf_setPlayer. by rewrite decide_True. }
  destruct (ownerIs (Cell.owner dstCell) id) eqn:Hown; [exact Hp|].
  apply ownerIs_false in Hown.
  destruct (Cell.owner dstCell) as [d|]; [|exact Hp].
  destruct (players g1 !! d) as [defender|]; [|exact Hp].
  destruct (toSend >? Player.troops defender); simpl.
  - rewrite poolOf_setPlayer. by rewrite decide_True.
  - rewrite poolOf_setPlayer. rewrite decide_False by congruence. exact Hp.
Qed.



(** X8: the fraction is not checked against 1.  A valid attack with a
    fraction of 2 or more from a pool of at least 1 sends more troops
    than the pool holds and leaves the attacker with a pool below 0. *)
Theorem attack_overdraws (mask : list (list Z)) (g : Game) (id : string)
    (srcX srcY dstX dstY : Z) (percent : Q)
    (player : Player.t) (srcCell : Cell.t) :
  players g !! id = Some player →
  cellAt g (srcY * GRID_W mask + srcX) = Some srcCell →
  Cell.owner srcCell = Some id →
  moveAllowed mask g srcCell (cellAt g (dstY * GRID_W mask + dstX))
    srcX srcY dstX dstY = true →
  1 ≤ Player.troops player → (2 <= percent)%Q →
  poolOf (snd (attack mask g id srcX srcY dstX dstY percent)) id < 0.
Proof.
  intros Hp Hsrc Hown Hmove Hpool Hpercent.
  pose proof (toSendOf_double (Player.troops player) percent Hpool Hpercent)
    as Hsend.
  rewrite (attack_valid mask g id srcX srcY dstX dstY percent player srcCell
             Hp Hsrc Hown Hmove) by lia.
  cbv zeta. rewrite resolve_attacker_pool; [simpl; lia|].
  rewrite poolOf_setPlayer. by rewrite decide_True.
Qed.

(** In [worldSpawned] A attacks (1,0) with fraction 2: 20 troops are
    sent from a pool of 10, which ends at -10. *)
Lemma attack_overdraws_witness :
  poolOf worldSpawned "A" = 10
  ∧ poolOf (snd (attack allLand3 worldSpawned "A" 1 1 1 0 2)) "A" < 0.
Proof.
  split; [vm_compute; reflexivity|].
  apply (attack_overdraws allLand3 worldSpawned "A" 1 1 1 0 2
           playerSpawned
           {| Cell.land := true; Cell.owner := Some "A"; Cell.troops := 0;
              Cell.port := false; Cell.city := false |}).
  - vm_compute; reflexivity.
  - vm_compute; reflexivity.
  - reflexivity.
  - vm_compute; reflexivity.
  - vm_compute; discriminate.
  - vm_compute; discriminate.
Defined.


(** ** The targets of [expand] and of the bots *)

Lemma offsets_step ij :
  ij ∈ neighbourOffsets → Z.max (Z.abs (fst ij)) (Z.abs (snd ij)) = 1.
Proof.
  unfold neighbourOffsets. intros H.
  repeat (apply elem_of_cons in H as [->|H]; [reflexivity|]).
  by apply elem_of_nil in H.
Qed.

Lemma dirs_step dir :
  dir ∈ dirs →
  Z.max (Z.abs (fst dir * 2)) (Z.abs (snd dir * 2)) = 2
  ∧ Z.sgn (fst dir * 2) = fst dir ∧ Z.sgn (snd dir * 2) = snd dir.
Proof.
  unfold dirs. intros H.
  repeat (apply elem_of_cons in H as [->|H]; [done|]).
  by apply elem_of_nil in H.
Qed.

Lemma outside_false mask nx ny :
  outside mask nx ny = false → inGrid mask nx ny.
Proof.
  unfold outside, inGrid. intros H.
  apply orb_false_iff in H as [H H4]. apply orb_false_iff in H as [H H3].
  apply orb_false_iff in H as [H1 H2].
  rewrite Z.geb_leb in H3, H4. lia.
Qed.

Lemma not_own_target o id :
  negb (truthy o) || negb (ownerIs o id) = true → o = Some id → id = "".
Proof.
  intros H ->. rewrite (proj2 (ownerIs_true (Some id) id) eq_refl) in H.
  rewrite orb_false_r in H. apply negb_true_iff in H. simpl in H.
  apply negb_false_iff in H. by apply String.eqb_eq in H.
Qed.

Lemma adjacentTargets_elem mask g id x y t :
  t ∈ adjacentTargets mask g id x y →
  ∃ ij c, ij ∈ neighbourOffsets ∧ t = (x + fst ij, y + snd ij)
    ∧ inGrid mask (fst t) (snd t)
    ∧ cellAt g (snd t * GRID_W mask + fst t) = Some c
    ∧ (Cell.owner c = Some id → id = "").
Proof.
  unfold adjacentTargets. intros H%list_elem_of_In.
  apply in_flat_map in H as (ij & Hij%list_elem_of_In & H).
  destruct (outside mask (x + fst ij) (y + snd ij)) eqn:Hout; [done|].
  destruct (cellAt g _) as [c|] eqn:Hc; [|done].
  destruct (_ || _) eqn:Hown; [|done].
  destruct H as [<-|[]]. exists ij, c. simpl.
  split; [exact Hij|]. split; [reflexivity|].
  split; [by apply outside_false|]. split; [exact Hc|].
  by apply not_own_target.
Qed.

Lemma jumpTargets_elem mask g id x y t :
  t ∈ jumpTargets mask g id x y →
  ∃ dir midCell c, dir ∈ dirs ∧ t = (x + fst dir * 2, y + snd dir * 2)
    ∧ inGrid mask (fst t) (snd t)
    ∧ cellAt g ((y + snd dir) * GRID_W mask + (x + fst dir)) = Some midCell
    ∧ Cell.land midCell = false
    ∧ cellAt g (snd t * GRID_W mask + fst t) = Some c
    ∧ Cell.land c = true
    ∧ (Cell.owner c = Some id → id = "").
Proof.
  unfold jumpTargets. intros H%list_elem_of_In.
  apply in_flat_map in H as (dir & Hdir%list_elem_of_In & H).
  destruct (outside mask _ _) eqn:Hout; [done|].
  destruct (cellAt g ((y + snd dir) * GRID_W mask + (x + fst dir)))
    as [midCell|] eqn:Hmid; [|done].
  destruct (cellAt g ((y + snd dir * 2) * GRID_W mask + (x + fst dir * 2)))
    as [c|] eqn:Hc; [|done].
  destruct (_ && _) eqn:Hcond; [|done].
  destruct H as [<-|[]].
  apply andb_true_iff in Hcond as [Hcond Hown].
  apply andb_true_iff in Hcond as [Hwater%negb_true_iff Hland].
  exists dir, midCell, c. simpl.
  split; [exact Hdir|]. split; [reflexivity|].
  split; [by apply outside_false|]. split; [exact Hmid|].
  split; [exact Hwater|]. split; [exact Hc|]. split; [exact Hland|].
  by apply not_own_target.
Qed.

Lemma flat_map_length_le {A B} (f : A → list B) (l : list A) :
  (∀ a, (length (f a) ≤ 1)%nat) →
  (length (flat_map f l) ≤ length l)%nat.
Proof.
  intros Hf. induction l as [|a l IH]; [done|].
  simpl. rewrite length_app. pose proof (Hf a). lia.
Qed.

(** X11: the targets of [expand] and of the bots are sound.  Every
    target computed from a source cell is on the grid, has a cell that is
    not owned by the player (unless the player's id is the empty string,
    which is falsy), differs from the source, and passes the movement
    check of [attack] in the same world; there are at most 16 targets. *)
Theorem targets_valid (mask : list (list Z)) (g : Game) (id : string)
    (srcCell : Cell.t) (x y : Z) :
  (length (targetsOf mask g id srcCell x y) ≤ 16)%nat
  ∧ ∀ t, t ∈ targetsOf mask g id srcCell x y →
      inGrid mask (fst t) (snd t)
      ∧ t ≠ (x, y)
      ∧ (∃ c, cellAt g (snd t * GRID_W mask + fst t) = Some c
              ∧ (Cell.owner c = Some id → id = ""))
      ∧ moveAllowed mask g srcCell
          (cellAt g (snd t * GRID_W mask + fst t)) x y (fst t) (snd t)
        = true.
Proof.
  split.
  { unfold targetsOf. rewrite length_app.
    assert (length (adjacentTargets mask g id x y) ≤ 8)%nat.
    { unfold adjacentTargets.
      etrans; [apply flat_map_length_le | reflexivity].
      intros ij. destruct (outside _ _ _); [simpl; lia|].
      destruct (cellAt g _); [|simpl; lia].
      destruct (_ || _); simpl; lia. }
    assert (length (jumpTargets mask g id x y) ≤ 8)%nat.
    { unfold jumpTargets.
      etrans; [apply flat_map_length_le | reflexivity].
      intros dir. destruct (outside _ _ _); [simpl; lia|].
      destruct (cellAt g _); [|simpl; lia].
      destruct (cellAt g _); [|simpl; lia].
      destruct (_ && _); simpl; lia. }
    destruct (Cell.port srcCell); simpl; lia. }
  intros t Ht. unfold targetsOf in Ht. apply elem_of_app in Ht as [Ht|Ht].
  - apply adjacentTargets_elem in Ht
      as (ij & c & Hij & -> & Hin & Hc & Hown).
    pose proof (offsets_step ij Hij) as Hstep. simpl in *.
    split; [exact Hin|]. split.
    { intros [= Hx Hy]. assert (fst ij = 0 ∧ snd ij = 0) as [H1 H2] by lia.
      rewrite H1, H2 in Hstep. discriminate. }
    split; [by exists c|].
    unfold moveAllowed.
    replace (x + fst ij - x) with (fst ij) by lia.
    replace (y + snd ij - y) with (snd ij) by lia.
    by rewrite Hstep.
  - destruct (Cell.port srcCell) eqn:Hport; [|by apply elem_of_nil in Ht].
    apply jumpTargets_elem in Ht
      as (dir & midCell & c & Hdir & -> & Hin & Hmid & Hwater & Hc & Hland
          & Hown).
    destruct (dirs_step dir Hdir) as (Hstep & Hsx & Hsy). simpl in *.
    split; [exact Hin|]. split.
    { intros [= Hx Hy].
      assert (fst dir * 2 = 0 ∧ snd dir * 2 = 0) as [H1 H2] by lia.
      rewrite H1, H2 in Hstep. discriminate. }
    split; [by exists c|].
    unfold moveAllowed.
    replace (x + fst dir * 2 - x) with (fst dir * 2) by lia.
    replace (y + snd dir * 2 - y) with (snd dir * 2) by lia.
    rewrite Hstep, Hport, Hsx, Hsy, Hmid, Hc, Hwater, Hland. reflexivity.
Qed.

(** In [worldPort] the neighbour (1,0) of A's port cell (0,0) is a
    target; it is on the grid and passes the movement check. *)
Lemma targets_valid_witness :
  (1, 0) ∈ targetsOf bay worldPort "A"
             {| Cell.land := true; Cell.owner := Some "A"; Cell.troops := 0;
                Cell.port := true; Cell.city := false |} 0 0
  ∧ inGrid bay 1 0
  ∧ moveAllowed bay worldPort
      {| Cell.land := true; Cell.owner := Some "A"; Cell.troops := 0;
         Cell.port := true; Cell.city := false |}
      (cellAt worldPort (0 * GRID_W bay + 1)) 0 0 1 0 = true.
Proof.
  assert (Hin : (1, 0) ∈ targetsOf bay worldPort "A"
             {| Cell.land := true; Cell.owner := Some "A"; Cell.troops := 0;
                Cell.port := true; Cell.city := false |} 0 0).
  { vm_compute. apply elem_of_cons. by left. }
  split; [exact Hin|].
  destruct (proj2 (targets_valid bay worldPort "A" _ 0 0) (1, 0) Hin)
    as (Hgrid & _ & _ & Hmove).
  split; [exact Hgrid | exact Hmove].
Defined.

(** ** Commands that raise no exception *)

Lemma resolve_returns g1 id player dstIdx toSend :
  is_Some (cellAt g1 dstIdx) →
  ∃ b, fst (resolve g1 id player dstIdx toSend) = Returned b.
Proof.
  intros [dstCell Hc]. unfold resolve. rewrite Hc.
  destruct (negb (truthy (Cell.owner dstCell))); [by eexists|].
  destruct (ownerIs (Cell.owner dstCell) id); [by eexists|].
  destruct (Cell.owner dstCell) as [d|]; [|by eexists].
  destruct (players g1 !! d) as [defender|]; [|by eexists].
  destruct (toSend >? Player.troops defender); by eexists.
Qed.

Lemma attack_returns mask g id srcX srcY dstX dstY percent :
  is_Some (cellAt g (dstY * GRID_W mask + dstX)) →
  ∃ b, fst (attack mask g id srcX srcY dstX dstY percent) = Returned b.
Proof.
  intros Hdst. unfold attack.
  destruct (players g !! id) as [player|]; [|by eexists].
  destruct (cellAt g (srcY * GRID_W mask + srcX)) as [srcCell|];
    [|by eexists].
  destruct (negb (ownerIs _ _)); [by eexists|].
  destruct (negb (moveAllowed _ _ _ _ _ _ _ _)); [by eexists|].
  destruct (toSendOf (Player.troops player) percent <? 1); [by eexists|].
  by apply resolve_returns.
Qed.

Lemma resolve_keeps_cells g1 id player dstIdx toSend i :
  is_Some (cellAt g1 i) →
  is_Some (cellAt (snd (resolve g1 id player dstIdx toSend)) i).
Proof.
  intros Hi. unfold resolve.
  destruct (cellAt g1 dstIdx) as [dstCell|] eqn:Hc; [|exact Hi].
  destruct (negb (truthy (Cell.owner dstCell))).
  { simpl. change (cellAt (setPlayer ?h ?a ?b) i) with (cellAt h i).
    by apply (cellAt_setCell_is_Some g1 dstIdx dstCell). }
  destruct (ownerIs (Cell.owner dstCell) id); [exact Hi|].
  destruct (Cell.owner dstCell) as [d|]; [|exact Hi].
  destruct (players g1 !! d) as [defender|]; [|exact Hi].
  destruct (toSend >? Player.troops defender); simpl; [|exact Hi].
  change (cellAt (setPlayer ?h ?a ?b) i) with (cellAt h i).
  by apply (cellAt_setCell_is_Some (setPlayer g1 d _) dstIdx dstCell).
Qed.

Lemma attack_keeps_cells mask g id srcX srcY dstX dstY percent i :
  is_Some (cellAt g i) →
  is_Some (cellAt (snd (attack mask g id srcX srcY dstX dstY percent)) i).
Proof.
  intros Hi. unfold attack.
  destruct (players g !! id) as [player|]; [|exact Hi].
  destruct (cellAt g (srcY * GRID_W mask + srcX)) as [srcCell|];
    [|exact Hi].
  destruct (negb (ownerIs _ _)); [exact Hi|].
  destruct (negb (moveAllowed _ _ _ _ _ _ _ _)); [exact Hi|].
  destruct (toSendOf (Player.troops player) percent <? 1); [exact Hi|].
  by apply resolve_keeps_cells.
Qed.

Lemma attackEach_returns mask id x y per targets :
  ∀ g any,
    (∀ t, t ∈ targets → is_Some (cellAt g (snd t * GRID_W mask + fst t))) →
    ∃ b, fst (attackEach mask g id x y per targets any) = Returned b.
Proof.
  induction targets as [|t rest IH]; intros g any H; [by eexists|].
  simpl.
  destruct (attack_returns mask g id x y (fst t) (snd t) per) as [ok Hok];
    [apply H; by left|].
  pose proof (λ i, attack_keeps_cells mask g id x y (fst t) (snd t) per i)
    as Hkeep.
  destruct (attack mask g id x y (fst t) (snd t) per) as [o g1].
  simpl in Hok. subst o. apply IH.
  intros t' Ht'. apply Hkeep, H. by right.
Qed.

Lemma targetsOf_cells mask g id srcCell x y t :
  t ∈ targetsOf mask g id srcCell x y →
  is_Some (cellAt g (snd t * GRID_W mask + fst t)).
Proof.
  unfold targetsOf. intros [Ht|Ht]%elem_of_app.
  - apply adjacentTargets_elem in Ht as (_ & c & _ & _ & _ & Hc & _). eauto.
  - destruct (Cell.port srcCell); [|by apply elem_of_nil in Ht].
    apply jumpTargets_elem in Ht
      as (_ & _ & c & _ & _ & _ & _ & _ & Hc & _). eauto.
Qed.

(** X12: [expand], [buildPort] and [buildCity] never raise.  For a
    player id that is not a property name of [Object.prototype], in any
    world and for any other arguments (coordinates off the grid, unknown
    players, any fraction), these three commands return a boolean: every
    cell and player they touch is checked first, and [expand] only
    attacks targets that have a cell. *)
Theorem expand_and_builds_return (mask : list (list Z)) (g : Game)
    (id : string) (x y : Z) (percent : Q) :
  plainId id →
  (∃ b, fst (expand mask g id x y percent) = Returned b)
  ∧ (∃ b, fst (buildPort mask g id x y) = Returned b)
  ∧ (∃ b, fst (buildCity mask g id x y) = Returned b).
Proof.
  intros _. split; [|split].
  - unfold expand.
    destruct (cellAt g _) as [srcCell|]; [|by eexists].
    destruct (negb (ownerIs _ _)); [by eexists|].
    destruct (players g !! id) as [player|]; [|by eexists].
    destruct (Z.of_nat (length (targetsOf mask g id srcCell x y)) =? 0);
      [by eexists|].
    apply attackEach_returns. intros t Ht.
    by apply (targetsOf_cells mask g id srcCell x y).
  - unfold buildPort. destruct (cellAt g _) as [cell|]; [|by eexists].
    destruct (_ || _); [by eexists|].
    destruct (negb (adjacentWater mask g x y)); [by eexists|].
    destruct (players g !! id) as [p|]; [|by eexists].
    destruct (Player.troops p <? 5); by eexists.
  - unfold buildCity. destruct (cellAt g _) as [cell|]; [|by eexists].
    destruct (_ || _); [by eexists|].
    destruct (players g !! id) as [p|]; [|by eexists].
    destruct (Player.troops p <? 10); by eexists.
Qed.

Lemma reachable_cell_in_grid mask ok g x y :
  reachable mask ok g → inGrid mask x y →
  is_Some (cellAt g (y * GRID_W mask + x)).
Proof.
  intros Hreach Hxy.
  destruct (reachable_shapeOk mask ok g Hreach) as (HL & _ & _).
  destruct (newGame_at mask x y Hxy) as (row & _ & Hc).
  destruct (lands_cellAt (newGame mask) g _ _ (eq_sym HL) Hc) as (c & Hgc & _).
  eauto.
Qed.

(** In [worldSpawned] the three commands of A return: the expansion
    from (1,1) with fraction 1 takes (0,0), and the builds on (1,1) find
    no water next to the cell and too few troops. *)
Lemma expand_and_builds_witness :
  plainId "A"
  ∧ fst (expand allLand3 worldSpawned "A" 1 1 1) = Returned true
  ∧ (∃ b, fst (buildPort allLand3 worldSpawned "A" 1 1) = Returned b)
  ∧ ∃ b, fst (buildCity allLand3 worldSpawned "A" 1 1) = Returned b.
Proof.
  split; [exact plainId_A|].
  destruct (expand_and_builds_return allLand3 worldSpawned "A" 1 1 1
              plainId_A) as (_ & Hport & Hcity).
  split; [vm_compute; reflexivity|]. split; [exact Hport | exact Hcity].
Defined.

(** X13: on the grid and for a joined player no command raises.  In a
    world the server reaches, for a player id that is not a property name
    of [Object.prototype], [spawn] on grid coordinates for a player
    object that exists, and [attack] with a destination on the grid,
    return a boolean, as [expand] and the builds always do. *)
Theorem commands_on_grid_return (mask : list (list Z))
    (ok : Game → Event → Prop) (g : Game) (c : Command) :
  reachable mask ok g → plainId (commandId c) →
  commandTargetInGrid mask c →
  (∀ id x y, c = Spawn id x y → is_Some (players g !! id)) →
  ∃ b, fst (exec mask g c) = Returned b.
Proof.
  intros Hreach _ Hgrid Hlive.
  destruct c as [id x y|id sx sy dx dy f|id x y f|id x y|id x y]; simpl in *.
  - destruct (reachable_cell_in_grid mask ok g x y Hreach Hgrid)
      as [cell Hc].
    destruct (Hlive id x y eq_refl) as [p Hp].
    unfold spawn. rewrite Hc.
    destruct (_ || _); [by eexists|].
    change (players (setCell g ?i ?c) !! id) with (players g !! id).
    rewrite Hp. by eexists.
  - apply attack_returns.
    by apply (reachable_cell_in_grid mask ok g dx dy Hreach).
  - unfold expand.
    destruct (cellAt g _) as [srcCell|]; [|by eexists].
    destruct (negb (ownerIs _ _)); [by eexists|].
    destruct (players g !! id) as [player|]; [|by eexists].
    destruct (Z.of_nat (length (targetsOf mask g id srcCell x y)) =? 0);
      [by eexists|].
    apply attackEach_returns. intros t Ht.
    by apply (targetsOf_cells mask g id srcCell x y).
  - unfold buildPort. destruct (cellAt g _) as [cell|]; [|by eexists].
    destruct (_ || _); [by eexists|].
    destruct (negb (adjacentWater mask g x y)); [by eexists|].
    destruct (players g !! id) as [p|]; [|by eexists].
    destruct (Player.troops p <? 5); by eexists.
  - unfold buildCity. destruct (cellAt g _) as [cell|]; [|by eexists].
    destruct (_ || _); [by eexists|].
    destruct (players g !! id) as [p|]; [|by eexists].
    destruct (Player.troops p <? 10); by eexists.
Qed.

(** In [worldCrowdSpawned] the attack of A on (1,0) returns. *)
Lemma commands_on_grid_witness :
  reachable allLand3 eventFresh worldCrowdSpawned
  ∧ inGrid allLand3 1 0
  ∧ ∃ b, fst (exec allLand3 worldCrowdSpawned (Attack "A" 1 1 1 0 (1 # 2)))
         = Returned b.
Proof.
  assert (Hgrid : inGrid allLand3 1 0)
    by (vm_compute; repeat split; discriminate).
  split; [exact worldCrowdSpawned_reachable|]. split; [exact Hgrid|].
  apply (commands_on_grid_return allLand3 eventFresh worldCrowdSpawned
           (Attack "A" 1 1 1 0 (1 # 2)) worldCrowdSpawned_reachable
           plainId_A Hgrid).
  intros id x y Heq. discriminate Heq.
Defined.

(** ** Building *)






(** ** The bots made by [ensureBots] *)

Lemma ensureBotsLoop_count suffix colors fuel :
  ∀ g k,
    (∀ j, (k ≤ j < k + fuel)%nat →
          players g !! ("bot-" +:+ suffix j) = None
          ∧ ∀ i, (k ≤ i < j)%nat → suffix i ≠ suffix j) →
    (botsNeeded g ≤ fuel)%nat →
    let g' := ensureBotsLoop fuel g suffix colors k in
    length (bots g') = (length (bots g) + botsNeeded g)%nat
    ∧ size (players g') = (size (players g) + botsNeeded g)%nat
    ∧ cells g' = cells g.
Proof.
  unfold botsNeeded, MAX_PLAYERS_PER_GAME.
  induction fuel as [|n IH]; intros g k Hfresh Hneed; simpl.
  - split; [lia|]. split; [lia | reflexivity].
  - unfold MAX_PLAYERS_PER_GAME.
    destruct (Z.of_nat (length (bots g)) + Z.of_nat (size (players g)) <? 10)
      eqn:Hcond.
    2:{ apply Z.ltb_ge in Hcond.
        assert ((10 - Z.of_nat (length (bots g))
                 - Z.of_nat (size (players g)) + 1) / 2 < 1)
          by (apply Z.div_lt_upper_bound; lia).
        split; [lia|]. split; [lia | reflexivity]. }
    apply Z.ltb_lt in Hcond.
    destruct (Hfresh k ltac:(lia)) as [Hnone _].
    match goal with
    | |- context [ensureBotsLoop n ?h suffix colors (S k)] => set (g2 := h)
    end.
    assert (Hb2 : length (bots g2) = S (length (bots g)))
      by (subst g2; simpl; rewrite length_app; simpl; lia).
    assert (Hs2 : size (players g2) = S (size (players g)))
      by (subst g2; simpl; by rewrite map_size_insert_None).
    assert (Hdiv : (10 - Z.of_nat (length (bots g))
                    - Z.of_nat (size (players g)) + 1) / 2
                   = (10 - Z.of_nat (length (bots g2))
                      - Z.of_nat (size (players g2)) + 1) / 2 + 1).
    { rewrite Hb2, Hs2.
      replace (10 - Z.of_nat (length (bots g))
               - Z.of_nat (size (players g)) + 1)
        with ((10 - Z.of_nat (S (length (bots g)))
               - Z.of_nat (S (size (players g))) + 1) + 1 * 2) by lia.
      by rewrite Z.div_add. }
    assert (Hpos : 0 ≤ (10 - Z.of_nat (length (bots g2))
                        - Z.of_nat (size (players g2)) + 1) / 2)
      by (apply Z.div_pos; lia).
    destruct (IH g2 (S k)) as (Hb & Hs & Hc).
    + intros j Hj. destruct (Hfresh j ltac:(lia)) as [Hnj Hdiff].
      split; [|intros i Hi; apply Hdiff; lia].
      subst g2. simpl. rewrite lookup_insert_ne; [exact Hnj|].
      intros Heq%bot_id_inj. apply (Hdiff k); [lia | exact Heq].
    + lia.
    + split; [lia|]. split; [lia | exact Hc].
Qed.

(** X15: how many bots [ensureBots] makes.  With bot ids that are not
    in use, [ensureBots] makes exactly the least number [n] of bots with
    [(bots + n) + (players + n) >= 10]: its test counts every bot twice,
    once in [bots] and once in [players].  For the first player of a
    fresh world that is 5 bots, a roster of 6.  No cell changes. *)
Theorem ensureBots_count (g : Game) (suffix colors : nat → string) :
  (∀ j, (j < Z.to_nat MAX_PLAYERS_PER_GAME)%nat →
        players g !! ("bot-" +:+ suffix j) = None
        ∧ ∀ i, (i < j)%nat → suffix i ≠ suffix j) →
  let g' := ensureBots g suffix colors in
  length (bots g') = (length (bots g) + botsNeeded g)%nat
  ∧ size (players g') = (size (players g) + botsNeeded g)%nat
  ∧ cells g' = cells g
  ∧ (length (bots g) = 0%nat → size (players g) = 1%nat →
     length (bots g') = 5%nat ∧ size (players g') = 6%nat).
Proof.
  intros Hfresh g'.
  assert (Hneed : (botsNeeded g ≤ Z.to_nat MAX_PLAYERS_PER_GAME)%nat).
  { unfold botsNeeded, MAX_PLAYERS_PER_GAME.
    assert ((10 - Z.of_nat (length (bots g))
             - Z.of_nat (size (players g)) + 1) / 2 ≤ 10)
      by (apply Z.div_le_upper_bound; lia).
    lia. }
  destruct (ensureBotsLoop_count suffix colors
              (Z.to_nat MAX_PLAYERS_PER_GAME) g 0%nat) as (Hb & Hs & Hc).
  { intros j Hj. destruct (Hfresh j ltac:(lia)) as [Hn Hd].
    split; [exact Hn|]. intros i Hi. apply Hd. lia. }
  { exact Hneed. }
  subst g'. unfold ensureBots.
  split; [exact Hb|]. split; [exact Hs|]. split; [exact Hc|].
  intros Hb0 Hs1. rewrite Hb, Hs. unfold botsNeeded, MAX_PLAYERS_PER_GAME.
  rewrite Hb0, Hs1. split; reflexivity.
Qed.

(** The join of A to a fresh 3 x 3 world makes 5 bots. *)
Lemma ensureBots_count_witness :
  length (bots worldCrowd) = 5%nat ∧ size (players worldCrowd) = 6%nat.
Proof.
  assert (Hfresh : ∀ j, (j < Z.to_nat MAX_PLAYERS_PER_GAME)%nat →
            players worldJoined !! ("bot-" +:+ letterSuffix j) = None
            ∧ ∀ i, (i < j)%nat → letterSuffix i ≠ letterSuffix j).
  { intros j Hj. unfold MAX_PLAYERS_PER_GAME in Hj. split.
    - apply not_elem_of_dom.
      assert (Hd : dom (players worldJoined) = {["A"]})
        by (vm_compute; reflexivity).
      rewrite Hd. intros Heq%elem_of_singleton. simpl in Heq.
      discriminate Heq.
    - intros i Hi [= Heq]. apply (f_equal Ascii.nat_of_ascii) in Heq.
      rewrite !Ascii.nat_ascii_embedding in Heq by lia. lia. }
  exact (proj2 (proj2 (proj2 (ensureBots_count worldJoined letterSuffix
                                (λ _, "hsl(200, 60%, 50%)") Hfresh)))
           eq_refl eq_refl).
Defined.

(** ** The bots and the tick *)

Lemma randomBelow_range rnd k n :
  randomOk rnd → 0 < n → 0 ≤ randomBelow rnd k n < n.
Proof.
  intros Hrnd Hn. destruct (Hrnd k) as [H0 H1]. unfold randomBelow.
  assert (Hn' : (0 < inject_Z n)%Q) by (rewrite <- (Zlt_Qlt 0); exact Hn).
  assert (Hx : (0 <= rnd k * inject_Z n)%Q).
  { apply Qmult_le_0_compat; [exact H0 | by apply Qlt_le_weak]. }
  split.
  - rewrite <- (Qfloor_Z 0). apply Qfloor_resp_le.
    by apply roundDouble_nonneg.
  - rewrite Zlt_Qlt.
    eapply Qle_lt_trans; [apply Qfloor_le|].
    apply roundDouble_below; [lia | exact Hx|].
    rewrite (Qmult_comm (inject_Z n)).
    apply Qmult_le_compat_r; [exact H1 | by apply Qlt_le_weak].
Qed.

Lemma grid_height_pos mask : 0 < GRID_W mask → 0 < GRID_H mask.
Proof.
  unfold GRID_W, GRID_H. destruct mask; simpl; lia.
Qed.

Lemma full_grid_cell mask g x y :
  length (cells g) = Z.to_nat (GRID_W mask * GRID_H mask) →
  inGrid mask x y → is_Some (cellAt g (y * GRID_W mask + x)).
Proof.
  intros Hlen [Hx Hy]. unfold cellAt.
  destruct (y * GRID_W mask + x <? 0) eqn:Hneg; [nia|].
  apply lookup_lt_is_Some. rewrite Hlen. nia.
Qed.

Lemma sampleIdx_0 mask rnd k :
  sampleIdx mask rnd k 0
  = randomBelow rnd (S k) (GRID_H mask) * GRID_W mask
    + randomBelow rnd k (GRID_W mask).
Proof.
  unfold sampleIdx, randomBelow.
  by replace (k + 2 * 0 + 1)%nat with (S k) by lia;
    replace (k + 2 * 0)%nat with k by lia.
Qed.

Lemma sampleIdx_S mask rnd k j :
  sampleIdx mask rnd k (S j) = sampleIdx mask rnd (S (S k)) j.
Proof.
  unfold sampleIdx.
  by replace (k + 2 * S j + 1)%nat with (S (S k) + 2 * j + 1)%nat by lia;
    replace (k + 2 * S j)%nat with (S (S k) + 2 * j)%nat by lia.
Qed.

Lemma botSpawn_result mask botKey bot rnd tries :
  0 < GRID_W mask → randomOk rnd →
  ∀ g k, length (cells g) = Z.to_nat (GRID_W mask * GRID_H mask) →
    ∃ g' k', botSpawn mask g botKey bot rnd k tries = (Some g', k')
      ∧ (((∀ j, (j < tries)%nat → ¬ freeLand g (sampleIdx mask rnd k j))
          ∧ g' = g ∧ k' = (k + 2 * tries)%nat)
         ∨ ∃ j cell,
             (j < tries)%nat
             ∧ (∀ i, (i < j)%nat → ¬ freeLand g (sampleIdx mask rnd k i))
             ∧ cellAt g (sampleIdx mask rnd k j) = Some cell
             ∧ Cell.land cell = true
             ∧ (Cell.owner cell = None ∨ Cell.owner cell = Some "")
             ∧ k' = (k + 2 * (j + 1))%nat
             ∧ g' = setPlayer
                      (setCell g (sampleIdx mask rnd k j)
                         (Cell.capture cell (Player.id bot)))
                      botKey
                      (Player.setTroops
                         (Player.setCells bot
                            (Set_add (Player.cells bot)
                               (sampleIdx mask rnd k j))) 10)).
Proof.
  intros HW Hrnd. pose proof (grid_height_pos mask HW) as HH.
  induction tries as [|n IH]; intros g k Hlen; cbn [botSpawn].
  - exists g, k. split; [reflexivity|]. left.
    split; [intros j Hj; lia|]. split; [reflexivity | lia].
  - rewrite <- (sampleIdx_0 mask rnd k).
    destruct (full_grid_cell mask g (randomBelow rnd k (GRID_W mask))
                (randomBelow rnd (S k) (GRID_H mask)) Hlen) as [cell Hc].
    { split; by apply randomBelow_range. }
    rewrite <- (sampleIdx_0 mask rnd k) in Hc. rewrite Hc.
    destruct (Cell.land cell && negb (truthy (Cell.owner cell))) eqn:Hfree.
    + apply andb_true_iff in Hfree as [Hland Hfree%negb_true_iff].
      apply truthy_false_iff in Hfree.
      eexists _, _. split; [reflexivity|]. right.
      exists 0%nat, cell. split; [lia|]. split; [intros i Hi; lia|].
      split; [exact Hc|]. split; [exact Hland|]. split; [exact Hfree|].
      split; [lia | reflexivity].
    + assert (Hnot : ¬ freeLand g (sampleIdx mask rnd k 0)).
      { intros (c & Hc' & Hl & Ho%truthy_false_iff).
        rewrite Hc in Hc'. injection Hc' as <-.
        by rewrite Hl, Ho in Hfree. }
      destruct (IH g (S (S k)) Hlen) as (g' & k' & Hrun & Hres).
      exists g', k'. split; [exact Hrun|].
      destruct Hres as [(Hnone & -> & ->)
                       |(j & c & Hj & Hbefore & Hcj & Hl & Ho & -> & ->)].
      * left. split; [|split; [reflexivity | lia]].
        intros [|j] Hj; [exact Hnot|].
        rewrite sampleIdx_S. apply Hnone. lia.
      * right. exists (S j), c. rewrite !sampleIdx_S.
        split; [lia|]. split.
        { intros [|i] Hi; [exact Hnot|].
          rewrite sampleIdx_S. apply Hbefore. lia. }
        split; [exact Hcj|]. split; [exact Hl|]. split; [exact Ho|].
        split; [lia | reflexivity].
Qed.

(** X16: a bot without territory samples at most 50 cells.  On a full
    grid with at least one column, and with random doubles of [0, 1), a
    bot that owns no cell never raises.  Either none of the 50 cells it
    samples (with 100 random numbers) is unowned land, and the world
    stays as it is; or the first sampled cell that is unowned land, found
    with two random numbers per sample, gets the bot as its owner with
    port and city false, no other cell changes, the territory of the bot
    is that one cell, its pool is set to exactly 10 (whatever it was) and
    no other player changes. *)
Theorem bot_without_territory (mask : list (list Z)) (g : Game)
    (botKey : string) (bot : Player.t) (rnd : nat → Q) (k : nat) :
  0 < GRID_W mask →
  length (cells g) = Z.to_nat (GRID_W mask * GRID_H mask) →
  randomOk rnd →
  players g !! botKey = Some bot → Player.cells bot = [] →
  ∃ g' k', botAct mask g botKey rnd k = (Some g', k')
    ∧ (((∀ j, (j < 50)%nat → ¬ freeLand g (sampleIdx mask rnd k j))
        ∧ g' = g ∧ k' = (k + 100)%nat)
       ∨ ∃ j cell c' bot',
           (j < 50)%nat
           ∧ (∀ i, (i < j)%nat → ¬ freeLand g (sampleIdx mask rnd k i))
           ∧ cellAt g (sampleIdx mask rnd k j) = Some cell
           ∧ Cell.land cell = true
           ∧ (Cell.owner cell = None ∨ Cell.owner cell = Some "")
           ∧ k' = (k + 2 * (j + 1))%nat
           ∧ cellAt g' (sampleIdx mask rnd k j) = Some c'
           ∧ Cell.owner c' = Some (Player.id bot)
           ∧ Cell.land c' = true
           ∧ Cell.port c' = false ∧ Cell.city c' = false
           ∧ (∀ i, i ≠ sampleIdx mask rnd k j → cellAt g' i = cellAt g i)
           ∧ players g' !! botKey = Some bot'
           ∧ Player.cells bot' = [sampleIdx mask rnd k j]
           ∧ Player.troops bot' = 10
           ∧ ∀ q, q ≠ botKey → players g' !! q = players g !! q).
Proof.
  intros HW Hlen Hrnd Hbot Hcells. unfold botAct. rewrite Hbot, Hcells.
  simpl.
  destruct (botSpawn_result mask botKey bot rnd 50 HW Hrnd g k Hlen)
    as (g' & k' & Hrun & Hres).
  exists g', k'. split; [exact Hrun|].
  destruct Hres as [(Hnone & -> & ->)
                   |(j & cell & Hj & Hbefore & Hc & Hland & Hfree & -> & ->)].
  - left. split; [exact Hnone|]. split; [reflexivity | lia].
  - right. eexists j, cell, _, _.
    split; [exact Hj|]. split; [exact Hbefore|].
    split; [exact Hc|]. split; [exact Hland|]. split; [exact Hfree|].
    split; [reflexivity|].
    split.
    { change (cellAt (setPlayer ?h ?a ?b) ?i) with (cellAt h i).
      by apply (cellAt_setCell_eq g _ cell). }
    split; [reflexivity|]. split; [exact Hland|].
    split; [reflexivity|]. split; [reflexivity|].
    split.
    { intros i Hi. change (cellAt (setPlayer ?h ?a ?b) ?i') with (cellAt h i').
      apply cellAt_setCell_ne; [by eapply cellAt_nonneg | congruence]. }
    split; [simpl; apply lookup_insert_eq|].
    split; [simpl; by rewrite Hcells|].
    split; [reflexivity|].
    intros q Hq. simpl. by rewrite lookup_insert_ne.
Qed.

Lemma zeroOracle_ok : randomOk zeroOracle.
Proof. intros k. split; [discriminate | vm_compute; discriminate]. Qed.

(** The first bot of [worldCrowd] has no territory; with the oracle at 0
    its first sample is the cell (0,0), which is unowned land, and the
    bot takes it with two random numbers. *)
Lemma bot_without_territory_witness :
  ∃ bot g' k' c',
    players worldCrowd !! "bot-a" = Some bot ∧ Player.cells bot = []
    ∧ freeLand worldCrowd 0
    ∧ botAct allLand3 worldCrowd "bot-a" zeroOracle 0 = (Some g', k')
    ∧ k' = 2%nat
    ∧ cellAt g' 0 = Some c' ∧ Cell.owner c' = Some "bot-a"
    ∧ poolOf g' "bot-a" = 10.
Proof.
  assert (Hfree : freeLand worldCrowd 0).
  { eexists. split; [vm_compute; reflexivity|].
    split; [reflexivity | by left]. }
  edestruct (bot_without_territory allLand3 worldCrowd "bot-a"
               {| Player.id := "bot-a"; Player.name := "Bot";
                  Player.color := "hsl(200, 60%, 50%)"; Player.cells := [];
                  Player.troops := 0 |}
               zeroOracle 0%nat) as (g' & k' & Hrun & Hres).
  - vm_compute; reflexivity.
  - vm_compute; reflexivity.
  - exact zeroOracle_ok.
  - vm_compute; reflexivity.
  - reflexivity.
  - destruct Hres as [(Hnone & _)
                     |(j & cell & c' & bot' & Hj & Hbefore & _ & _ & _ & Hk
                       & Hc' & Hown & _ & _ & _ & _ & Hb & _ & Hpool & _)].
    { destruct (Hnone 0%nat ltac:(lia)). exact Hfree. }
    destruct j as [|j].
    2:{ destruct (Hbefore 0%nat ltac:(lia)). exact Hfree. }
    eexists _, g', k', c'. split; [vm_compute; reflexivity|].
    split; [reflexivity|]. split; [exact Hfree|].
    split; [exact Hrun|]. split; [exact Hk|].
    split; [exact Hc'|]. split; [exact Hown|].
    unfold poolOf. rewrite Hb. exact Hpool.
Defined.

Lemma shapeOk_length mask g :
  shapeOk mask g →
  length (cells g) = Z.to_nat (GRID_W mask * GRID_H mask).
Proof.
  intros (HL & _ & _). rewrite <- (newGame_length mask).
  apply (f_equal length) in HL. unfold lands in HL.
  by rewrite !length_fmap in HL.
Qed.

Lemma growPlayers_total g :
  territoryConsistent g → is_Some (growPlayers g).
Proof.
  intros HT. unfold growPlayers. rewrite decide_True; [eauto|].
  intros id p Hp. apply growPlayer_total. intros idx Hidx.
  apply (HT id p Hp idx) in Hidx as (c & Hc & _). eauto.
Qed.

Lemma botAct_total mask g botKey rnd k :
  worldOk g → shapeOk mask g → 0 < GRID_W mask → randomOk rnd →
  ∃ g' k', botAct mask g botKey rnd k = (Some g', k').
Proof.
  intros HO HS HW Hrnd. unfold botAct.
  destruct (players g !! botKey) as [bot|] eqn:Hbot; [|by do 2 eexists].
  destruct (Z.of_nat (length (Player.cells bot)) =? 0) eqn:Hlen.
  { destruct (botSpawn_result mask botKey bot rnd 50 HW Hrnd g k
                (shapeOk_length mask g HS)) as (g' & k' & Hrun & _).
    by exists g', k'. }
  apply Z.eqb_neq in Hlen.
  destruct (randomBelow_range rnd k (Z.of_nat (length (Player.cells bot)))
              Hrnd ltac:(lia)) as [Hr0 Hr1].
  destruct (randomBelow rnd k _ <? 0) eqn:Hneg; [lia|].
  destruct (lookup_lt_is_Some_2 (Player.cells bot)
              (Z.to_nat (randomBelow rnd k
                           (Z.of_nat (length (Player.cells bot))))))
    as [srcIdx Hsrc]; [lia|].
  rewrite Hsrc.
  destruct (proj1 (proj1 HO botKey bot Hbot srcIdx)
              (list_elem_of_lookup_2 _ _ _ Hsrc)) as (srcCell & Hcell & _).
  rewrite Hcell. cbv zeta.
  set (targets := targetsOf mask g (Player.id bot) srcCell
                    (Z.rem srcIdx (GRID_W mask)) (srcIdx / GRID_W mask)).
  destruct (Z.of_nat (length targets) =? 0) eqn:Hnone; [by do 2 eexists|].
  apply Z.eqb_neq in Hnone.
  destruct (Player.troops bot / 2 <? 1); [by do 2 eexists|].
  destruct (randomBelow_range rnd (S k) (Z.of_nat (length targets))
              Hrnd ltac:(lia)) as [Ht0 Ht1].
  destruct (randomBelow rnd (S k) _ <? 0) eqn:Hneg2; [lia|].
  destruct (lookup_lt_is_Some_2 targets
              (Z.to_nat (randomBelow rnd (S k)
                           (Z.of_nat (length targets)))))
    as [t Ht]; [lia|].
  rewrite Ht.
  destruct (attack_returns mask g (Player.id bot)
              (Z.rem srcIdx (GRID_W mask)) (srcIdx / GRID_W mask)
              (fst t) (snd t)
              (roundDouble
                 (inject_Z (Player.troops bot / 2)
                  / inject_Z (Player.troops bot))%Q)) as [b Hb].
  { apply (targetsOf_cells mask g (Player.id bot) srcCell
             (Z.rem srcIdx (GRID_W mask)) (srcIdx / GRID_W mask)).
    eapply list_elem_of_lookup_2. exact Ht. }
  destruct (attack mask g _ _ _ _ _ _) as [o g1]. simpl in Hb. subst o.
  by do 2 eexists.
Qed.

Lemma botsAct_total mask rnd botKeys :
  0 < GRID_W mask → randomOk rnd →
  ∀ g k, worldOk g → shapeOk mask g →
    ∃ g' k', botsAct mask g botKeys rnd k = (Some g', k').
Proof.
  intros HW Hrnd.
  induction botKeys as [|b rest IH]; intros g k HO HS; simpl.
  - by eexists _, _.
  - destruct (botAct_total mask g b rnd k HO HS HW Hrnd)
      as (g1 & k1 & Hb).
    rewrite Hb. apply IH.
    + by apply (botAct_worldOk mask g b rnd k g1 k1).
    + by apply (botAct_shapeOk mask g b rnd k g1 k1).
Qed.

(** X17: the tick never raises.  In every world that the server reaches
    when its joins draw new ids and its requests carry no property name
    of [Object.prototype] as player id, on a grid with at least one
    column and with random doubles of [0, 1), [update] runs to its end:
    the growth loop finds a cell for every territory index, every bot
    finds its source cell and its target, and the bots' attacks go to
    cells that exist.  The world after the tick is a reached world
    again. *)
Theorem tick_never_raises (mask : list (list Z)) (g : Game)
    (rnd : nat → Q) (k : nat) :
  reachable mask eventServed g → 0 < GRID_W mask → randomOk rnd →
  ∃ g', fst (update mask g rnd k) = Some g'
        ∧ reachable mask eventServed g'.
Proof.
  intros Hreach HW Hrnd.
  assert (Hfresh : reachable mask eventFresh g).
  { apply (reachable_weaken mask eventServed eventFresh g); [|exact Hreach].
    by intros h e [H _]. }
  pose proof (reachable_worldOk mask g Hfresh) as HO.
  pose proof (reachable_shapeOk mask eventFresh g Hfresh) as HS.
  assert (Hrun : ∃ g', fst (update mask g rnd k) = Some g').
  { unfold update.
    destruct (growPlayers_total g (proj1 HO)) as [g1 Hg]. rewrite Hg.
    destruct (botsAct_total mask rnd (bots g1) HW Hrnd g1 k)
      as (g' & k' & Hb).
    - by apply (growPlayers_worldOk g).
    - by apply (growPlayers_shapeOk mask g).
    - exists g'. by rewrite Hb. }
  destruct Hrun as [g' Hg']. exists g'. split; [exact Hg'|].
  by apply (reach_step mask eventServed g (Tick rnd k) g').
Qed.

(** A tick of [worldCrowdSpawned] with the oracle at 0 runs to its
    end. *)
Lemma tick_never_raises_witness :
  reachable allLand3 eventServed worldCrowdSpawned
  ∧ 0 < GRID_W allLand3
  ∧ ∃ g', fst (update allLand3 worldCrowdSpawned zeroOracle 0) = Some g'.
Proof.
  assert (HW : 0 < GRID_W allLand3) by (vm_compute; reflexivity).
  split; [exact worldCrowdSpawned_served|]. split; [exact HW|].
  destruct (tick_never_raises allLand3 worldCrowdSpawned zeroOracle 0
              worldCrowdSpawned_served HW zeroOracle_ok) as (g' & Hg & _).
  by exists g'.
Defined.

(** ** Cells owned by an id without player object *)

Lemma owned_truthy g i d c :
  owned g i d → d ≠ "" → cellAt g i = Some c → truthy (Cell.owner c) = true.
Proof.
  intros (c0 & Hc0 & Hown) Hd Hc. rewrite Hc in Hc0. injection Hc0 as <-.
  rewrite Hown. by apply truthy_Some.
Qed.

Lemma resolve_ghost g1 id player dstIdx toSend i d :
  owned g1 i d → d ≠ "" → d ≠ id → players g1 !! d = None →
  owned (snd (resolve g1 id player dstIdx toSend)) i d
  ∧ players (snd (resolve g1 id player dstIdx toSend)) !! d = None.
Proof.
  intros Hown Hd Hne Hnone. unfold resolve.
  destruct (cellAt g1 dstIdx) as [dstCell|] eqn:Hc; [|done].
  destruct (negb (truthy (Cell.owner dstCell))) eqn:Hfree.
  { apply negb_true_iff in Hfree. simpl.
    assert (Hi : i ≠ dstIdx).
    { intros ->. by rewrite (owned_truthy g1 dstIdx d dstCell) in Hfree. }
    split; [|by rewrite lookup_insert_ne].
    change (owned (setPlayer ?h ?a ?b) i d) with (owned h i d).
    rewrite (owned_setCell g1 dstIdx dstCell _ i d Hc).
    by rewrite decide_False. }
  destruct (ownerIs (Cell.owner dstCell) id); [done|].
  destruct (Cell.owner dstCell) as [d'|] eqn:Hd'; [|done].
  destruct (players g1 !! d') as [defender|] eqn:Hdef; [|done].
  assert (Hdd : d' ≠ d) by (intros ->; congruence).
  destruct (toSend >? Player.troops defender); simpl.
  - assert (Hi : i ≠ dstIdx).
    { intros ->. destruct Hown as (c0 & Hc0 & Ho). congruence. }
    split; [|by rewrite !lookup_insert_ne].
    change (owned (setPlayer ?h ?a ?b) i d) with (owned h i d).
    rewrite (owned_setCell (setPlayer g1 d' _) dstIdx dstCell _ i d Hc).
    by rewrite decide_False.
  - split; [exact Hown | by rewrite lookup_insert_ne].
Qed.

Lemma attack_ghost mask g id srcX srcY dstX dstY percent i d :
  owned g i d → d ≠ "" → players g !! d = None →
  owned (snd (attack mask g id srcX srcY dstX dstY percent)) i d
  ∧ players (snd (attack mask g id srcX srcY dstX dstY percent)) !! d = None.
Proof.
  intros Hown Hd Hnone. unfold attack.
  destruct (players g !! id) as [player|] eqn:Hp; [|done].
  destruct (cellAt g _) as [srcCell|]; [|done].
  destruct (negb (ownerIs _ _)); [done|].
  destruct (negb (moveAllowed _ _ _ _ _ _ _ _)); [done|].
  destruct (toSendOf (Player.troops player) percent <? 1); [done|].
  assert (Hne : d ≠ id) by (intros ->; congruence).
  apply resolve_ghost; try done.
  simpl. by rewrite lookup_insert_ne.
Qed.

Lemma attackEach_ghost mask id x y per targets i d :
  d ≠ "" →
  ∀ g any, owned g i d → players g !! d = None →
    owned (snd (attackEach mask g id x y per targets any)) i d
    ∧ players (snd (attackEach mask g id x y per targets any)) !! d = None.
Proof.
  intros Hd. induction targets as [|t rest IH]; intros g any Hown Hnone;
    [done|].
  simpl.
  pose proof (attack_ghost mask g id x y (fst t) (snd t) per i d
                Hown Hd Hnone) as [H1 H2].
  destruct (attack mask g id x y (fst t) (snd t) per) as [[ok|] g1];
    [by apply IH | done].
Qed.

Lemma exec_ghost mask g c i d :
  owned g i d → d ≠ "" → players g !! d = None →
  owned (snd (exec mask g c)) i d
  ∧ players (snd (exec mask g c)) !! d = None.
Proof.
  intros Hown Hd Hnone.
  destruct c as [id x y|id sx sy dx dy f|id x y f|id x y|id x y]; simpl.
  - unfold spawn. destruct (cellAt g _) as [cell|] eqn:Hc; [|done].
    destruct (negb (Cell.land cell) || truthy (Cell.owner cell)) eqn:Hcond;
      [done|].
    apply orb_false_iff in Hcond as [_ Hfree].
    assert (Hi : i ≠ y * GRID_W mask + x).
    { intros ->.
      by rewrite (owned_truthy g (y * GRID_W mask + x) d cell) in Hfree. }
    change (players (setCell g ?j ?c) !! id) with (players g !! id).
    destruct (players g !! id) as [p|] eqn:Hp; simpl.
    + split.
      * change (owned (setPlayer ?h ?a ?b) i d) with (owned h i d).
        rewrite (owned_setCell g _ cell _ i d Hc). by rewrite decide_False.
      * rewrite lookup_insert_ne; [done | congruence].
    + split; [|done].
      rewrite (owned_setCell g _ cell _ i d Hc). by rewrite decide_False.
  - by apply attack_ghost.
  - unfold expand.
    destruct (cellAt g _) as [srcCell|]; [|done].
    destruct (negb (ownerIs _ _)); [done|].
    destruct (players g !! id) as [player|]; [|done].
    destruct (Z.of_nat (length (targetsOf mask g id srcCell x y)) =? 0);
      [done|].
    by apply attackEach_ghost.
  - unfold buildPort. destruct (cellAt g _) as [cell|] eqn:Hc; [|done].
    destruct (_ || _) eqn:Hguard; [done|].
    apply orb_false_iff in Hguard as [Hguard _].
    apply orb_false_iff in Hguard as [Ho%negb_false_iff _].
    apply ownerIs_true in Ho.
    destruct (negb (adjacentWater mask g x y)); [done|].
    destruct (players g !! id) as [p|] eqn:Hp; [|done].
    destruct (Player.troops p <? 5); [done|]. simpl.
    assert (Hne : id ≠ d) by congruence.
    split; [|by rewrite lookup_insert_ne].
    rewrite (owned_setCell (setPlayer g id _) _ cell _ i d Hc).
    case_decide as Hi; [|done]. subst i.
    destruct Hown as (c0 & Hc0 & Hod). congruence.
  - unfold buildCity. destruct (cellAt g _) as [cell|] eqn:Hc; [|done].
    destruct (_ || _) eqn:Hguard; [done|].
    apply orb_false_iff in Hguard as [Hguard _].
    apply orb_false_iff in Hguard as [Ho%negb_false_iff _].
    apply ownerIs_true in Ho.
    destruct (players g !! id) as [p|] eqn:Hp; [|done].
    destruct (Player.troops p <? 10); [done|]. simpl.
    assert (Hne : id ≠ d) by congruence.
    split; [|by rewrite lookup_insert_ne].
    rewrite (owned_setCell (setPlayer g id _) _ cell _ i d Hc).
    case_decide as Hi; [|done]. subst i.
    destruct Hown as (c0 & Hc0 & Hod). congruence.
Qed.

Lemma execAll_ghost mask cs i d :
  d ≠ "" →
  ∀ g, owned g i d → players g !! d = None →
    owned (execAll mask g cs) i d ∧ players (execAll mask g cs) !! d = None.
Proof.
  intros Hd. induction cs as [|c cs IH]; intros g Hown Hnone; [done|].
  unfold execAll. simpl.
  destruct (exec_ghost mask g c i d Hown Hd Hnone) as [H1 H2].
  by apply IH.
Qed.

(** X18: a spawn for an unknown player locks the cell.  [spawn] with a
    non-empty id that names no player object, on a free land cell, raises
    only after it has written the id as the owner of the cell.  From then
    on no run of commands (spawn, attack, expand, builds, by anyone)
    changes the owner of that cell or makes a player object for the id:
    the cell can be neither taken nor freed. *)
Theorem spawn_unknown_player_locks_cell (mask : list (list Z)) (g : Game)
    (id : string) (x y : Z) (cell : Cell.t) :
  cellAt g (y * GRID_W mask + x) = Some cell →
  Cell.land cell = true →
  Cell.owner cell = None ∨ Cell.owner cell = Some "" →
  players g !! id = None → id ≠ "" →
  fst (spawn mask g id x y) = Thrown
  ∧ ∀ cs, owned (execAll mask (snd (spawn mask g id x y)) cs)
            (y * GRID_W mask + x) id
          ∧ players (execAll mask (snd (spawn mask g id x y)) cs) !! id
            = None.
Proof.
  intros Hc Hland Hfree%truthy_false_iff Hnone Hid.
  assert (Hrun : spawn mask g id x y
                 = (Thrown,
                    setCell g (y * GRID_W mask + x) (Cell.claim cell id))).
  { unfold spawn. rewrite Hc, Hland, Hfree. simpl.
    change (players (setCell g ?j ?c) !! id) with (players g !! id).
    by rewrite Hnone. }
  rewrite Hrun. split; [reflexivity|]. intros cs. simpl.
  apply execAll_ghost; [exact Hid| |exact Hnone].
  exists (Cell.claim cell id). split; [|reflexivity].
  by apply (cellAt_setCell_eq g _ cell).
Qed.

(** In [worldSpawned] a spawn for the unknown id Z on (0,0) raises; the
    attack of A on (0,0) that follows does not take the cell. *)
Lemma spawn_unknown_player_witness :
  fst (spawn allLand3 worldSpawned "Z" 0 0) = Thrown
  ∧ owned (execAll allLand3 (snd (spawn allLand3 worldSpawned "Z" 0 0))
             [Attack "A" 1 1 0 0 (1 # 2)])
      (0 * GRID_W allLand3 + 0) "Z".
Proof.
  edestruct (spawn_unknown_player_locks_cell allLand3 worldSpawned "Z" 0 0)
    as [Hrun Hlock].
  - vm_compute; reflexivity.
  - reflexivity.
  - by left.
  - vm_compute; reflexivity.
  - discriminate.
  - split; [exact Hrun|]. exact (proj1 (Hlock [Attack "A" 1 1 0 0 (1 # 2)])).
Defined.

(** ** Moves that are out of reach *)

(** X19: moves that [attack] refuses.  An attack on the source cell
    itself, on a cell three or more steps away, or on a cell two steps
    away from a source cell without port returns [false] and changes
    nothing, whoever owns the cells and whatever the pool is. *)
Theorem attack_out_of_reach (mask : list (list Z)) (g : Game) (id : string)
    (srcX srcY dstX dstY : Z) (percent : Q) :
  let maxStep := Z.max (Z.abs (dstX - srcX)) (Z.abs (dstY - srcY)) in
  maxStep = 0 ∨ 3 ≤ maxStep
  ∨ (maxStep = 2
     ∧ ∀ srcCell, cellAt g (srcY * GRID_W mask + srcX) = Some srcCell →
                  Cell.port srcCell = false) →
  attack mask g id srcX srcY dstX dstY percent = (Returned false, g).
Proof.
  intros maxStep Hfar.
  destruct (cellAt g (srcY * GRID_W mask + srcX)) as [srcCell|] eqn:Hsrc.
  2:{ unfold attack. rewrite Hsrc. by destruct (players g !! id). }
  apply (attack_rejects_move mask g id srcX srcY dstX dstY percent srcCell
           Hsrc).
  destruct (moveAllowed mask g srcCell _ srcX srcY dstX dstY) eqn:Hmove;
    [|reflexivity].
  apply moveAllowed_spec in Hmove. cbv zeta in Hmove. fold maxStep in Hmove.
  destruct Hmove as [H1|(H2 & Hport & _)].
  - destruct Hfar as [?|[?|[? _]]]; lia.
  - destruct Hfar as [?|[?|[_ Hnoport]]]; [lia|lia|].
    rewrite (Hnoport srcCell eq_refl) in Hport. discriminate.
Qed.

(** In [worldSpawned] the attack of A from (1,1) on (1,1) itself fails
    and changes nothing. *)
Lemma attack_out_of_reach_witness :
  attack allLand3 worldSpawned "A" 1 1 1 1 (1 # 2)
  = (Returned false, worldSpawned).
Proof.
  apply (attack_out_of_reach allLand3 worldSpawned "A" 1 1 1 1 (1 # 2)).
  left. reflexivity.
Defined.

(** ** A property of cells that every operation keeps *)

Section CellInvariant.

Variable P : Cell.t → Prop.
Hypothesis P_new : ∀ v, P (newCell v).
Hypothesis P_capture : ∀ c id, P c → P (Cell.capture c id).
Hypothesis P_claim : ∀ c id, P c → P (Cell.claim c id).
Hypothesis P_release : ∀ c, P c → P (Cell.release c).
Hypothesis P_setPort : ∀ c, P c → P (Cell.setPort c).
Hypothesis P_setCity : ∀ c, P c → P (Cell.setCity c).

Lemma allCells_setCell g idx c c' :
  allCells P g → cellAt g idx = Some c → P c' →
  allCells P (setCell g idx c').
Proof.
  intros H Hc Hc' i x Hx. destruct (decide (i = idx)) as [->|Hne].
  - rewrite (cellAt_setCell_eq g idx c c' Hc) in Hx. by injection Hx as <-.
  - rewrite cellAt_setCell_ne in Hx;
      [by apply (H i) | by eapply cellAt_nonneg | congruence].
Qed.

Lemma resolve_allCells g1 id player dstIdx toSend :
  allCells P g1 → allCells P (snd (resolve g1 id player dstIdx toSend)).
Proof.
  intros H. unfold resolve.
  destruct (cellAt g1 dstIdx) as [dstCell|] eqn:Hc; [|exact H].
  destruct (negb (truthy (Cell.owner dstCell))).
  { simpl. apply (allCells_setCell g1 dstIdx dstCell); [done..|].
    apply P_capture, (H dstIdx dstCell Hc). }
  destruct (ownerIs (Cell.owner dstCell) id); [exact H|].
  destruct (Cell.owner dstCell) as [d|]; [|exact H].
  destruct (players g1 !! d) as [defender|]; [|exact H].
  destruct (toSend >? Player.troops defender); simpl; [|exact H].
  apply (allCells_setCell (setPlayer g1 d _) dstIdx dstCell); [done..|].
  apply P_capture, (H dstIdx dstCell Hc).
Qed.

Lemma attack_allCells mask g id srcX srcY dstX dstY percent :
  allCells P g →
  allCells P (snd (attack mask g id srcX srcY dstX dstY percent)).
Proof.
  intros H. unfold attack.
  destruct (players g !! id) as [player|]; [|exact H].
  destruct (cellAt g _) as [srcCell|]; [|exact H].
  destruct (negb (ownerIs _ _)); [exact H|].
  destruct (negb (moveAllowed _ _ _ _ _ _ _ _)); [exact H|].
  destruct (toSendOf (Player.troops player) percent <? 1); [exact H|].
  by apply resolve_allCells.
Qed.

Lemma attackEach_allCells mask id x y per targets :
  ∀ g any, allCells P g →
    allCells P (snd (attackEach mask g id x y per targets any)).
Proof.
  induction targets as [|t rest IH]; intros g any H; [exact H|].
  simpl.
  pose proof (attack_allCells mask g id x y (fst t) (snd t) per H) as H1.
  destruct (attack mask g id x y (fst t) (snd t) per) as [[ok|] g1];
    [apply IH; exact H1 | exact H1].
Qed.

Lemma exec_allCells mask g c :
  allCells P g → allCells P (snd (exec mask g c)).
Proof.
  intros H. destruct c as [id x y|id sx sy dx dy f|id x y f|id x y|id x y];
    simpl.
  - unfold spawn. destruct (cellAt g _) as [cell|] eqn:Hc; [|exact H].
    destruct (_ || _); [exact H|].
    assert (H1 : allCells P (setCell g (y * GRID_W mask + x)
                               (Cell.claim cell id))).
    { apply (allCells_setCell g _ cell); [done..|].
      apply P_claim, (H _ cell Hc). }
    change (players (setCell g ?i ?c) !! id) with (players g !! id).
    by destruct (players g !! id).
  - by apply attack_allCells.
  - unfold expand.
    destruct (cellAt g _) as [srcCell|]; [|exact H].
    destruct (negb (ownerIs _ _)); [exact H|].
    destruct (players g !! id) as [player|]; [|exact H].
    destruct (Z.of_nat (length (targetsOf mask g id srcCell x y)) =? 0);
      [exact H|].
    by apply attackEach_allCells.
  - unfold buildPort. destruct (cellAt g _) as [cell|] eqn:Hc; [|exact H].
    destruct (_ || _); [exact H|].
    destruct (negb (adjacentWater mask g x y)); [exact H|].
    destruct (players g !! id) as [p|]; [|exact H].
    destruct (Player.troops p <? 5); [exact H|]. simpl.
    apply (allCells_setCell (setPlayer g id _) _ cell); [done..|].
    apply P_setPort, (H _ cell Hc).
  - unfold buildCity. destruct (cellAt g _) as [cell|] eqn:Hc; [|exact H].
    destruct (_ || _); [exact H|].
    destruct (players g !! id) as [p|]; [|exact H].
    destruct (Player.troops p <? 10); [exact H|]. simpl.
    apply (allCells_setCell (setPlayer g id _) _ cell); [done..|].
    apply P_setCity, (H _ cell Hc).
Qed.

Lemma botSpawn_allCells mask botKey bot rnd tries :
  ∀ g k g' k', allCells P g →
    botSpawn mask g botKey bot rnd k tries = (Some g', k') → allCells P g'.
Proof.
  induction tries as [|n IH]; intros g k g' k' H; simpl.
  - by intros [= <- _].
  - destruct (cellAt g _) as [cell|] eqn:Hc; [|discriminate].
    destruct (Cell.land cell && negb (truthy (Cell.owner cell))).
    + intros [= <- _].
      apply (allCells_setCell g _ cell); [done..|].
      apply P_capture, (H _ cell Hc).
    + by apply IH.
Qed.

Lemma botAct_allCells mask g botKey rnd k g' k' :
  allCells P g → botAct mask g botKey rnd k = (Some g', k') →
  allCells P g'.
Proof.
  intros H. unfold botAct.
  destruct (players g !! botKey) as [bot|]; [|by intros [= <- _]].
  destruct (Z.of_nat (length (Player.cells bot)) =? 0).
  { by apply botSpawn_allCells. }
  destruct (if randomBelow rnd k _ <? 0 then None else _) as [srcIdx|];
    [|discriminate].
  destruct (cellAt g srcIdx) as [srcCell|]; [|discriminate].
  destruct (Z.of_nat (length (targetsOf mask g _ srcCell _ _)) =? 0);
    [by intros [= <- _]|].
  destruct (Player.troops bot / 2 <? 1); [by intros [= <- _]|].
  destruct (if randomBelow rnd (S k) _ <? 0 then None else _) as [t|];
    [|discriminate].
  pose proof (attack_allCells mask g (Player.id bot)
                (Z.rem srcIdx (GRID_W mask)) (srcIdx / GRID_W mask)
                (fst t) (snd t)
                (roundDouble
                   (inject_Z (Player.troops bot / 2)
                    / inject_Z (Player.troops bot))%Q) H) as H1.
  destruct (attack mask g _ _ _ _ _ _) as [[ok|] g1]; [|discriminate].
  by intros [= <- _].
Qed.

Lemma botsAct_allCells mask rnd botKeys :
  ∀ g k g' k', allCells P g →
    botsAct mask g botKeys rnd k = (Some g', k') → allCells P g'.
Proof.
  induction botKeys as [|b rest IH]; intros g k g' k' H; simpl.
  - by intros [= <- _].
  - destruct (botAct mask g b rnd k) as [[g1|] k1] eqn:Hb; [|discriminate].
    apply IH. by apply (botAct_allCells mask g b rnd k g1 k1).
Qed.

Lemma releaseCells_allCells idxs :
  ∀ g g1, allCells P g → releaseCells g idxs = Some g1 → allCells P g1.
Proof.
  induction idxs as [|idx rest IH]; intros g g1 H; cbn [releaseCells].
  - by intros [= <-].
  - destruct (cellAt g idx) as [cell|] eqn:Hc; [|discriminate].
    apply IH. apply (allCells_setCell g idx cell); [done..|].
    apply P_release, (H idx cell Hc).
Qed.

Lemma ensureBotsLoop_cells suffix colors fuel :
  ∀ g k, cells (ensureBotsLoop fuel g suffix colors k) = cells g.
Proof.
  induction fuel as [|n IH]; intros g k; simpl; [reflexivity|].
  destruct (_ <? MAX_PLAYERS_PER_GAME); [|reflexivity].
  by rewrite IH.
Qed.

Lemma event_allCells mask g e g' :
  allCells P g → apply mask g e = Some g' → allCells P g'.
Proof.
  intros H. destruct e as [c|id name color suffix colors|id|rnd k]; simpl.
  - intros [= <-]. by apply exec_allCells.
  - intros [= <-]. unfold join, addPlayer.
    destruct (_ >=? _); [exact H|]. simpl.
    intros idx c. unfold cellAt, ensureBots.
    rewrite ensureBotsLoop_cells. apply (H idx c).
  - unfold leave. destruct (_ && _); [|by intros [= <-]].
    unfold removePlayer. destruct (players g !! id) as [p|];
      [|by intros [= <-]].
    destruct (releaseCells g (Player.cells p)) as [g1|] eqn:Hr;
      [|discriminate].
    intros [= <-]. apply (releaseCells_allCells _ _ _ H Hr).
  - unfold update.
    destruct (growPlayers g) as [g1|] eqn:Hg; [|discriminate].
    destruct (botsAct mask g1 (bots g1) rnd k) as [o k'] eqn:Hb.
    simpl. intros ->.
    apply (botsAct_allCells mask rnd (bots g1) g1 k g' k'); [|exact Hb].
    intros idx c. unfold cellAt. rewrite (growPlayers_cells g g1 Hg).
    apply (H idx c).
Qed.

Lemma reachable_allCells mask ok g : reachable mask ok g → allCells P g.
Proof.
  induction 1 as [|g e g' _ IH Hok Happ].
  - intros idx c Hc. destruct (newGame_cell mask idx c Hc) as [v ->].
    apply P_new.
  - by apply (event_allCells mask g e g').
Qed.

End CellInvariant.

(** ** The snapshot *)

Lemma cellView_id c : cellView c = c.
Proof. by destruct c. Qed.

(** X20: the snapshot of a reached world.  In every world that the
    server reaches when its requests and joins carry no property name of
    [Object.prototype] as player id, [serializeState] lists
    [gridW * gridH] cells, each with the five fields of the cell
    unchanged; the per-cell troop count it sends is 0 for every cell (the
    engine never writes another value there); and it lists exactly the
    player objects, each with its id, name, colour and pool. *)
Theorem snapshot_consistent (mask : list (list Z)) (g : Game) :
  reachable mask (λ _ e, eventPlain e) g →
  let s := serializeState mask g in
  length (snapCells s) = Z.to_nat (gridW s * gridH s)
  ∧ snapCells s = cells g
  ∧ Forall (λ c, Cell.troops c = 0) (snapCells s)
  ∧ (∀ id, is_Some (snapPlayers s !! id) ↔ is_Some (players g !! id))
  ∧ ∀ id p, players g !! id = Some p →
      ∃ v, snapPlayers s !! id = Some v
        ∧ PlayerView.id v = Player.id p
        ∧ PlayerView.name v = Player.name p
        ∧ PlayerView.color v = Player.color p
        ∧ PlayerView.troops v = Player.troops p.
Proof.
  intros Hreach s.
  assert (Hcells : snapCells s = cells g).
  { subst s. simpl. induction (cells g) as [|c l IH]; [reflexivity|].
    simpl. by rewrite cellView_id, IH. }
  split.
  { rewrite Hcells. subst s. simpl.
    apply shapeOk_length, (reachable_shapeOk mask _ g Hreach). }
  split; [exact Hcells|]. split.
  { rewrite Hcells. apply Forall_lookup. intros i c Hc.
    pose proof (reachable_allCells (λ c, Cell.troops c = 0)
                  (λ _, eq_refl) (λ c0 _ H0, H0) (λ _ _ _, eq_refl)
                  (λ _ _, eq_refl) (λ c0 H0, H0) (λ c0 H0, H0)
                  mask _ g Hreach) as Hall.
    apply (Hall (Z.of_nat i) c). unfold cellAt.
    destruct (Z.of_nat i <? 0) eqn:Hneg; [apply Z.ltb_lt in Hneg; lia|].
    by rewrite Nat2Z.id. }
  split.
  { intros id. subst s. simpl. rewrite lookup_fmap.
    by rewrite fmap_is_Some. }
  intros id p Hp. subst s. simpl. rewrite lookup_fmap, Hp. simpl.
  by eexists.
Qed.

(** The snapshot of [worldCrowdSpawned] has 9 cells, all with troops 0,
    and lists A with its pool of 10. *)
Lemma snapshot_consistent_witness :
  reachable allLand3 (λ _ e, eventPlain e) worldCrowdSpawned
  ∧ length (snapCells (serializeState allLand3 worldCrowdSpawned)) = 9%nat
  ∧ Forall (λ c, Cell.troops c = 0)
      (snapCells (serializeState allLand3 worldCrowdSpawned))
  ∧ ∃ v, snapPlayers (serializeState allLand3 worldCrowdSpawned) !! "A"
         = Some v
      ∧ PlayerView.troops v = 10.
Proof.
  assert (Hreach : reachable allLand3 (λ _ e, eventPlain e)
                     worldCrowdSpawned).
  { apply (reachable_weaken allLand3 eventServed _ worldCrowdSpawned);
      [by intros h e [_ H] | exact worldCrowdSpawned_served]. }
  split; [exact Hreach|].
  destruct (snapshot_consistent allLand3 worldCrowdSpawned Hreach)
    as (Hlen & _ & Hzero & _ & Hplayers).
  split; [exact Hlen|]. split; [exact Hzero|].
  destruct (Hplayers "A" playerSpawned ltac:(vm_compute; reflexivity))
    as (v & Hv & _ & _ & _ & Hpool).
  exists v. split; [exact Hv | exact Hpool].
Defined.

(** ** The result of [expand] *)

Lemma attackEach_flags mask id x y per targets :
  ∀ g any,
    (∀ t, t ∈ targets → is_Some (cellAt g (snd t * GRID_W mask + fst t))) →
    fst (attackEach mask g id x y per targets any)
    = Returned (any || existsb (λ b, b) (okEach mask g id x y per targets))
    ∧ length (okEach mask g id x y per targets) = length targets.
Proof.
  induction targets as [|t rest IH]; intros g any H; simpl.
  - by rewrite orb_false_r.
  - destruct (attack_returns mask g id x y (fst t) (snd t) per) as [ok Hok];
      [apply H; by left|].
    pose proof (λ i, attack_keeps_cells mask g id x y (fst t) (snd t) per i)
      as Hkeep.
    destruct (attack mask g id x y (fst t) (snd t) per) as [o g1].
    simpl in Hok. subst o. simpl.
    destruct (IH g1 (any || ok)) as [Hflag Hlen].
    { intros t' Ht'. apply Hkeep, H. by right. }
    rewrite Hflag, Hlen. split; [|reflexivity].
    by rewrite orb_assoc.
Qed.

Lemma attackEach_too_few mask id x y per targets player :
  ∀ g any, players g !! id = Some player →
    toSendOf (Player.troops player) per < 1 →
    attackEach mask g id x y per targets any = (Returned any, g).
Proof.
  induction targets as [|t rest IH]; intros g any Hp Hfew; [reflexivity|].
  simpl.
  assert (Hone : attack mask g id x y (fst t) (snd t) per
                 = (Returned false, g)).
  { unfold attack. rewrite Hp.
    destruct (cellAt g _) as [srcCell|]; [|reflexivity].
    destruct (negb (ownerIs _ _)); [reflexivity|].
    destruct (negb (moveAllowed _ _ _ _ _ _ _ _)); [reflexivity|].
    destruct (toSendOf (Player.troops player) per <? 1) eqn:Hlt;
      [reflexivity | lia]. }
  rewrite Hone, orb_false_r. by apply IH.
Qed.

(** X21: the result of [expand].  For a player whose id, like the
    owners of all cells, is not a property name of [Object.prototype]:
    from an owned source cell with at least one target, [expand] issues
    one attack per target with the share
    [per = percent / targetCount] (a double), none of which raises, and
    returns [true] exactly when one of them returned [true].  When the
    player's pool is so small that [floor(pool * per) < 1], every
    sub-attack fails: [expand] returns [false] and changes nothing. *)
Theorem expand_result (mask : list (list Z)) (g : Game) (id : string)
    (x y : Z) (percent : Q) (srcCell : Cell.t) (player : Player.t) :
  plainId id → plainOwners g →
  cellAt g (y * GRID_W mask + x) = Some srcCell →
  Cell.owner srcCell = Some id →
  players g !! id = Some player →
  let targets := targetsOf mask g id srcCell x y in
  let per :=
    roundDouble
      (roundDouble percent / inject_Z (Z.of_nat (length targets)))%Q in
  targets ≠ [] →
  fst (expand mask g id x y percent)
  = Returned (existsb (λ b, b) (okEach mask g id x y per targets))
  ∧ length (okEach mask g id x y per targets) = length targets
  ∧ (Qfloor (roundDouble (inject_Z (Player.troops player) * per)) < 1 →
     expand mask g id x y percent = (Returned false, g)).
Proof.
  intros _ _ Hc Hown Hp targets per Hsome.
  assert (Hrun : expand mask g id x y percent
                 = attackEach mask g id x y per targets false).
  { unfold expand. rewrite Hc, (proj2 (ownerIs_true _ _) Hown), Hp. simpl.
    fold targets.
    destruct (Z.of_nat (length targets) =? 0) eqn:Hk; [|reflexivity].
    apply Z.eqb_eq in Hk. destruct targets; [done | simpl in Hk; lia]. }
  rewrite Hrun.
  destruct (attackEach_flags mask id x y per targets g false)
    as [Hflag Hlen].
  { intros t Ht. by apply (targetsOf_cells mask g id srcCell x y). }
  split; [exact Hflag|]. split; [exact Hlen|].
  intros Hfew.
  apply (attackEach_too_few mask id x y per targets player g false Hp).
  unfold per. by rewrite toSendOf_double_arg.
Qed.

Lemma worldSpawned_plainOwners : plainOwners worldSpawned.
Proof.
  intros idx c d Hc Hown.
  assert (Hd : d = "A"); [|subst d; exact plainId_A].
  unfold cellAt in Hc. destruct (idx <? 0); [discriminate|].
  apply list_elem_of_lookup_2 in Hc. vm_compute in Hc.
  repeat (apply elem_of_cons in Hc as [->|Hc];
          [simpl in Hown; congruence|]).
  by apply elem_of_nil in Hc.
Qed.

(** In [worldSpawned] A (pool 10) expands from (1,1) to its 8
    neighbours.  With the fraction 0.6 each share is the double nearest
    to 0.075 and [floor(10 * 0.075) = 0]: nothing happens.  With the
    fraction 1 each share is 0.125, the sub-attacks send one troop each,
    and [expand] returns [true]. *)
Lemma expand_result_witness :
  expand allLand3 worldSpawned "A" 1 1 (6 # 10)
  = (Returned false, worldSpawned)
  ∧ fst (expand allLand3 worldSpawned "A" 1 1 1) = Returned true.
Proof.
  split.
  - refine (proj2 (proj2 (expand_result allLand3 worldSpawned "A" 1 1 (6 # 10)
              {| Cell.land := true; Cell.owner := Some "A"; Cell.troops := 0;
                 Cell.port := false; Cell.city := false |}
              playerSpawned plainId_A worldSpawned_plainOwners _ _ _ _)) _).
    + vm_compute; reflexivity.
    + reflexivity.
    + vm_compute; reflexivity.
    + vm_compute; discriminate.
    + vm_compute; reflexivity.
  - rewrite (proj1 (expand_result allLand3 worldSpawned "A" 1 1 1
              {| Cell.land := true; Cell.owner := Some "A"; Cell.troops := 0;
                 Cell.port := false; Cell.city := false |}
              playerSpawned plainId_A worldSpawned_plainOwners
              ltac:(vm_compute; reflexivity) eq_refl
              ltac:(vm_compute; reflexivity)
              ltac:(vm_compute; discriminate))).
    vm_compute. reflexivity.
Defined.
